(** * grudge: discretization/operator evaluation core

  A shallow embedding of the parts of grudge that decide the properties
  checked below: [grudge.projection.project], [grudge.dt_utils],
  [grudge.sbp_op], [grudge.models.burgers], [grudge.models.wave],
  [grudge.models.euler.log_mean] and the geometry builders of
  [grudge.symbolic.primitives].

  Conventions of the embedding.
  - Python exceptions are values of [exn]; a call that may raise returns
    [result A].
  - A call that touches the numerical machinery of a collection
    (connections, discretization look-ups, integrals, einsum kernels) is
    recorded as an [Event]; a traced computation [Eff A] is the list of
    events performed, in order, together with the outcome.
  - Floating point numbers are written as real numbers ([R]) where the
    properties proved do not depend on rounding; [log_mean], whose
    properties do, is modelled on binary64 numbers ([float]). *)

From Stdlib Require Import Floats.
From Stdlib Require Import String Ascii ZArith Bool Arith List Lia.
From Stdlib Require Import Reals Lra.
From Stdlib Require Import DecimalString.
Import ListNotations.

Set Implicit Arguments.
Set Warnings "-register-all".
Set Warnings "-inexact-float".

(* ===================================================================== *)
(** ** Python outcomes *)
(* ===================================================================== *)

Module Py.

(** The exception classes raised by the embedded code. *)
Inductive exn : Type :=
| ValueError (msg : string)
| NotImplementedError (msg : string)
| AssertionError
| TypeError (msg : string)
| AttributeError (msg : string)
| ImportError (msg : string)
| IndexError
| ZeroDivisionError
| LinAlgError.

Inductive result (A : Type) : Type :=
| Ok (a : A)
| Raise (e : exn).

Arguments Ok {A} a.
Arguments Raise {A} e.

Definition rbind {A B} (m : result A) (f : A -> result B) : result B :=
  match m with
  | Ok a => f a
  | Raise e => Raise e
  end.

Definition is_ok {A} (m : result A) : bool :=
  match m with Ok _ => true | Raise _ => false end.

(** [str(n)] for a Python [int]. *)
Definition str_of_int (n : Z) : string :=
  NilZero.string_of_int (Z.to_int n).

(** ASCII part of [str.lower]. *)
Definition lower_ascii (c : ascii) : ascii :=
  let n := nat_of_ascii c in
  if (65 <=? n)%nat && (n <=? 90)%nat then ascii_of_nat (n + 32) else c.

Fixpoint lower (s : string) : string :=
  match s with
  | EmptyString => EmptyString
  | String c s' => String (lower_ascii c) (lower s')
  end.

(** [x in xs] for a list of strings. *)
Fixpoint str_in (x : string) (xs : list string) : bool :=
  match xs with
  | [] => false
  | y :: ys => String.eqb x y || str_in x ys
  end.

End Py.
Export Py.

Declare Scope py_scope.
Delimit Scope py_scope with py.
Notation "x <- m ;; k" := (rbind m (fun x => k))
(at level 61, m at next level, right associativity) : py_scope.

(* ===================================================================== *)
(** ** Discretization descriptors *)
(* ===================================================================== *)

Module DofDesc.

(** Modelled from the spec: [grudge.dof_desc] is not part of the sources.
    A descriptor is a value type made of a domain tag (volume, a boundary
    tag, interior faces, all faces) and a discretization tag (base, a
    named quadrature tag, none); two descriptors are equal iff both tags
    match exactly. The sources also test [dd.is_discretized()] and
    [dd.domain_tag is not None], so the scalar domain and the missing
    domain are domain tags too. *)
Inductive DomainTag : Type :=
| DTAG_VOLUME_ALL
| DTAG_BOUNDARY (btag : string)
| FACE_RESTR_INTERIOR
| FACE_RESTR_ALL
| DTAG_SCALAR
| DTAG_NONE.

Inductive DiscrTag : Type :=
| DISCR_TAG_BASE
| DISCR_TAG_QUAD (name : string)
| DISCR_TAG_NONE.

Record DOFDesc : Type := mkDOFDesc {
  domain_tag : DomainTag;
  discretization_tag : DiscrTag
}.

Definition DomainTag_eqb (a b : DomainTag) : bool :=
  match a, b with
  | DTAG_VOLUME_ALL, DTAG_VOLUME_ALL => true
  | DTAG_BOUNDARY s, DTAG_BOUNDARY t => String.eqb s t
  | FACE_RESTR_INTERIOR, FACE_RESTR_INTERIOR => true
  | FACE_RESTR_ALL, FACE_RESTR_ALL => true
  | DTAG_SCALAR, DTAG_SCALAR => true
  | DTAG_NONE, DTAG_NONE => true
  | _, _ => false
  end.

Definition DiscrTag_eqb (a b : DiscrTag) : bool :=
  match a, b with
  | DISCR_TAG_BASE, DISCR_TAG_BASE => true
  | DISCR_TAG_QUAD s, DISCR_TAG_QUAD t => String.eqb s t
  | DISCR_TAG_NONE, DISCR_TAG_NONE => true
  | _, _ => false
  end.

(** [DOFDesc.__eq__]: structural comparison of the two tags. *)
Definition DOFDesc_eqb (a b : DOFDesc) : bool :=
  DomainTag_eqb (domain_tag a) (domain_tag b)
  && DiscrTag_eqb (discretization_tag a) (discretization_tag b).

Definition DD_VOLUME : DOFDesc := mkDOFDesc DTAG_VOLUME_ALL DISCR_TAG_BASE.

(** [DOFDesc.is_trace]: a boundary or a face domain. *)
Definition is_trace (dd : DOFDesc) : bool :=
  match domain_tag dd with
  | DTAG_BOUNDARY _ | FACE_RESTR_INTERIOR | FACE_RESTR_ALL => true
  | _ => false
  end.

(** [DOFDesc.is_discretized]: every domain but the scalar one. *)
Definition is_discretized (dd : DOFDesc) : bool :=
  match domain_tag dd with
  | DTAG_SCALAR => false
  | _ => true
  end.

(** [DOFDesc.uses_quadrature]. *)
Definition uses_quadrature (dd : DOFDesc) : bool :=
  match discretization_tag dd with
  | DISCR_TAG_QUAD _ => true
  | _ => false
  end.

Definition with_discr_tag (dd : DOFDesc) (t : DiscrTag) : DOFDesc :=
  mkDOFDesc (domain_tag dd) t.

(** A value passed where a descriptor is expected: a descriptor itself,
    [None], or any other Python value (a string such as "vol", a boundary
    tag, ...). *)
Inductive DDLike (V : Type) : Type :=
| IsDD (dd : DOFDesc)
| PyNone
| Other (v : V).

Arguments IsDD {V} dd.
Arguments PyNone {V}.
Arguments Other {V} v.

End DofDesc.
Export DofDesc.

(** [as_dofdesc]: a descriptor is returned as it is; any other value goes
    through the conversion table of [grudge.dof_desc] (not part of the
    sources, so it is the parameter [convert]), which may reject it. *)
Definition as_dofdesc {V : Type} (convert : option V -> result DOFDesc)
  (dd : DDLike V) : result DOFDesc :=
  match dd with
  | IsDD d => Ok d
  | PyNone => convert None
  | Other v => convert (Some v)
  end.

(* ===================================================================== *)
(** ** Field data, events and traced computations *)
(* ===================================================================== *)

Local Open Scope R_scope.

(** A two-dimensional array, stored as the list of its rows. *)
Definition Matrix : Type := list (list R).

(** [meshmode.dof_array.DOFArray]: one array per element group, each of
    shape (nelements, nunit_dofs). *)
Definition DOFArray : Type := list Matrix.

(** What the operators accept as field data: a Python number, a DOFArray,
    or a numpy object array ([dtype=object]) of such values. *)
Inductive Field : Type :=
| Num (x : R)
| DOFArr (data : DOFArray)
| ObjArr (els : list Field).

(** Calls into the numerical machinery of a collection. *)
Inductive Event : Type :=
| EvDiscrFromDD (dd : DOFDesc)
| EvConnectionFromDDs (src tgt : DOFDesc)
| EvConnectionApply (src tgt : DOFDesc)
| EvNormal (dd : DOFDesc)
| EvAreaElement (dd : DOFDesc)
| EvElementwiseIntegral (dd : DOFDesc)
| EvEinsum (spec : string)
| EvWarn (msg : string).

(** A traced computation: the events performed, then the outcome. *)
Definition Eff (A : Type) : Type := (list Event * result A)%type.

Definition eret {A} (a : A) : Eff A := ([], Ok a).

Definition ebind {A B} (m : Eff A) (f : A -> Eff B) : Eff B :=
  match m with
  | (t, Ok a) => let (t', r) := f a in (t ++ t', r)
  | (t, Raise e) => (t, Raise e)
  end.

Definition emit (e : Event) : Eff unit := ([e], Ok tt).

Definition lift {A} (r : result A) : Eff A := ([], r).

Definition eraise {A} (e : exn) : Eff A := ([], Raise e).

Definition trace {A} (m : Eff A) : list Event := fst m.

Definition outcome {A} (m : Eff A) : result A := snd m.

Declare Scope eff_scope.
Delimit Scope eff_scope with eff.
Notation "x <~ m ;; k" := (ebind m (fun x => k))
(at level 61, m at next level, right associativity) : eff_scope.
Notation "m ;;; k" := (ebind m (fun _ => k))
(at level 61, right associativity) : eff_scope.

(** [pytools.obj_array.obj_array_vectorize] on an object array: the
    function is applied to the entries in order; the first exception
    stops the loop. *)
Fixpoint emap {A B} (f : A -> Eff B) (xs : list A) : Eff (list B) :=
  match xs with
  | [] => eret []
  | x :: xs' =>
      (y <~ f x ;; ys <~ emap f xs' ;; eret (y :: ys))%eff
  end.

Fixpoint rmap {A B} (f : A -> result B) (xs : list A) : result (list B) :=
  match xs with
  | [] => Ok []
  | x :: xs' => (y <- f x ;; ys <- rmap f xs' ;; Ok (y :: ys))%py
  end.

(* ===================================================================== *)
(** ** Element groups, discretizations, collections *)
(* ===================================================================== *)

(** A point of the reference cell: its coordinates. *)
Definition Point : Type := list R.

(** A coordinate array of shape (dim, n), as numpy holds unit nodes and
    quadrature nodes, is stored as the list of its n columns. *)
Definition Nodes : Type := list Point.

Record QuadratureRule : Type := mkQuadratureRule {
  quad_nodes : Nodes;
  quad_weights : list R
}.

(** A face of a reference cell ([modepy.faces_for_shape]): its map into the
    volume reference cell. *)
Record Face : Type := mkFace {
  map_to_volume : Nodes -> Nodes
}.

(** The attributes of a meshmode element group read by the code. *)
Record ElementGroup : Type := mkElementGroup {
  is_simplex : bool;              (* isinstance(grp, SimplexElementGroupBase) *)
  grp_dim : nat;                  (* grp.dim *)
  order : nat;                    (* grp.order *)
  unit_nodes : Nodes;             (* grp.unit_nodes *)
  nelements : nat;                (* grp.nelements *)
  nfaces : nat;                   (* grp.mesh_el_group.nfaces *)
  vertex_unit_coordinates : list Point;
                          (* grp.mesh_el_group.vertex_unit_coordinates() *)
  basis_functions : list (Point -> R);   (* grp.basis_obj().functions *)
  quadrature_rule : QuadratureRule;      (* grp.quadrature_rule() *)
  shape_faces : list Face;               (* faces_for_shape(grp.shape) *)
  discretization_key : nat               (* grp.discretization_key() *)
}.

(** [grp.nunit_dofs]: the number of columns of [grp.unit_nodes]. *)
Definition nunit_dofs (g : ElementGroup) : nat := List.length (unit_nodes g).

Record Discretization : Type := mkDiscretization {
  groups : list ElementGroup;
  discr_dim : nat;
  discr_ambient_dim : nat
}.

(** A connection is applied to a DOFArray and yields one. *)
Definition Connection : Type := DOFArray -> result DOFArray.

Record DiscretizationCollection : Type := mkDiscretizationCollection {
  dim : nat;
  discr_from_dd : DOFDesc -> result Discretization;
  connection_from_dds : DOFDesc -> DOFDesc -> result Connection;
  normal : DOFDesc -> result Field
}.

(* ===================================================================== *)
(** ** grudge.projection *)
(* ===================================================================== *)

(** The body of [project] once both descriptors are converted. The
    recursive calls of the source pass the converted descriptors, on which
    [as_dofdesc] is the identity. *)
Fixpoint project_dd (dcoll : DiscretizationCollection) (src tgt : DOFDesc)
  (vec : Field) {struct vec} : Eff Field :=
  if DOFDesc_eqb src tgt then eret vec
  else
    match vec with
    | ObjArr els =>
        (ys <~ (fix go (l : list Field) : Eff (list Field) :=
                  match l with
                  | [] => eret []
                  | el :: l' =>
                      y <~ project_dd dcoll src tgt el ;;
                      ys <~ go l' ;; eret (y :: ys)
                  end) els ;;
         eret (ObjArr ys))%eff
    | Num x => eret vec
    | DOFArr data =>
        (emit (EvConnectionFromDDs src tgt) ;;;
         conn <~ lift (connection_from_dds dcoll src tgt) ;;
         emit (EvConnectionApply src tgt) ;;;
         r <~ lift (conn data) ;;
         eret (DOFArr r))%eff
    end.

(** [grudge.projection.project(dcoll, src, tgt, vec)]. *)
Definition project {V : Type} (convert : option V -> result DOFDesc)
  (dcoll : DiscretizationCollection) (src tgt : DDLike V) (vec : Field)
  : Eff Field :=
  (s <~ lift (as_dofdesc convert src) ;;
   t <~ lift (as_dofdesc convert tgt) ;;
   project_dd dcoll s t vec)%eff.

(* ===================================================================== *)
(** ** Dense linear algebra (numpy, modepy) *)
(* ===================================================================== *)

Definition rsum (xs : list R) : R := fold_right Rplus 0 xs.

Fixpoint map2 {A B C} (f : A -> B -> C) (xs : list A) (ys : list B)
  : list C :=
  match xs, ys with
  | x :: xs', y :: ys' => f x y :: map2 f xs' ys'
  | _, _ => []
  end.

Definition dot (u v : list R) : R := rsum (map2 Rmult u v).

(** Column [j] of a matrix. *)
Definition column (B : Matrix) (j : nat) : list R :=
  map (fun row => nth j row 0) B.

Definition ncols (B : Matrix) : nat :=
  match B with
  | [] => O
  | row :: _ => List.length row
  end.

Definition transpose (B : Matrix) : Matrix :=
  map (column B) (seq 0 (ncols B)).

(** One row of [A @ B]; numpy refuses operands whose inner dimensions
    differ. *)
Definition row_matmul (B : Matrix) (row : list R) : result (list R) :=
  if Nat.eqb (List.length row) (List.length B)
  then Ok (map (fun j => dot row (column B j)) (seq 0 (ncols B)))
  else Raise (ValueError "matmul: shapes not aligned").

(** [A @ B]. *)
Definition matmul (A B : Matrix) : result Matrix := rmap (row_matmul B) A.

(** [np.diag(w)] for a vector [w]. *)
Definition diag (w : list R) : Matrix :=
  map (fun i => map (fun j => if Nat.eqb i j then nth i w 0 else 0)
                    (seq 0 (List.length w)))
      (seq 0 (List.length w)).

(** [modepy.vandermonde(functions, nodes)]: entry (i, j) is function j at
    node i. *)
Definition vandermonde (functions : list (Point -> R)) (nodes : Nodes)
  : Matrix :=
  map (fun x => map (fun f => f x) functions) nodes.

(** [np.concatenate(arrays, axis=1)] on coordinate arrays: the columns are
    put one after the other; an empty list of arrays is refused. *)
Definition concatenate_nodes (arrays : list Nodes) : result Nodes :=
  match arrays with
  | [] => Raise (ValueError "need at least one array to concatenate")
  | _ => Ok (concat arrays)
  end.

(* ===================================================================== *)
(** ** grudge.sbp_op *)
(* ===================================================================== *)

(** The memo dictionary [keyed_memoize_in] keeps on the array context for
    one function, keyed by the pair of discretization keys. *)
Definition Cache : Type := list ((nat * nat) * Matrix).

Fixpoint cache_lookup (k : nat * nat) (c : Cache) : option Matrix :=
  match c with
  | [] => None
  | ((k1, k2), m) :: c' =>
      if Nat.eqb (fst k) k1 && Nat.eqb (snd k) k2 then Some m
      else cache_lookup k c'
  end.

(** [keyed_memoize_in(actx, f, key)(compute)]: a stored value is returned
    as it is; otherwise the value is computed and stored. An exception
    leaves the dictionary as it was. *)
Definition keyed_memoize_in
  (compute : ElementGroup -> ElementGroup -> result Matrix)
  (c : Cache) (g1 g2 : ElementGroup) : Cache * result Matrix :=
  let k := (discretization_key g1, discretization_key g2) in
  match cache_lookup k c with
  | Some m => (c, Ok m)
  | None =>
      match compute g1 g2 with
      | Ok m => ((k, m) :: c, Ok m)
      | Raise e => (c, Raise e)
      end
  end.

(** The memo dictionaries of an array context. *)
Record ArrayContext : Type := mkArrayContext {
  volume_vand_cache : Cache;
  surface_vand_cache : Cache
}.

Section SbpOp.

(** [np.linalg.inv]; raises [LinAlgError] on a singular matrix. *)
Variable linalg_inv : Matrix -> result Matrix.

(** [grudge.geometry.area_element(actx, dcoll, dd)], not part of the
    sources. *)
Variable area_element : DiscretizationCollection -> DOFDesc -> result DOFArray.

(** [get_volume_vand], the memoized body of
    [volume_quadrature_interpolation_matrix]. *)
Definition get_volume_vand (base_grp quad_grp : ElementGroup)
  : result Matrix :=
  (let basis := basis_functions base_grp in
   vdm_inv <- linalg_inv (vandermonde basis (unit_nodes base_grp)) ;;
   matmul (vandermonde basis (unit_nodes quad_grp)) vdm_inv)%py.

Definition volume_quadrature_interpolation_matrix (actx : ArrayContext)
  (base_element_group quad_element_group : ElementGroup)
  : ArrayContext * result Matrix :=
  let (c, r) := keyed_memoize_in get_volume_vand (volume_vand_cache actx)
                  base_element_group quad_element_group in
  (mkArrayContext c (surface_vand_cache actx), r).

(** [get_surface_vand], the memoized body of
    [surface_quadrature_interpolation_matrix]. The [np.empty] buffer the
    source allocates is never read and is left out. *)
Definition get_surface_vand (base_grp quad_face_grp : ElementGroup)
  : result Matrix :=
  let nfaces_ := nfaces base_grp in
  if negb (Nat.eqb (nelements quad_face_grp) (nfaces_ * nelements base_grp))
  then Raise AssertionError
  else
    (let basis := basis_functions base_grp in
     vdm_inv <- linalg_inv (vandermonde basis (unit_nodes base_grp)) ;;
     let faces := shape_faces base_grp in
     let face_quadrature := quadrature_rule quad_face_grp in
     surface_nodes <-
       concatenate_nodes
         (map (fun face => map_to_volume face (quad_nodes face_quadrature))
              faces) ;;
     matmul (vandermonde basis surface_nodes) vdm_inv)%py.

Definition surface_quadrature_interpolation_matrix (actx : ArrayContext)
  (base_element_group quad_face_element_group : ElementGroup)
  : ArrayContext * result Matrix :=
  let (c, r) := keyed_memoize_in get_surface_vand (surface_vand_cache actx)
                  base_element_group quad_face_element_group in
  (mkArrayContext (volume_vand_cache actx) c, r).

(** The interpolation matrix as the description words it: the Vandermonde
    matrix of the basis at the target nodes times the inverse of the
    Vandermonde matrix at the source nodes. *)
Definition interpolation_matrix (basis : list (Point -> R))
  (from_nodes to_nodes : Nodes) : result Matrix :=
  (v_inv <- linalg_inv (vandermonde basis from_nodes) ;;
   matmul (vandermonde basis to_nodes) v_inv)%py.

(** One interpolation block per face of the reference cell, the blocks
    stacked row-wise in face order. *)
Definition stacked_face_blocks (base_grp : ElementGroup)
  (rule : QuadratureRule) : result Matrix :=
  (blocks <- rmap (fun face =>
                     interpolation_matrix (basis_functions base_grp)
                       (unit_nodes base_grp)
                       (map_to_volume face (quad_nodes rule)))
                  (shape_faces base_grp) ;;
   Ok (concat blocks))%py.

(** What the memo dictionary [c] holds under the keys of the groups [g1]
    and [g2], if anything, is what [compute] yields on these groups: the
    entry, where there is one, was stored by a call with groups of the
    same data. An empty dictionary, and one without an entry under these
    keys, satisfy this. *)
Definition stored_for
  (compute : ElementGroup -> ElementGroup -> result Matrix) (c : Cache)
  (g1 g2 : ElementGroup) : Prop :=
  forall m,
    cache_lookup (discretization_key g1, discretization_key g2) c = Some m ->
    compute g1 g2 = Ok m.

(** [quadrature_based_mass_matrix] and
    [quadrature_based_inverse_mass_matrix], without their memo
    dictionaries. *)
Definition get_ref_quad_mass_mat (base_grp quad_grp : ElementGroup)
  : result Matrix :=
  (vdm_q <- get_volume_vand base_grp quad_grp ;;
   let weights := diag (quad_weights (quadrature_rule quad_grp)) in
   wv <- matmul weights vdm_q ;;
   matmul (transpose vdm_q) wv)%py.

Definition get_ref_quad_inv_mass_mat (base_grp quad_grp : ElementGroup)
  : result Matrix :=
  (mass_mat <- get_ref_quad_mass_mat base_grp quad_grp ;;
   linalg_inv mass_mat)%py.

(** Binding the keyword arguments of a call to
    [quadrature_based_inverse_mass_matrix(actx, base_element_group,
    quad_element_group)]: a keyword that is no parameter of the function
    raises [TypeError], and so does a missing parameter. *)
Definition bind_inverse_mass_kwargs (kwargs : list (string * ElementGroup))
  : result (ElementGroup * ElementGroup) :=
  match find (fun kv => negb (str_in (fst kv)
                ["base_element_group"; "quad_element_group"]%string)) kwargs
  with
  | Some kv =>
      Raise (TypeError
        ("quadrature_based_inverse_mass_matrix() got an unexpected keyword argument '"
           ++ fst kv ++ "'")%string)
  | None =>
      match find (fun kv => String.eqb (fst kv) "base_element_group") kwargs,
            find (fun kv => String.eqb (fst kv) "quad_element_group") kwargs
      with
      | Some b, Some q => Ok (snd b, snd q)
      | _, _ =>
          Raise (TypeError
            "quadrature_based_inverse_mass_matrix() missing required positional arguments")
      end
  end.

Definition quadrature_based_inverse_mass_matrix_kw
  (kwargs : list (string * ElementGroup)) : result Matrix :=
  (bq <- bind_inverse_mass_kwargs kwargs ;;
   get_ref_quad_inv_mass_mat (fst bq) (snd bq))%py.

(** [actx.einsum("ei,ij,ej->ei", jac_inv, mat, vec)]. *)
Definition einsum_ei_ij_ej (jac_inv mat vec : Matrix) : Matrix :=
  map2 (fun jrow vrow =>
          map2 (fun jv mrow => rsum (map2 (fun m v => jv * m * v) mrow vrow))
               jrow mat)
       jac_inv vec.

Fixpoint zip3 {A B C} (xs : list A) (ys : list B) (zs : list C)
  : list (A * B * C) :=
  match xs, ys, zs with
  | x :: xs', y :: ys', z :: zs' => (x, y, z) :: zip3 xs' ys' zs'
  | _, _, _ => []
  end.

Definition inverse_mass_mismatch : string :=
  "Cannot compute inverse of a mass matrix mapping between different element groups; inverse is not guaranteed to be well-defined".

(** [_apply_inverse_sbp_mass_operator(dcoll, dd_out, dd_in, vec)]. *)
Fixpoint _apply_inverse_sbp_mass_operator (dcoll : DiscretizationCollection)
  (dd_out dd_in : DOFDesc) (vec : Field) {struct vec} : Eff Field :=
  match vec with
  | ObjArr els =>
      (ys <~ (fix go (l : list Field) : Eff (list Field) :=
                match l with
                | [] => eret []
                | vi :: l' =>
                    y <~ _apply_inverse_sbp_mass_operator dcoll dd_out dd_in vi ;;
                    ys <~ go l' ;; eret (y :: ys)
                end) els ;;
       eret (ObjArr ys))%eff
  | _ =>
      if negb (DOFDesc_eqb dd_out dd_in)
      then eraise (ValueError inverse_mass_mismatch)
      else
        match vec with
        | DOFArr data =>
            (emit (EvDiscrFromDD dd_in) ;;;
             discr <~ lift (discr_from_dd dcoll dd_in) ;;
             emit (EvAreaElement dd_in) ;;;
             ae <~ lift (area_element dcoll dd_in) ;;
             let inv_area_elements := map (map (map Rinv)) ae in
             out <~ emap (fun gjv : ElementGroup * Matrix * Matrix =>
                            let '(grp, jac_inv, vec_i) := gjv in
                            mat <~ lift (quadrature_based_inverse_mass_matrix_kw
                                           [("element_group"%string, grp)]) ;;
                            emit (EvEinsum "ei,ij,ej->ei") ;;;
                            eret (einsum_ei_ij_ej jac_inv mat vec_i))
                         (zip3 (groups discr) inv_area_elements data) ;;
             eret (DOFArr out))%eff
        | _ => eraise (AttributeError "array_context")
        end
  end.

(** [inverse_sbp_mass(dcoll, vec)]. *)
Definition inverse_sbp_mass (dcoll : DiscretizationCollection) (vec : Field)
  : Eff Field :=
  _apply_inverse_sbp_mass_operator dcoll DD_VOLUME DD_VOLUME vec.

End SbpOp.

(* ===================================================================== *)
(** ** grudge.dt_utils *)
(* ===================================================================== *)

(** [l[i]] on a Python sequence. *)
Definition getitem {A} (l : list A) (i : nat) : result A :=
  match nth_error l i with
  | Some x => Ok x
  | None => Raise IndexError
  end.

(** The builtin [min] on a non-empty iterable of numbers. *)
Definition py_min (xs : list R) : result R :=
  match xs with
  | [] => Raise (ValueError "min() arg is an empty sequence")
  | x :: xs' => Ok (fold_left Rmin xs' x)
  end.

(** [np.linalg.norm] of a coordinate vector. *)
Definition norm (p : Point) : R := sqrt (rsum (map (fun x => x * x) p)).

(** [p - q] on coordinate vectors of one length. *)
Definition point_sub (p q : Point) : Point := map2 Rminus p q.

(** [list(zip( *grp.unit_nodes))]: the nodes as points. The unit node array
    of a 0-dimensional group has no row, so the zip yields nothing. *)
Definition zip_star_unit_nodes (g : ElementGroup) : list Point :=
  if Nat.eqb (grp_dim g) 0 then [] else unit_nodes g.

(** The index pairs [(i, j)], [i != j], in the order of the generator
    [for i in range(n) for j in range(n) if i != j]. *)
Definition distinct_pairs (n : nat) : list (nat * nat) :=
  flat_map (fun i => map (fun j => (i, j))
                         (filter (fun j => negb (Nat.eqb i j)) (seq 0 n)))
           (seq 0 n).

Definition node_distance (nodes : list Point) (ij : nat * nat) : result R :=
  (ni <- getitem nodes (fst ij) ;;
   nj <- getitem nodes (snd ij) ;;
   Ok (norm (point_sub ni nj)))%py.

(** The body of the loop of [dt_non_geometric_factors] for one group. *)
Definition group_min_delta_r (grp : ElementGroup) : result R :=
  let nodes := zip_star_unit_nodes grp in
  let nnodes := nunit_dofs grp in
  if Nat.eqb (order grp) 0 then
    if negb (Nat.eqb nnodes 1) then Raise AssertionError
    else
      (n0 <- getitem nodes 0 ;;
       v0 <- getitem (vertex_unit_coordinates grp) 0 ;;
       Ok (norm (point_sub n0 v0)))%py
  else
    (ds <- rmap (node_distance nodes) (distinct_pairs nnodes) ;;
     py_min ds)%py.

(** [volm_discr.zeros(actx) + 1.0]. *)
Definition ones (discr : Discretization) : DOFArray :=
  map (fun g => repeat (repeat 1 (nunit_dofs g)) (nelements g)) (groups discr).

(** [abs] of a DOFArray. *)
Definition dof_abs (a : DOFArray) : DOFArray := map (map (map Rabs)) a.

(** [k] consecutive chunks of [n] entries. *)
Fixpoint chunks {A} (n k : nat) (l : list A) : list (list A) :=
  match k with
  | O => []
  | S k' => firstn n l :: chunks n k' (skipn n l)
  end.

(** [a.reshape(nf, ne, nd)] on a two-dimensional array (C order). *)
Definition reshape3 (a : Matrix) (nf ne nd : nat)
  : result (list (list (list R))) :=
  let flat := concat a in
  if Nat.eqb (List.length flat) (nf * ne * nd)
  then Ok (map (chunks nd ne) (chunks (ne * nd) nf flat))
  else Raise (ValueError "cannot reshape array").

(** [actx.einsum("fej->e", t)] on an array of shape (nf, ne, nd). *)
Definition einsum_fej_e (ne : nat) (t : list (list (list R))) : list R :=
  map (fun e => rsum (map (fun fblock => rsum (nth e fblock [])) t))
      (seq 0 ne).

(** [actx.einsum("e,ei->ei", a, b)]. *)
Definition einsum_e_ei (a : list R) (b : Matrix) : result Matrix :=
  if Nat.eqb (List.length a) (List.length b)
  then Ok (map2 (fun x row => map (Rmult x) row) a b)
  else Raise (ValueError "einsum: operands could not be broadcast together").

Definition simplex_only : string :=
  "Geometric factors are only implemented for simplex element groups".

Definition non_volume_filling_warning : string :=
  "The geometric factor for the characteristic length scale in time step estimation is not necessarily valid for non-volume-filling discretizations. Continuing anyway.".

Section DtUtils.

(** [grudge.op.elementwise_integral(dcoll, dd, vec)], not part of the
    sources. *)
Variable elementwise_integral :
  DiscretizationCollection -> DOFDesc -> DOFArray -> result DOFArray.

(** [dt_non_geometric_factors(dcoll, dd=None)]. The function is memoized on
    the collection; it reads nothing but the collection and [dd], so the
    stored list is the list computed here. *)
Definition dt_non_geometric_factors (dcoll : DiscretizationCollection)
  (dd : option DOFDesc) : Eff (list R) :=
  let dd := match dd with None => DD_VOLUME | Some d => d end in
  (emit (EvDiscrFromDD dd) ;;;
   discr <~ lift (discr_from_dd dcoll dd) ;;
   lift (rmap group_min_delta_r (groups discr)))%eff.

(** The total face area of every element of one group: the reshape, the
    sum over faces and face nodes, and the division by the number of face
    nodes. *)
Definition group_surface_areas (vgrp afgrp : ElementGroup)
  (face_ae_i : Matrix) : result (list R) :=
  (t <- reshape3 face_ae_i (nfaces vgrp) (nelements vgrp) (nunit_dofs afgrp) ;;
   Ok (map (fun s => s / INR (nunit_dofs afgrp))
           (einsum_fej_e (nelements vgrp) t)))%py.

(** [dt_geometric_factors(dcoll, dd=None)]. *)
Definition dt_geometric_factors (dcoll : DiscretizationCollection)
  (dd : option DOFDesc) : Eff DOFArray :=
  let dd := match dd with None => DD_VOLUME | Some d => d end in
  (emit (EvDiscrFromDD dd) ;;;
   volm_discr <~ lift (discr_from_dd dcoll dd) ;;
   if existsb (fun grp => negb (is_simplex grp)) (groups volm_discr)
   then eraise (NotImplementedError simplex_only)
   else
     (if negb (Nat.eqb (discr_dim volm_discr) (discr_ambient_dim volm_discr))
      then emit (EvWarn non_volume_filling_warning) else eret tt) ;;;
     emit (EvElementwiseIntegral dd) ;;;
     cv <~ lift (elementwise_integral dcoll dd (ones volm_discr)) ;;
     let cell_vols := dof_abs cv in
     if Nat.eqb (dim dcoll) 1 then eret cell_vols
     else
       let dd_face := mkDOFDesc FACE_RESTR_ALL (discretization_tag dd) in
       emit (EvDiscrFromDD dd_face) ;;;
       face_discr <~ lift (discr_from_dd dcoll dd_face) ;;
       emit (EvElementwiseIntegral dd_face) ;;;
       sa <~ lift (elementwise_integral dcoll dd_face (ones face_discr)) ;;
       let surface_areas := dof_abs sa in
       surface_areas <~
         lift (rmap (fun vaf : ElementGroup * ElementGroup * Matrix =>
                       let '(vgrp, afgrp, face_ae_i) := vaf in
                       group_surface_areas vgrp afgrp face_ae_i)
                    (zip3 (groups volm_discr) (groups face_discr)
                          surface_areas)) ;;
       lift (rmap (fun cs : Matrix * list R =>
                     let (cv_i, sae_i) := cs in
                     (m <- einsum_e_ei (map (fun s => 1 / s) sae_i) cv_i ;;
                      Ok (map (map (fun x => x * INR (dim dcoll))) m))%py)
                  (combine cell_vols surface_areas)))%eff.

(** [characteristic_lengthscales(actx, dcoll)]. The result is memoized on
    the collection under a constant key; it reads nothing but the
    collection, so the stored array is the array computed here. *)
Definition characteristic_lengthscales (dcoll : DiscretizationCollection)
  : Eff DOFArray :=
  (cngs <~ dt_non_geometric_factors dcoll None ;;
   geo <~ dt_geometric_factors dcoll None ;;
   eret (map2 (fun cng geo_facts => map (map (Rmult cng)) geo_facts)
              cngs geo))%eff.

End DtUtils.

(* ===================================================================== *)
(** ** Trace pairs and array arithmetic *)
(* ===================================================================== *)

(** [grudge.trace_pair.TracePair]: a descriptor with the interior and the
    exterior value. *)
Record TracePair : Type := mkTracePair {
  tp_dd : DOFDesc;
  interior : Field;
  exterior : Field
}.

(** The arithmetic of the array containers (arraycontext, numpy), which
    raises on operands that do not fit. *)
Record FieldArith : Type := mkFieldArith {
  f_add : Field -> Field -> result Field;
  f_sub : Field -> Field -> result Field;
  f_mul : Field -> Field -> result Field;
  f_scale : R -> Field -> result Field;
  f_pow : Field -> nat -> result Field;
  np_dot : Field -> Field -> result Field;
  flat_obj_array : list Field -> result Field
}.

Section Models.

Variable ops : FieldArith.

(** The conversion table of [as_dofdesc] for strings such as "vol". *)
Variable convert : option string -> result DOFDesc.

(** [tpair.avg]: [0.5 * (int + ext)]. *)
Definition tp_avg (tp : TracePair) : result Field :=
  (s <- f_add ops (interior tp) (exterior tp) ;; f_scale ops (1 / 2) s)%py.

(** [tpair.diff]: [ext - int]. *)
Definition tp_diff (tp : TracePair) : result Field :=
  f_sub ops (exterior tp) (interior tp).

(** [tpair ** n] and [a * tpair], componentwise on both values. *)
Definition tp_pow (tp : TracePair) (n : nat) : result TracePair :=
  (i <- f_pow ops (interior tp) n ;;
   e <- f_pow ops (exterior tp) n ;;
   Ok (mkTracePair (tp_dd tp) i e))%py.

Definition tp_scale (a : R) (tp : TracePair) : result TracePair :=
  (i <- f_scale ops a (interior tp) ;;
   e <- f_scale ops a (exterior tp) ;;
   Ok (mkTracePair (tp_dd tp) i e))%py.

(** [tpair[0]] and [tpair[1:]] on a pair of object arrays. *)
Definition field_getitem0 (f : Field) : result Field :=
  match f with
  | ObjArr els => getitem els 0
  | _ => Raise (TypeError "state is not an object array")
  end.

Definition field_slice_from1 (f : Field) : result Field :=
  match f with
  | ObjArr els => Ok (ObjArr (tl els))
  | _ => Raise (TypeError "state is not an object array")
  end.

Definition tp_getitem0 (tp : TracePair) : result TracePair :=
  (i <- field_getitem0 (interior tp) ;;
   e <- field_getitem0 (exterior tp) ;;
   Ok (mkTracePair (tp_dd tp) i e))%py.

Definition tp_slice_from1 (tp : TracePair) : result TracePair :=
  (i <- field_slice_from1 (interior tp) ;;
   e <- field_slice_from1 (exterior tp) ;;
   Ok (mkTracePair (tp_dd tp) i e))%py.

(** [f.array_context]: only a DOFArray carries one. *)
Definition array_context_of (f : Field) : result unit :=
  match f with
  | DOFArr _ => Ok tt
  | _ => Raise (AttributeError "array_context")
  end.

(* --------------------------------------------------------------------- *)
(** *** grudge.models.burgers *)

(** What [burgers_numerical_flux] computes before it looks at the flux
    type: the normal, the projected wave speed and the central flux. *)
Definition burgers_flux_setup (dcoll : DiscretizationCollection)
  (u_tpair : TracePair) (max_wavespeed : Field) : Eff (Field * Field) :=
  (let dd := tp_dd u_tpair in
   emit (EvNormal dd) ;;;
   nrm <~ lift (normal dcoll dd) ;;
   max_wavespeed <~ project convert dcoll (Other "vol"%string) (IsDD dd)
                      max_wavespeed ;;
   central <~ lift (sq <- tp_pow u_tpair 2 ;;
                    h <- tp_scale (1 / 2) sq ;;
                    a <- tp_avg h ;;
                    f_mul ops a nrm)%py ;;
   eret (central, max_wavespeed))%eff.

(** [burgers_numerical_flux(actx, dcoll, num_flux_type, u_tpair,
    max_wavespeed)]. Lower-casing is pure, so it is written after the
    set-up it stands in the middle of. *)
Definition burgers_numerical_flux (dcoll : DiscretizationCollection)
  (num_flux_type : string) (u_tpair : TracePair) (max_wavespeed : Field)
  : Eff Field :=
  (cm <~ burgers_flux_setup dcoll u_tpair max_wavespeed ;;
   let (central, max_wavespeed) := cm : Field * Field in
   let num_flux_type := lower num_flux_type in
   if String.eqb num_flux_type "central" then eret central
   else if String.eqb num_flux_type "lf" then
     lift (hw <- f_scale ops (1 / 2) max_wavespeed ;;
           d <- tp_diff u_tpair ;;
           p <- f_mul ops hw d ;;
           f_sub ops central p)%py
   else
     eraise (NotImplementedError
               ("flux '" ++ num_flux_type ++ "' is not implemented")%string))%eff.

(** The state an [InviscidBurgers] instance holds. *)
Record InviscidBurgers : Type := mkInviscidBurgers {
  ib_dcoll : DiscretizationCollection;
  ib_flux_type : string
}.

Definition flux_types : list string := ["central"; "lf"]%string.

(** [InviscidBurgers.__init__(self, actx, dcoll, flux_type)]. *)
Definition InviscidBurgers_init (dcoll : DiscretizationCollection)
  (flux_type : string) : result InviscidBurgers :=
  if negb (str_in flux_type flux_types) then
    Raise (NotImplementedError
             ("unknown flux type: '" ++ flux_type ++ "'")%string)
  else if negb (Nat.eqb (dim dcoll) 1) then
    Raise (NotImplementedError
             ("Burgers operator for dim = "
                ++ str_of_int (Z.of_nat (dim dcoll)) ++ " not implemented")%string)
  else Ok (mkInviscidBurgers dcoll flux_type).

(* --------------------------------------------------------------------- *)
(** *** grudge.models.wave *)

(** The attributes of a [WeakWaveOperator] read by [flux]. *)
Record WeakWaveOperator : Type := mkWeakWaveOperator {
  w_dcoll : DiscretizationCollection;
  w_c : R;
  w_sign : R;
  w_flux_type : string
}.

(** [WeakWaveOperator.__init__]: the flux type is stored as given. *)
Definition WeakWaveOperator_init (dcoll : DiscretizationCollection) (c : R)
  (flux_type : string) : WeakWaveOperator :=
  mkWeakWaveOperator dcoll c (if Rlt_dec 0 c then 1 else -1) flux_type.

(** What [flux] computes before it looks at the flux type. *)
Definition wave_flux_setup (self : WeakWaveOperator) (wtpair : TracePair)
  : Eff (TracePair * TracePair * Field * Field) :=
  (u <~ lift (tp_getitem0 wtpair) ;;
   v <~ lift (tp_slice_from1 wtpair) ;;
   lift (array_context_of (interior u)) ;;;
   emit (EvNormal (tp_dd wtpair)) ;;;
   nrm <~ lift (normal (w_dcoll self) (tp_dd wtpair)) ;;
   central_flux_weak <~
     lift (va <- tp_avg v ;;
           d <- np_dot ops va nrm ;;
           ua <- tp_avg u ;;
           un <- f_mul ops ua nrm ;;
           fo <- flat_obj_array ops [d; un] ;;
           f_scale ops (- w_c self) fo)%py ;;
   eret (u, v, nrm, central_flux_weak))%eff.

(** [WeakWaveOperator.flux(self, wtpair)]. *)
Definition WeakWaveOperator_flux (self : WeakWaveOperator)
  (wtpair : TracePair) : Eff Field :=
  (s <~ wave_flux_setup self wtpair ;;
   let '(u, v, nrm, central_flux_weak) :=
     s : TracePair * TracePair * Field * Field in
   if String.eqb (w_flux_type self) "central" then eret central_flux_weak
   else if String.eqb (w_flux_type self) "upwind" then
     lift (a <- f_sub ops (exterior u) (interior u) ;;
           a' <- f_scale ops (1 / 2) a ;;
           dv <- f_sub ops (exterior v) (interior v) ;;
           nd <- np_dot ops nrm dv ;;
           nn <- f_mul ops nrm nd ;;
           b' <- f_scale ops (1 / 2) nn ;;
           fo <- flat_obj_array ops [a'; b'] ;;
           s <- f_scale ops (w_c self * w_sign self) fo ;;
           f_sub ops central_flux_weak s)%py
   else
     eraise (ValueError
               ("invalid flux type '" ++ w_flux_type self ++ "'")%string))%eff.

End Models.

(* --------------------------------------------------------------------- *)
(** *** grudge.models.euler *)

(** [a / b] on Python floats. *)
Definition py_div (a b : R) : result R :=
  if Req_dec_T b 0 then Raise ZeroDivisionError else Ok (a / b).

(** [log_mean] is modelled on binary64 numbers, the arithmetic the code
    runs on: its properties depend on the rounding of each operation.
    Divisions follow IEEE 754, as they do on numpy scalars and arrays
    (infinities and nan, no exception). *)



Section LogMean.

(** [actx.np.log], a function of the array context. *)
Variable np_log : float -> float.

(** [a ** n] with an integer exponent, a function of the platform. *)
Variable float_pow : float -> Z -> float.


End LogMean.

(* ===================================================================== *)
(** ** grudge.symbolic.primitives: geometry builders *)
(* ===================================================================== *)

(** The names [grudge/symbolic/operators.py] binds at module level. *)
Definition operators_module_names : list string :=
  ["Operator"; "NodalReductionOperator"; "NodalSum"; "NodalMax"; "NodalMin";
   "DiffOperatorBase"; "StrongFormDiffOperatorBase";
   "WeakFormDiffOperatorBase"; "StiffnessOperator";
   "DifferentiationOperator"; "StiffnessTOperator"; "MInvSTOperator";
   "QuadratureStiffnessTOperator"; "DiffOperatorVector";
   "ReferenceDiffOperatorBase"; "ReferenceDifferentiationOperator";
   "ReferenceStiffnessTOperator"; "ReferenceQuadratureStiffnessTOperator";
   "ElementwiseLinearOperator"; "ElementwiseMaxOperator";
   "QuadratureGridUpsampler"; "QuadratureInteriorFacesGridUpsampler";
   "FilterOperator"; "OnesOperator"; "AveragingOperator";
   "InverseVandermondeOperator"; "VandermondeOperator"; "MassOperatorBase";
   "MassOperator"; "InverseMassOperator"; "QuadratureMassOperator";
   "ReferenceQuadratureMassOperator"; "ReferenceMassOperatorBase";
   "ReferenceMassOperator"; "ReferenceInverseMassOperator";
   "BoundarizeOperator"; "FluxExchangeOperator"; "FluxOperatorBase";
   "QuadratureFluxOperatorBase"; "BoundaryFluxOperatorBase"; "FluxOperator";
   "BoundaryFluxOperator"; "QuadratureFluxOperator";
   "QuadratureBoundaryFluxOperator"; "VectorFluxOperator";
   "WholeDomainFluxOperator"; "get_flux_operator"; "nabla";
   "minv_stiffness_t"; "stiffness"; "stiffness_t"; "integral"; "norm";
   "intern"; "np"; "la"; "pymbolic"; "Record"; "memoize_method"]%string.

(** [from grudge.symbolic.operators import name]. *)
Definition import_from_operators (name : string) : result unit :=
  if str_in name operators_module_names then Ok tt
  else Raise (ImportError
         ("cannot import name '" ++ name
            ++ "' from 'grudge.symbolic.operators'")%string).

(** The operators the builders bind, as their call sites construct them. *)
Inductive SymOperator : Type :=
| RefDiffOperator (rst_axis : Z) (dd : DOFDesc)
| ProjectionOperator (src tgt : DOFDesc).

(** Expression trees. [Pymbolic] stands for a node pymbolic itself builds
    (a sum, a product, a quotient, a call, a common subexpression). *)
Inductive Expr : Type :=
| Float (x : R)
| NodeCoordinateComponentNode (axis : Z) (dd : DOFDesc)
| SignedFaceOnesNode (dd : DOFDesc)
| OperatorBinding (op : SymOperator) (field : Expr)
| Pymbolic (head : string) (args : list Expr).

(** An object array of expressions with two axes, as its rows. *)
Definition EMatrix : Type := list (list Expr).

(** pymbolic's expression arithmetic and [make_common_subexpression]. *)
Record PymbolicOps : Type := mkPymbolicOps {
  e_sub : Expr -> Expr -> Expr;
  e_mul : Expr -> Expr -> Expr;
  e_div : Expr -> Expr -> Expr;
  e_neg : Expr -> Expr;
  e_sum : list Expr -> Expr;
  e_sqrt : Expr -> Expr;
  cse : Expr -> option string -> Expr;
  cse_array : EMatrix -> option string -> EMatrix
}.

(** [pymbolic.geometric_algebra.MultiVector] over expressions. *)
Record GeometricAlgebra : Type := mkGeometricAlgebra {
  MV : Type;
  mv_of_vector : list Expr -> MV;
  mv_of_scalar : Expr -> Z -> MV;
  mv_rmul_int : Z -> MV -> MV;
  mv_mul : MV -> MV -> MV;
  mv_xor : MV -> MV -> MV;
  mv_lshift : MV -> MV -> MV;
  mv_div : MV -> Expr -> MV;
  mv_inv : MV -> result MV;
  mv_I : MV -> MV;
  project_max_grade : MV -> MV;
  norm_squared : MV -> Expr;
  as_scalar : MV -> result Expr;
  as_vector : MV -> result (list Expr);
  mv_cse : MV -> option string -> MV
}.

(** [range(n)] for a Python int. *)
Definition range (n : Z) : list Z := map Z.of_nat (seq 0 (Z.to_nat n)).

(** A multi-index of reference axes: an integer or a tuple of pairs. *)
Inductive RefAxes : Type :=
| AxisIndex (i : Z)
| AxisTuple (l : list (Z * Z)).

Definition pair_leb (a b : Z * Z) : bool :=
  (fst a <? fst b)%Z || ((fst a =? fst b)%Z && (snd a <=? snd b)%Z).

(** [tuple(sorted(l)) == l]. *)
Fixpoint is_sorted (l : list (Z * Z)) : bool :=
  match l with
  | a :: ((b :: _) as l') => pair_leb a b && is_sorted l'
  | _ => true
  end.

(** [len(dict(l)) == len(l)]: no first component occurs twice. *)
Fixpoint distinct_axes (l : list (Z * Z)) : bool :=
  match l with
  | [] => true
  | a :: l' =>
      negb (existsb (fun b => (fst a =? fst b)%Z) l') && distinct_axes l'
  end.

(** An index into a sequence of length [n], negative indices counting from
    the end. *)
Definition py_index (n i : Z) : result nat :=
  if ((0 <=? i) && (i <? n))%Z then Ok (Z.to_nat i)
  else if ((- n <=? i) && (i <? 0))%Z then Ok (Z.to_nat (i + n))
  else Raise IndexError.

(** What [parametrization_derivative] returns: a multivector, or the int
    an empty product evaluates to. *)
Inductive ParamDeriv (M : Type) : Type :=
| PD_mv (m : M)
| PD_int (z : Z).

Arguments PD_mv {M} m.
Arguments PD_int {M} z.

Section Symbolic.

Variable V : Type.
Variable convert : option V -> result DOFDesc.
Variable P : PymbolicOps.
Variable G : GeometricAlgebra.

Definition default_dim (dim : option Z) (d : Z) : Z :=
  match dim with
  | Some k => k
  | None => d
  end.

(** [_SignedFaceOnes(dd)]. *)
Definition _SignedFaceOnes (dd : DDLike V) : result Expr :=
  (d <- as_dofdesc convert dd ;;
   if negb (is_trace d) then Raise AssertionError
   else Ok (SignedFaceOnesNode d))%py.

(** [NodeCoordinateComponent(axis, dd)]. *)
Definition NodeCoordinateComponent (axis : Z) (dd : DOFDesc) : result Expr :=
  if negb (is_discretized dd) then
    Raise (ValueError "dd must be a discretization for NodeCoordinateComponent")
  else
    match domain_tag dd with
    | DTAG_NONE => Raise AssertionError
    | _ => Ok (NodeCoordinateComponentNode axis dd)
    end.

(** [forward_metric_nth_derivative(xyz_axis, ref_axes, dd=None)]. *)
Definition forward_metric_nth_derivative (xyz_axis : Z) (ref_axes : RefAxes)
  (dd : DDLike V) : result Expr :=
  let ref_axes := match ref_axes with
                  | AxisIndex i => [(i, 1%Z)]
                  | AxisTuple l => l
                  end in
  if negb (is_sorted ref_axes) then
    Raise (ValueError "ref_axes must be sorted")
  else if negb (distinct_axes ref_axes) then
    Raise (ValueError "ref_axes must not contain an axis more than once")
  else
    (d <- match dd with
          | PyNone => Ok DD_VOLUME
          | IsDD d => Ok d
          | Other _ => Raise (AttributeError "with_discr_tag")
          end ;;
     let inner_dd := with_discr_tag d DISCR_TAG_BASE in
     let flat_ref_axes :=
       flat_map (fun an : Z * Z => repeat (fst an) (Z.to_nat (snd an)))
                ref_axes in
     _ <- import_from_operators "RefDiffOperator" ;;
     result <- NodeCoordinateComponent xyz_axis inner_dd ;;
     let result :=
       fold_left (fun r rst_axis =>
                    OperatorBinding (RefDiffOperator rst_axis inner_dd) r)
                 flat_ref_axes result in
     if uses_quadrature d then
       _ <- import_from_operators "project" ;;
       Ok (OperatorBinding (ProjectionOperator inner_dd d) result)
     else Ok result)%py.

Definition forward_metric_derivative (xyz_axis rst_axis : Z) (dd : DDLike V)
  : result Expr :=
  forward_metric_nth_derivative xyz_axis (AxisIndex rst_axis) dd.

Definition forward_metric_derivative_vector (ambient_dim rst_axis : Z)
  (dd : DDLike V) : result (list Expr) :=
  rmap (fun i => forward_metric_derivative i rst_axis dd) (range ambient_dim).

Definition forward_metric_derivative_mv (ambient_dim rst_axis : Z)
  (dd : DDLike V) : result (MV G) :=
  (v <- forward_metric_derivative_vector ambient_dim rst_axis dd ;;
   Ok (mv_of_vector G v))%py.

(** [parametrization_derivative(ambient_dim, dim=None, dd=None)]. The
    product is [reduce(mul, factors, 1)]. *)
Definition parametrization_derivative (ambient_dim : Z) (dim : option Z)
  (dd : DDLike V) : result (ParamDeriv (MV G)) :=
  let dim := default_dim dim ambient_dim in
  if (dim =? 0)%Z then
    (s <- _SignedFaceOnes dd ;;
     Ok (PD_mv (mv_of_scalar G s ambient_dim)))%py
  else
    (vs <- rmap (fun rst_axis =>
                   forward_metric_derivative_mv ambient_dim rst_axis dd)
                (range dim) ;;
     Ok (match vs with
         | [] => PD_int 1
         | m :: ms => PD_mv (fold_left (mv_mul G) ms (mv_rmul_int G 1 m))
         end))%py.

(** [outerprod = partial(reduce, xor)]: no initial value. *)
Definition outerprod (vecs : list (MV G)) : result (MV G) :=
  match vecs with
  | [] => Raise (TypeError "reduce() of empty sequence with no initial value")
  | m :: ms => Ok (fold_left (mv_xor G) ms m)
  end.

(** [np.zeros(shape)] refuses a negative extent. *)
Definition check_shape (rows cols : Z) : result unit :=
  if ((rows <? 0) || (cols <? 0))%Z
  then Raise (ValueError "negative dimensions are not allowed")
  else Ok tt.

Definition e_entry (A : EMatrix) (i j : Z) : Expr :=
  nth (Z.to_nat j) (nth (Z.to_nat i) A []) (Float 0).

(** [A.dot(B)] for object arrays of shapes (n, k) and (k, m). *)
Definition e_matdot (n k m : Z) (A B : EMatrix) : EMatrix :=
  map (fun i =>
         map (fun j =>
                e_sum P (map (fun l => e_mul P (e_entry A i l) (e_entry B l j))
                             (range k)))
             (range m))
      (range n).

Definition e_transpose (n m : Z) (A : EMatrix) : EMatrix :=
  map (fun j => map (fun i => e_entry A i j) (range n)) (range m).

(** [u.dot(v)] for object arrays with one axis. *)
Definition e_dot (u v : list Expr) : Expr := e_sum P (map2 (e_mul P) u v).

(** [inverse_metric_derivative(rst_axis, xyz_axis, ambient_dim, dim=None,
    dd=None)]. *)
Definition inverse_metric_derivative (rst_axis xyz_axis ambient_dim : Z)
  (dim : option Z) (dd : DDLike V) : result Expr :=
  let dim := default_dim dim ambient_dim in
  if negb (dim =? ambient_dim)%Z then
    Raise (ValueError
      "not clear what inverse_metric_derivative means if the derivative matrix is not square")
  else
    (par_vecs <- rmap (fun rst => forward_metric_derivative_mv ambient_dim rst dd)
                      (range dim) ;;
     vs <- rmap (fun rst => forward_metric_derivative_mv ambient_dim rst dd)
                (range dim) ;;
     o <- outerprod vs ;;
     oi <- mv_inv G o ;;
     let volume_pseudoscalar_inv := mv_cse G oi None in
     i <- py_index dim xyz_axis ;;
     let unit_vec :=
       map (fun k => if Nat.eqb k i then Float 1 else Float 0)
           (seq 0 (Z.to_nat dim)) in
     at_ <- py_index (Z.of_nat (List.length par_vecs)) rst_axis ;;
     let vecs := firstn at_ par_vecs ++ mv_of_vector G unit_vec
                   :: skipn (S at_) par_vecs in
     w <- outerprod vecs ;;
     s <- as_scalar G (mv_mul G w volume_pseudoscalar_inv) ;;
     Ok (cse P s (Some ("dr" ++ str_of_int rst_axis ++ "_dx"
                          ++ str_of_int xyz_axis)%string)))%py.

(** [forward_metric_derivative_mat(ambient_dim, dim=None, dd=None)]. *)
Definition forward_metric_derivative_mat (ambient_dim : Z) (dim : option Z)
  (dd : DDLike V) : result EMatrix :=
  let dim := default_dim dim ambient_dim in
  (_ <- check_shape ambient_dim dim ;;
   cols <- rmap (fun j => forward_metric_derivative_vector ambient_dim j dd)
                (range dim) ;;
   Ok (e_transpose dim ambient_dim cols))%py.

(** [inverse_metric_derivative_mat(ambient_dim, dim=None, dd=None)]. *)
Definition inverse_metric_derivative_mat (ambient_dim : Z) (dim : option Z)
  (dd : DDLike V) : result EMatrix :=
  let dim_ := default_dim dim ambient_dim in
  (_ <- check_shape ambient_dim dim_ ;;
   computed <- rmap (fun i =>
                  rmap (fun j =>
                          inverse_metric_derivative i j ambient_dim
                            (Some dim_) dd)
                       (range ambient_dim))
                (range dim_) ;;
   Ok (map (fun i => map (fun j => e_entry computed i j) (range dim_))
           (range ambient_dim)))%py.

(** [first_fundamental_form(ambient_dim, dim=None, dd=None)]. *)
Definition first_fundamental_form (ambient_dim : Z) (dim : option Z)
  (dd : DDLike V) : result EMatrix :=
  let dim := default_dim dim (ambient_dim - 1) in
  (mder <- forward_metric_derivative_mat ambient_dim (Some dim) dd ;;
   Ok (cse_array P
         (e_matdot dim ambient_dim dim (e_transpose ambient_dim dim mder) mder)
         (Some "form1_mat"%string)))%py.

Definition surfaces_not_supported (dim : Z) : exn :=
  ValueError (str_of_int dim ++ "D surfaces not supported")%string.

(** [inverse_first_fundamental_form(ambient_dim, dim=None, dd=None)]. *)
Definition inverse_first_fundamental_form (ambient_dim : Z) (dim : option Z)
  (dd : DDLike V) : result EMatrix :=
  let dim := default_dim dim (ambient_dim - 1) in
  (inv_form1 <-
     (if (ambient_dim =? dim)%Z then
        inv_mder <- inverse_metric_derivative_mat ambient_dim (Some dim) dd ;;
        Ok (e_matdot ambient_dim dim ambient_dim inv_mder
              (e_transpose ambient_dim dim inv_mder))
      else
        form1 <- first_fundamental_form ambient_dim (Some dim) dd ;;
        if (dim =? 1)%Z then
          Ok [[e_div P (Float 1) (e_entry form1 0 0)]]
        else if (dim =? 2)%Z then
          let E := e_entry form1 0 0 in
          let F := e_entry form1 0 1 in
          let G_ := e_entry form1 1 1 in
          let s := e_div P (Float 1)
                     (e_sub P (e_mul P E G_) (e_mul P F F)) in
          Ok (map (map (e_mul P s))
                  [[G_; e_neg P F]; [e_neg P F; E]])
        else Raise (surfaces_not_supported dim)) ;;
   Ok (cse_array P inv_form1 (Some "inv_form1_mat"%string)))%py.

(** [pseudoscalar(ambient_dim, dim=None, dd=None)]. *)
Definition pseudoscalar (ambient_dim : Z) (dim : option Z) (dd : DDLike V)
  : result (MV G) :=
  let dim := default_dim dim ambient_dim in
  (pd <- parametrization_derivative ambient_dim (Some dim) dd ;;
   match pd with
   | PD_mv m => Ok (project_max_grade G m)
   | PD_int _ => Raise (AttributeError "project_max_grade")
   end)%py.

(** [area_element(ambient_dim, dim=None, dd=None)]. *)
Definition area_element (ambient_dim : Z) (dim : option Z) (dd : DDLike V)
  : result Expr :=
  (p <- pseudoscalar ambient_dim dim dd ;;
   Ok (cse P (e_sqrt P (norm_squared G p)) (Some "area_element"%string)))%py.

(** [surface_normal(ambient_dim, dim=None, dd=None)]. *)
Definition surface_normal (ambient_dim : Z) (dim : option Z) (dd : DDLike V)
  : result (MV G) :=
  (d <- as_dofdesc convert dd ;;
   let dim := default_dim dim (ambient_dim - 1) in
   p <- pseudoscalar ambient_dim (Some dim) (IsDD d) ;;
   a <- area_element ambient_dim (Some dim) (IsDD d) ;;
   let pder := mv_div G p a in
   i <- mv_inv G (mv_I G pder) ;;
   Ok (mv_cse G (mv_lshift G pder i) (Some "surface_normal"%string)))%py.

(** The two reference axes a second derivative runs over:
    [i, j = flatten([rst_axis] * n for rst_axis, n in ref_axes)]. *)
Definition unpack_two (l : list Z) : result (Z * Z) :=
  match l with
  | [i; j] => Ok (i, j)
  | _ => Raise (ValueError "wrong number of values to unpack")
  end.

(** [second_fundamental_form(ambient_dim, dim=None, dd=None)]. *)
Definition second_fundamental_form (ambient_dim : Z) (dim : option Z)
  (dd : DDLike V) : result EMatrix :=
  let dim := default_dim dim (ambient_dim - 1) in
  (n <- surface_normal ambient_dim (Some dim) dd ;;
   nrm <- as_vector G n ;;
   second_ref_axes <-
     (if (dim =? 1)%Z then Ok [[(0, 2)]]%Z
      else if (dim =? 2)%Z then
        Ok [[(0, 2)]; [(0, 1); (1, 1)]; [(1, 2)]]%Z
      else Raise (surfaces_not_supported dim)) ;;
   entries <-
     rmap (fun ref_axes : list (Z * Z) =>
             ij <- unpack_two
                     (flat_map (fun an : Z * Z =>
                                  repeat (fst an) (Z.to_nat (snd an)))
                               ref_axes) ;;
             ruv <- rmap (fun xyz_axis =>
                            forward_metric_nth_derivative xyz_axis
                              (AxisTuple ref_axes) dd)
                         (range ambient_dim) ;;
             Ok (ij, e_dot nrm ruv))
          second_ref_axes ;;
   let lookup (i j : Z) : Expr :=
     match find (fun e : Z * Z * Expr =>
                   let '(a, b, _) := e in
                   ((a =? i) && (b =? j) || (a =? j) && (b =? i))%Z)
                (rev entries)
     with
     | Some (_, _, x) => x
     | None => Float 0
     end in
   Ok (cse_array P
         (map (fun i => map (fun j => lookup i j) (range dim)) (range dim))
         (Some "form2_mat"%string)))%py.

(** [shape_operator(ambient_dim, dim=None, dd=None)]. *)
Definition shape_operator (ambient_dim : Z) (dim : option Z) (dd : DDLike V)
  : result EMatrix :=
  let dim := default_dim dim (ambient_dim - 1) in
  (inv_form1 <- inverse_first_fundamental_form ambient_dim (Some dim) dd ;;
   form2 <- second_fundamental_form ambient_dim (Some dim) dd ;;
   Ok (cse_array P
         (map (map (e_neg P)) (e_matdot dim dim dim form2 inv_form1))
         (Some "shape_operator"%string)))%py.

(** [summed_curvature(ambient_dim, dim=None, dd=None)]. *)
Definition summed_curvature (ambient_dim : Z) (dim : option Z)
  (dd : DDLike V) : result Expr :=
  let dim := default_dim dim (ambient_dim - 1) in
  if (ambient_dim =? 1)%Z then Ok (Float 0)
  else if (ambient_dim =? dim)%Z then Ok (Float 0)
  else
    (op <- shape_operator ambient_dim (Some dim) dd ;;
     Ok (cse P (e_sum P (map (fun i => e_entry op i i) (range dim)))
           (Some "summed_curvature"%string)))%py.

End Symbolic.

(** Modelled from the spec: the evaluation of a [_SignedFaceOnes] node
    ([map_signed_face_ones] of the execution mapper) is not part of the
    sources. Each degree of freedom of a face gets +1 when the number of
    the face is even and -1 when it is odd. *)
Definition signed_face_ones_value (face_number : nat) : R :=
  if Nat.even face_number then 1 else -1.

(** The value of a [_SignedFaceOnes] field on a 0-dimensional trace
    discretization: one degree of freedom per face, faces listed by
    their number within the element. *)
Definition eval_signed_face_ones (face_numbers : list nat) : list R :=
  map signed_face_ones_value face_numbers.

(* ===================================================================== *)
(** ** Example data *)
(* ===================================================================== *)

(** The example collections below share one volume group: the reference
    triangle with its three vertices as nodes and constant basis. *)
Definition example_group : ElementGroup :=
  mkElementGroup true 2 1
    [[-1; -1]; [1; -1]; [-1; 1]] 1 3
    [[-1; -1]; [1; -1]; [-1; 1]]
    [fun _ => 1] (mkQuadratureRule [[0; 0]] [2]) [] 7.

Definition example_dcoll : DiscretizationCollection :=
  mkDiscretizationCollection 2
    (fun _ => Ok (mkDiscretization [example_group] 2 2))
    (fun _ _ => Ok (fun data => Ok data))
    (fun _ => Ok (ObjArr [DOFArr [[[1; 1; 1]]]; DOFArr [[[0; 0; 0]]]])).

Definition example_convert (v : option string) : result DOFDesc :=
  match v with
  | Some "vol"%string => Ok DD_VOLUME
  | Some "all_faces"%string => Ok (mkDOFDesc FACE_RESTR_ALL DISCR_TAG_BASE)
  | Some "int_faces"%string => Ok (mkDOFDesc FACE_RESTR_INTERIOR DISCR_TAG_BASE)
  | _ => Raise (ValueError "dd is not convertible to a DOFDesc")
  end.

(** A quadrilateral (tensor-product) group, and a collection whose volume
    discretization holds it after a simplex group. *)
Definition example_quad_group : ElementGroup :=
  mkElementGroup false 2 1
    [[-1; -1]; [1; -1]; [-1; 1]; [1; 1]] 1 4
    [[-1; -1]; [1; -1]; [-1; 1]; [1; 1]]
    [fun _ => 1] (mkQuadratureRule [[0; 0]] [4]) [] 8.

Definition example_mixed_dcoll : DiscretizationCollection :=
  mkDiscretizationCollection 2
    (fun _ => Ok (mkDiscretization [example_group; example_quad_group] 2 2))
    (fun _ _ => Ok (fun data => Ok data))
    (fun _ => Ok (ObjArr [])).

(** An integration routine for the examples: the integral of each element
    is the sum of its nodal values, held at every node of the element. *)
Definition example_integral (_ : DiscretizationCollection) (_ : DOFDesc)
  (vec : DOFArray) : result DOFArray :=
  Ok (map (map (fun row => map (fun _ => rsum row) row)) vec).

(** Elementwise arithmetic for the examples: numbers broadcast over
    arrays, DOFArrays combine entry by entry, object arrays combine
    component by component. The first argument bounds the nesting depth. *)
Fixpoint fld_map (f : R -> R) (x : Field) {struct x} : Field :=
  match x with
  | Num r => Num (f r)
  | DOFArr d => DOFArr (map (map (map f)) d)
  | ObjArr els =>
      ObjArr ((fix go (l : list Field) : list Field :=
                 match l with
                 | [] => []
                 | e :: l' => fld_map f e :: go l'
                 end) els)
  end.

Definition broadcast_error : exn :=
  ValueError "operands could not be broadcast together".

Fixpoint fld_zip (depth : nat) (f : R -> R -> R) (a b : Field)
  {struct depth} : result Field :=
  match depth with
  | O => Raise broadcast_error
  | S depth' =>
      match a, b with
      | Num x, _ => Ok (fld_map (f x) b)
      | _, Num y => Ok (fld_map (fun x => f x y) a)
      | DOFArr d1, DOFArr d2 =>
          if Nat.eqb (List.length d1) (List.length d2)
          then Ok (DOFArr (map2 (map2 (map2 f)) d1 d2))
          else Raise broadcast_error
      | ObjArr l1, ObjArr l2 =>
          if Nat.eqb (List.length l1) (List.length l2)
          then (ys <- rmap (fun ab : Field * Field =>
                              fld_zip depth' f (fst ab) (snd ab))
                           (combine l1 l2) ;;
                Ok (ObjArr ys))%py
          else Raise broadcast_error
      | ObjArr l1, DOFArr _ =>
          (ys <- rmap (fun a' => fld_zip depth' f a' b) l1 ;; Ok (ObjArr ys))%py
      | DOFArr _, ObjArr l2 =>
          (ys <- rmap (fun b' => fld_zip depth' f a b') l2 ;; Ok (ObjArr ys))%py
      end
  end.

Definition fld_dot (a b : Field) : result Field :=
  match a, b with
  | ObjArr l1, ObjArr l2 =>
      if Nat.eqb (List.length l1) (List.length l2)
      then (ps <- rmap (fun ab : Field * Field =>
                          fld_zip 8 Rmult (fst ab) (snd ab))
                       (combine l1 l2) ;;
            match ps with
            | [] => Ok (Num 0)
            | p :: ps' =>
                fold_left (fun acc q => (s <- acc ;; fld_zip 8 Rplus s q)%py)
                          ps' (Ok p)
            end)%py
      else Raise broadcast_error
  | _, _ => fld_zip 8 Rmult a b
  end.

Definition fld_flat_obj_array (args : list Field) : result Field :=
  Ok (ObjArr (flat_map (fun a => match a with
                                 | ObjArr els => els
                                 | _ => [a]
                                 end) args)).

Definition example_ops : FieldArith :=
  mkFieldArith (fld_zip 8 Rplus) (fld_zip 8 Rminus) (fld_zip 8 Rmult)
    (fun a x => Ok (fld_map (Rmult a) x))
    (fun x n => Ok (fld_map (fun r => r ^ n) x))
    fld_dot fld_flat_obj_array.

(** A wave operator built with a flux type the operator does not know,
    and a trace pair of a state [(u, v0, v1)] on the interior faces. *)
Definition example_wave_lf : WeakWaveOperator :=
  WeakWaveOperator_init example_dcoll 1 "lf".

Definition example_wtpair : TracePair :=
  mkTracePair (mkDOFDesc FACE_RESTR_INTERIOR DISCR_TAG_BASE)
    (ObjArr [DOFArr [[[1; 2; 3]]]; DOFArr [[[0; 0; 0]]]; DOFArr [[[1; 1; 1]]]])
    (ObjArr [DOFArr [[[3; 2; 1]]]; DOFArr [[[0; 0; 0]]]; DOFArr [[[1; 1; 1]]]]).

Definition example_utpair : TracePair :=
  mkTracePair (mkDOFDesc FACE_RESTR_INTERIOR DISCR_TAG_BASE)
    (DOFArr [[[1; 2; 3]]]) (DOFArr [[[3; 2; 1]]]).

(** Whether field data holds at least one value that is not an object
    array (a DOFArray or a number), at any depth. *)
Fixpoint has_leaf (vec : Field) : bool :=
  match vec with
  | ObjArr els =>
      (fix any (l : list Field) : bool :=
         match l with
         | [] => false
         | e :: l' => has_leaf e || any l'
         end) els
  | _ => true
  end.

Definition example_area_element (_ : DiscretizationCollection) (_ : DOFDesc)
  : result DOFArray :=
  Ok [[[2; 2; 2]]].

Definition example_linalg_inv (m : Matrix) : result Matrix :=
  match m with
  | [[x]] => if Req_dec_T x 0 then Raise LinAlgError else Ok [[/ x]]
  | _ => Raise LinAlgError
  end.

(** Free expression builders for the examples: every operation of
    pymbolic and of its multivectors builds a node named after it. *)
Definition example_pymbolic : PymbolicOps :=
  mkPymbolicOps
    (fun a b => Pymbolic "Sub" [a; b])
    (fun a b => Pymbolic "Product" [a; b])
    (fun a b => Pymbolic "Quotient" [a; b])
    (fun a => Pymbolic "Neg" [a])
    (fun l => Pymbolic "Sum" l)
    (fun a => Pymbolic "sqrt" [a])
    (fun a _ => Pymbolic "CommonSubexpression" [a])
    (fun m _ => map (map (fun a => Pymbolic "CommonSubexpression" [a])) m).

Definition example_ga : GeometricAlgebra :=
  mkGeometricAlgebra
    (fun l => Pymbolic "MultiVector" l)
    (fun s _ => Pymbolic "MultiVector" [s])
    (fun _ m => m)
    (fun a b => Pymbolic "gp" [a; b])
    (fun a b => Pymbolic "op" [a; b])
    (fun a b => Pymbolic "lc" [a; b])
    (fun a s => Pymbolic "div" [a; s])
    (fun a => Ok (Pymbolic "inv" [a]))
    (fun a => Pymbolic "I" [a])
    (fun a => Pymbolic "project_max_grade" [a])
    (fun a => Pymbolic "norm_squared" [a])
    (fun a => Ok a)
    (fun a => Ok [a])
    (fun a _ => a).

(** A segment group with one node and the constant basis function, its
    two point-shaped faces, and the face quadrature group of a mesh with
    one such element. *)
Definition example_segment_group : ElementGroup :=
  mkElementGroup true 1 0 [[0]] 1 2 [[-1]; [1]]
    [fun _ => 1] (mkQuadratureRule [[0]] [2])
    [mkFace (fun nodes => map (fun _ => [-1]) nodes);
     mkFace (fun nodes => map (fun _ => [1]) nodes)]
    1.

Definition example_segment_quad_group : ElementGroup :=
  mkElementGroup true 1 2 [[-1]; [0]; [1]] 1 2 [[-1]; [1]]
    [fun _ => 1] (mkQuadratureRule [[-1]; [0]; [1]] [1 / 3; 4 / 3; 1 / 3])
    [] 2.

Definition example_face_quad_group : ElementGroup :=
  mkElementGroup true 0 0 [[]] 2 0 [[]]
    [fun _ => 1] (mkQuadratureRule [[]] [1]) [] 3.

Definition example_actx : ArrayContext := mkArrayContext [] [].

(* --------------------------------------------------------------------- *)
(** *** The length scale as the description words it *)

(** [c] is the minimum distance between two distinct nodes of [nodes]. *)
Definition is_min_distance (nodes : list Point) (c : R) : Prop :=
  (exists i j p q,
      i <> j /\ nth_error nodes i = Some p /\ nth_error nodes j = Some q
      /\ c = norm (point_sub p q))
  /\ (forall i j p q,
        i <> j -> nth_error nodes i = Some p -> nth_error nodes j = Some q ->
        c <= norm (point_sub p q)).

(** The non-geometric factor of a group: the minimum node distance; for a
    group of order 0, which has one node, the distance of that node to the
    first vertex of the reference cell. *)
Definition non_geometric_factor_of (g : ElementGroup) (c : R) : Prop :=
  (order g <> O -> is_min_distance (unit_nodes g) c)
  /\ (order g = O ->
      exists n0 v0 vs,
        unit_nodes g = [n0] /\ vertex_unit_coordinates g = v0 :: vs
        /\ c = norm (point_sub n0 v0)).

(** The inradius of a simplex: [r_D = d V / (F_1 + ... + F_n)]. *)
Definition inradius (d : nat) (V : R) (face_areas : list R) : R :=
  INR d * V / rsum face_areas.

(** A list built from the elements and their positions, counted from
    [i]. *)
Fixpoint imap {A B} (F : nat -> A -> B) (i : nat) (l : list A) : list B :=
  match l with
  | [] => []
  | x :: l' => F i x :: imap F (S i) l'
  end.

(** The array that holds, at every node of element [e] of group [ig], the
    value [val ig g e]. *)
Definition per_element_array (gs : list ElementGroup)
  (val : nat -> ElementGroup -> nat -> R) : DOFArray :=
  imap (fun ig g =>
          map (fun e => repeat (val ig g e) (nunit_dofs g))
              (seq 0 (nelements g)))
       0 gs.

(** The integral of one over the elements: [Vol ig e] is the signed
    volume of element [e] of group [ig]. *)
Definition volume_integrals (gs : list ElementGroup) (Vol : nat -> nat -> R)
  : DOFArray :=
  per_element_array gs (fun ig _ e => Vol ig e).

(** The integral of one over the faces, in the all-faces discretization:
    face [f] of element [e] is row [f * nelements + e], and [Area ig f e]
    is its signed area, held at each of its nodes. *)
Definition face_integrals (vgs fgs : list ElementGroup)
  (Area : nat -> nat -> nat -> R) : DOFArray :=
  imap (fun ig (va : ElementGroup * ElementGroup) =>
          flat_map (fun f =>
                      map (fun e => repeat (Area ig f e) (nunit_dofs (snd va)))
                          (seq 0 (nelements (fst va))))
                   (seq 0 (nfaces (fst va))))
       0 (combine vgs fgs).

(** The geometric factor the code yields for element [e] of group [ig]:
    the cell volume in one dimension, the inradius otherwise. *)
Definition geometric_factor (d : nat) (Vol : nat -> nat -> R)
  (Area : nat -> nat -> nat -> R) (ig : nat) (g : ElementGroup) (e : nat)
  : R :=
  if Nat.eqb d 1 then Rabs (Vol ig e)
  else inradius d (Rabs (Vol ig e))
         (map (fun f => Rabs (Area ig f e)) (seq 0 (nfaces g))).

(** The length scales: at every node of element [e] of group [ig], the
    non-geometric factor of the group times [geo ig g e]. *)
Definition lengthscale_array (gs : list ElementGroup) (cngs : list R)
  (geo : nat -> ElementGroup -> nat -> R) : DOFArray :=
  imap (fun ig (gc : ElementGroup * R) =>
          map (fun e => repeat (snd gc * geo ig (fst gc) e)
                               (nunit_dofs (fst gc)))
              (seq 0 (nelements (fst gc))))
       0 (combine gs cngs).

(** What the time step estimate needs of a simplex group: it is a simplex
    group of positive dimension; with order 0 it has one node and its
    reference cell has a vertex; otherwise it has at least two nodes. *)
Definition wf_simplex_group (g : ElementGroup) : Prop :=
  is_simplex g = true
  /\ grp_dim g <> O
  /\ (order g = O -> nunit_dofs g = 1%nat /\ vertex_unit_coordinates g <> [])
  /\ (order g <> O -> (2 <= nunit_dofs g)%nat).

Definition dd_all_faces : DOFDesc := mkDOFDesc FACE_RESTR_ALL DISCR_TAG_BASE.

(** A one-dimensional collection: one segment of length 2 with its two
    end points as nodes; its two faces are points, of measure 1. *)
Definition example_segment_p1_group : ElementGroup :=
  mkElementGroup true 1 1 [[-1]; [1]] 1 2 [[-1]; [1]]
    [fun _ => 1; fun x => nth 0 x 0] (mkQuadratureRule [[-1]; [1]] [1; 1])
    [mkFace (fun nodes => map (fun _ => [-1]) nodes);
     mkFace (fun nodes => map (fun _ => [1]) nodes)]
    4.

Definition example_point_face_group : ElementGroup :=
  mkElementGroup true 0 1 [[]] 2 0 [[]]
    [fun _ => 1] (mkQuadratureRule [[]] [1]) [] 5.

Definition example_1d_dcoll : DiscretizationCollection :=
  mkDiscretizationCollection 1
    (fun dd => if DOFDesc_eqb dd DD_VOLUME
               then Ok (mkDiscretization [example_segment_p1_group] 1 1)
               else Ok (mkDiscretization [example_point_face_group] 0 1))
    (fun _ _ => Ok (fun data => Ok data))
    (fun _ => Ok (ObjArr [DOFArr [[[-1]; [1]]]])).

Definition example_1d_integral (_ : DiscretizationCollection) (dd : DOFDesc)
  (_ : DOFArray) : result DOFArray :=
  if DOFDesc_eqb dd DD_VOLUME then Ok [[[2; 2]]] else Ok [[[1]; [1]]].

(** A two-dimensional collection: one triangle with legs 3 and 4 (area 6,
    faces of length 3, 4 and 5), with three nodes on the triangle and two
    on each face. *)
Definition example_tri_face_group : ElementGroup :=
  mkElementGroup true 1 1 [[-1]; [1]] 3 2 [[-1]; [1]]
    [fun _ => 1; fun x => nth 0 x 0] (mkQuadratureRule [[-1]; [1]] [1; 1])
    [] 6.

Definition example_tri_dcoll : DiscretizationCollection :=
  mkDiscretizationCollection 2
    (fun dd => if DOFDesc_eqb dd DD_VOLUME
               then Ok (mkDiscretization [example_group] 2 2)
               else Ok (mkDiscretization [example_tri_face_group] 1 2))
    (fun _ _ => Ok (fun data => Ok data))
    (fun _ => Ok (ObjArr [])).

Definition example_tri_integral (_ : DiscretizationCollection) (dd : DOFDesc)
  (_ : DOFArray) : result DOFArray :=
  if DOFDesc_eqb dd DD_VOLUME then Ok [[[6; 6; 6]]]
  else Ok [[[3; 3]; [4; 4]; [5; 5]]].

(* --------------------------------------------------------------------- *)
(** *** Measures of field data *)

(** The number of DOFArrays held by field data, at any depth. *)
Fixpoint count_dofarrays (vec : Field) : nat :=
  match vec with
  | DOFArr _ => 1%nat
  | Num _ => 0%nat
  | ObjArr els =>
      (fix total (l : list Field) : nat :=
         match l with
         | [] => 0%nat
         | e :: l' => (count_dofarrays e + total l')%nat
         end) els
  end.

(** A function on DOFArrays applied to every DOFArray of field data, left
    to right, up to the first failure; numbers and the nesting of object
    arrays are kept. *)
Fixpoint map_dofarrays (f : DOFArray -> result DOFArray) (vec : Field)
  {struct vec} : result Field :=
  match vec with
  | Num x => Ok (Num x)
  | DOFArr data => (r <- f data ;; Ok (DOFArr r))%py
  | ObjArr els =>
      (ys <- (fix go (l : list Field) : result (list Field) :=
                match l with
                | [] => Ok []
                | e :: l' =>
                    y <- map_dofarrays f e ;;
                    ys <- go l' ;; Ok (y :: ys)
                end) els ;;
       Ok (ObjArr ys))%py
  end.

(** What [project] does for one DOFArray: it asks the collection for the
    connection and applies it. *)
Definition leaf_events (s t : DOFDesc) : list Event :=
  [EvConnectionFromDDs s t; EvConnectionApply s t].

(** A segment group with the key of [example_segment_group] but a basis
    function that vanishes at its node, so that its Vandermonde matrix is
    singular. *)
Definition example_stale_segment_group : ElementGroup :=
  mkElementGroup true 1 0 [[0]] 1 2 [[-1]; [1]]
    [fun x => nth 0 x 0] (mkQuadratureRule [[0]] [2])
    [mkFace (fun nodes => map (fun _ => [-1]) nodes);
     mkFace (fun nodes => map (fun _ => [1]) nodes)]
    1.

(** A caller that asks for the volume interpolation matrix of one pair of
    groups after the other on one array context, and keeps the outcome of
    every call. *)
Fixpoint volume_interpolation_calls (linalg_inv : Matrix -> result Matrix)
  (actx : ArrayContext) (calls : list (ElementGroup * ElementGroup))
  : ArrayContext * list (result Matrix) :=
  match calls with
  | [] => (actx, [])
  | bq :: rest =>
      let (actx1, r) :=
        volume_quadrature_interpolation_matrix linalg_inv actx
          (fst bq) (snd bq) in
      let (actx2, rs) := volume_interpolation_calls linalg_inv actx1 rest in
      (actx2, r :: rs)
  end.

(** Two pairs of groups with the same memo key. *)
Definition same_keys (c1 c2 : ElementGroup * ElementGroup) : Prop :=
  discretization_key (fst c1) = discretization_key (fst c2)
  /\ discretization_key (snd c1) = discretization_key (snd c2).

(** Every matrix of the dictionary [vc] was computed by one of [calls]. *)
Definition stored_by_calls (linalg_inv : Matrix -> result Matrix)
  (calls : list (ElementGroup * ElementGroup)) (vc : Cache) : Prop :=
  forall k1 k2 m,
    cache_lookup (k1, k2) vc = Some m ->
    exists c, In c calls
              /\ discretization_key (fst c) = k1
              /\ discretization_key (snd c) = k2
              /\ get_volume_vand linalg_inv (fst c) (snd c) = Ok m.

(** [WeakWaveOperator.max_characteristic_velocity(self, actx, t=None,
    fields=None)]: [abs(self.c)]. *)
Definition WeakWaveOperator_max_characteristic_velocity
  (self : WeakWaveOperator) : R :=
  Rabs (w_c self).

(* --------------------------------------------------------------------- *)
(** *** grudge.symbolic.primitives: nodes, normals and mean curvature *)

Section SymbolicNormals.

Variable V : Type.
Variable convert : option V -> result DOFDesc.
Variable P : PymbolicOps.
Variable G : GeometricAlgebra.

(** [MultiVector.map(f)] and the unary minus of multivectors. *)
Variable mv_map : (Expr -> Expr) -> MV G -> MV G.
Variable mv_neg : MV G -> MV G.

(** [nodes(ambient_dim, dd=None)]. *)
Definition nodes (ambient_dim : Z) (dd : DDLike V) : result (list Expr) :=
  (d <- as_dofdesc convert (match dd with
                            | PyNone => IsDD DD_VOLUME
                            | _ => dd
                            end) ;;
   rmap (fun i => NodeCoordinateComponent i d) (range ambient_dim))%py.

(** [mv_nodes(ambient_dim, dd=None)]. *)
Definition mv_nodes (ambient_dim : Z) (dd : DDLike V) : result (MV G) :=
  (v <- nodes ambient_dim dd ;; Ok (mv_of_vector G v))%py.

(** [inverse_surface_metric_derivative(rst_axis, xyz_axis, ambient_dim,
    dim=None, dd=None)]. *)
Definition inverse_surface_metric_derivative (rst_axis xyz_axis : Z)
  (ambient_dim : Z) (dim : option Z) (dd : DDLike V) : result Expr :=
  let dim := default_dim dim (ambient_dim - 1) in
  if (ambient_dim =? dim)%Z then
    inverse_metric_derivative P G rst_axis xyz_axis ambient_dim (Some dim) dd
  else
    (inv_form1 <- inverse_first_fundamental_form P G ambient_dim (Some dim) dd ;;
     terms <- rmap (fun d =>
                      i <- py_index dim rst_axis ;;
                      f <- forward_metric_derivative xyz_axis d dd ;;
                      Ok (e_mul P (e_entry inv_form1 (Z.of_nat i) d) f))
                   (range dim) ;;
     Ok (cse P (e_sum P terms)
           (Some ("ds" ++ str_of_int rst_axis ++ "_dx"
                    ++ str_of_int xyz_axis)%string)))%py.

(** [mv_normal(dd, ambient_dim, dim=None)]. *)
Definition mv_normal (dd : DDLike V) (ambient_dim : Z) (dim : option Z)
  : result (MV G) :=
  (d <- as_dofdesc convert dd ;;
   if negb (is_trace d) then
     Raise (ValueError "may only request normals on boundaries")
   else
     let dim := default_dim dim (ambient_dim - 1) in
     if (dim =? ambient_dim - 1)%Z then
       surface_normal convert P G ambient_dim (Some dim) (IsDD d)
     else if negb (dim =? ambient_dim - 2)%Z then Raise AssertionError
     else
       _ <- import_from_operators "project" ;;
       n <- surface_normal convert P G ambient_dim (Some (dim + 1)%Z)
              (IsDD DD_VOLUME) ;;
       let volm_normal :=
         mv_map (fun e => OperatorBinding (ProjectionOperator DD_VOLUME d) e)
                n in
       pder <- pseudoscalar convert G ambient_dim (Some dim) (IsDD d) ;;
       let wedge := mv_neg (mv_xor G volm_normal pder) in
       i <- mv_inv G (mv_I G volm_normal) ;;
       let mv := mv_cse G (mv_lshift G wedge i) (Some "face_normal"%string) in
       Ok (mv_cse G (mv_div G mv (e_sqrt P (norm_squared G mv)))
             (Some "unit_face_normal"%string)))%py.

(** [normal(dd, ambient_dim, dim=None)]. *)
Definition normal_vector (dd : DDLike V) (ambient_dim : Z) (dim : option Z)
  : result (list Expr) :=
  (m <- mv_normal dd ambient_dim dim ;; as_vector G m)%py.

(** [mean_curvature(ambient_dim, dim=None, dd=None)]: the quotient is
    taken before [summed_curvature] is called; a float times a float is a
    float, a float times an expression is pymbolic's product. *)
Definition mean_curvature (ambient_dim : Z) (dim : option Z) (dd : DDLike V)
  : result Expr :=
  (c <- py_div 1 (IZR ambient_dim - 1) ;;
   s <- summed_curvature convert P G ambient_dim dim dd ;;
   Ok (match s with
       | Float x => Float (c * x)
       | e => e_mul P (Float c) e
       end))%py.

End SymbolicNormals.

(** The axes of a multi-index, an integer [i] standing for [((i, 1),)]. *)
Definition axes_of (ref_axes : RefAxes) : list (Z * Z) :=
  match ref_axes with
  | AxisIndex i => [(i, 1%Z)]
  | AxisTuple l => l
  end.

(** The reference axes of a multi-index increase strictly. *)
Fixpoint axes_increasing (l : list (Z * Z)) : bool :=
  match l with
  | a :: ((b :: _) as l') => (fst a <? fst b)%Z && axes_increasing l'
  | _ => true
  end.

(* --------------------------------------------------------------------- *)
(** *** grudge.sbp_op: the quadrature-based mass matrix *)

(** The array context with the memo dictionary of
    [quadrature_based_mass_matrix], beside those of the interpolation
    matrices. *)
Record SbpContext : Type := mkSbpContext {
  interpolation_caches : ArrayContext;
  mass_cache : Cache
}.

(** [quadrature_based_mass_matrix(actx, base_element_group,
    quad_element_group)]. A stored matrix is returned as it is; otherwise
    the interpolation matrix is asked for through its own memo dictionary
    and [vdm_q.T @ weights @ vdm_q] is computed from the left and
    stored. *)
Definition quadrature_based_mass_matrix
  (linalg_inv : Matrix -> result Matrix) (actx : SbpContext)
  (base_element_group quad_element_group : ElementGroup)
  : SbpContext * result Matrix :=
  let k := (discretization_key base_element_group,
            discretization_key quad_element_group) in
  match cache_lookup k (mass_cache actx) with
  | Some m => (actx, Ok m)
  | None =>
      let (ic, r) :=
        volume_quadrature_interpolation_matrix linalg_inv
          (interpolation_caches actx) base_element_group quad_element_group in
      let actx1 := mkSbpContext ic (mass_cache actx) in
      match r with
      | Raise e => (actx1, Raise e)
      | Ok vdm_q =>
          let weights :=
            diag (quad_weights (quadrature_rule quad_element_group)) in
          match (t <- matmul (transpose vdm_q) weights ;; matmul t vdm_q)%py
          with
          | Ok m => (mkSbpContext ic ((k, m) :: mass_cache actx), Ok m)
          | Raise e => (actx1, Raise e)
          end
      end
  end.

(** A collection that has no connection between any two descriptors. *)
Definition example_unconnected_dcoll : DiscretizationCollection :=
  mkDiscretizationCollection 2
    (fun _ => Ok (mkDiscretization [example_group] 2 2))
    (fun _ _ =>
       Raise (ValueError "cannot interpolate from volume to all faces"))
    (fun _ => Ok (ObjArr [])).

(** The inverse of a two-by-two matrix by its adjugate, and
    [LinAlgError] on a singular matrix and on every other shape. *)
Definition example_linalg_inv2 (m : Matrix) : result Matrix :=
  match m with
  | [[a; b]; [c; d]] =>
      if Req_dec_T (a * d - b * c) 0 then Raise LinAlgError
      else Ok [[d / (a * d - b * c); - b / (a * d - b * c)];
               [- c / (a * d - b * c); a / (a * d - b * c)]]
  | _ => Raise LinAlgError
  end.

(** A segment group of order one: the nodes are the two end points, the
    basis is [1, x], and the two faces are the end points. Its quadrature
    group has three nodes. *)
Definition example_p1_group : ElementGroup :=
  mkElementGroup true 1 1 [[-1]; [1]] 1 2 [[-1]; [1]]
    [fun _ => 1; fun x => nth 0 x 0] (mkQuadratureRule [[-1]; [1]] [1; 1])
    [mkFace (fun nodes => map (fun _ => [-1]) nodes);
     mkFace (fun nodes => map (fun _ => [1]) nodes)]
    4.

Definition example_p1_quad_group : ElementGroup :=
  mkElementGroup true 1 2 [[-1]; [0]; [1]] 1 2 [[-1]; [1]]
    [fun _ => 1; fun x => nth 0 x 0]
    (mkQuadratureRule [[-1]; [0]; [1]] [1 / 3; 4 / 3; 1 / 3])
    [] 5.

(** An array context after one call of each interpolation function on
    the groups above: the two matrices are stored. *)
Definition example_p1_actx : ArrayContext :=
  mkArrayContext
    [((4%nat, 5%nat), [[1; 0]; [1 / 2; 1 / 2]; [0; 1]])]
    [((4%nat, 3%nat), [[1; 0]; [0; 1]])].



(* ===================================================================== *)
(** * Properties *)
(* ===================================================================== *)

(** ** Descriptor equality *)

Lemma DomainTag_eqb_eq a b : DomainTag_eqb a b = true <-> a = b.
Proof.
  destruct a, b; simpl; split; intro H;
    try reflexivity; try discriminate.
  - apply String.eqb_eq in H. now subst.
  - inversion H. apply String.eqb_refl.
Qed.

Lemma DiscrTag_eqb_eq a b : DiscrTag_eqb a b = true <-> a = b.
Proof.
  destruct a, b; simpl; split; intro H;
    try reflexivity; try discriminate.
  - apply String.eqb_eq in H. now subst.
  - inversion H. apply String.eqb_refl.
Qed.

Lemma DOFDesc_eqb_eq a b : DOFDesc_eqb a b = true <-> a = b.
Proof.
  unfold DOFDesc_eqb. rewrite andb_true_iff, DomainTag_eqb_eq, DiscrTag_eqb_eq.
  destruct a, b; simpl; split.
  - intros [-> ->]. reflexivity.
  - intro H. inversion H. auto.
Qed.

Lemma DOFDesc_eqb_refl a : DOFDesc_eqb a a = true.
Proof. now apply DOFDesc_eqb_eq. Qed.

Lemma DOFDesc_eqb_neq a b : DOFDesc_eqb a b = false <-> a <> b.
Proof.
  split.
  - intros H E. apply DOFDesc_eqb_eq in E. congruence.
  - intro H. destruct (DOFDesc_eqb a b) eqn:E; [|reflexivity].
    apply DOFDesc_eqb_eq in E. contradiction.
Qed.

(** ** Traced computations *)

Lemma ebind_eret {A B} (a : A) (f : A -> Eff B) : ebind (eret a) f = f a.
Proof. unfold ebind, eret. destruct (f a). reflexivity. Qed.

Lemma ebind_lift_ok {A B} (a : A) (f : A -> Eff B) :
  ebind (lift (Ok a)) f = f a.
Proof. apply ebind_eret. Qed.

Lemma ebind_lift_raise {A B} (e : exn) (f : A -> Eff B) :
  ebind (lift (Raise e)) f = ([], Raise e).
Proof. reflexivity. Qed.

Lemma ebind_emit {B} (ev : Event) (f : unit -> Eff B) :
  ebind (emit ev) f = (ev :: fst (f tt), snd (f tt)).
Proof. unfold ebind, emit. destruct (f tt). reflexivity. Qed.

(* ===================================================================== *)
(** ** Projection *)
(* ===================================================================== *)

(** C1. When the two descriptors, once converted by [as_dofdesc], are
    structurally equal, [project] returns the field it was given and
    performs no event at all: neither [connection_from_dds] nor a
    connection is ever called. *)
Theorem project_same_descriptor_returns_field :
  forall (V : Type) (convert : option V -> result DOFDesc)
         (dcoll : DiscretizationCollection) (src tgt : DDLike V)
         (s t : DOFDesc) (vec : Field),
    as_dofdesc convert src = Ok s ->
    as_dofdesc convert tgt = Ok t ->
    DOFDesc_eqb s t = true ->
    project convert dcoll src tgt vec = ([], Ok vec).
Proof.
  intros V convert dcoll src tgt s t vec Hs Ht Heq.
  unfold project. rewrite Hs, Ht, !ebind_lift_ok.
  destruct vec; simpl; rewrite Heq; reflexivity.
Qed.

Lemma project_same_descriptor_returns_field_witness :
  project example_convert example_dcoll (Other "vol"%string) (IsDD DD_VOLUME)
    (DOFArr [[[1; 2; 3]]])
  = ([], Ok (DOFArr [[[1; 2; 3]]])).
Proof.
  apply (@project_same_descriptor_returns_field string example_convert
           example_dcoll (Other "vol"%string) (IsDD DD_VOLUME)
           DD_VOLUME DD_VOLUME);
    reflexivity.
Defined.

(* ===================================================================== *)
(** ** Burgers operator: dimension guard *)
(* ===================================================================== *)

(** C10. For every collection whose dimension is not 1 and every flux
    type, the constructor of [InviscidBurgers] raises
    [NotImplementedError] and yields no instance; when the flux type passes
    the first check, the message is the one of the dimension check. *)
Theorem InviscidBurgers_init_requires_dim_one :
  forall (dcoll : DiscretizationCollection) (flux_type : string),
    dim dcoll <> 1%nat ->
    (exists msg,
        InviscidBurgers_init dcoll flux_type = Raise (NotImplementedError msg))
    /\ (str_in flux_type flux_types = true ->
        InviscidBurgers_init dcoll flux_type
        = Raise (NotImplementedError
                   ("Burgers operator for dim = "
                      ++ str_of_int (Z.of_nat (dim dcoll))
                      ++ " not implemented")%string)).
Proof.
  intros dcoll flux_type Hdim.
  assert (Hd : Nat.eqb (dim dcoll) 1 = false) by now apply Nat.eqb_neq.
  unfold InviscidBurgers_init.
  destruct (str_in flux_type flux_types) eqn:Hin; simpl; rewrite ?Hd; simpl.
  - split; [eexists; reflexivity | reflexivity].
  - split; [eexists; reflexivity | discriminate].
Qed.

Lemma InviscidBurgers_init_requires_dim_one_witness :
  (exists msg,
      InviscidBurgers_init example_dcoll "lf" = Raise (NotImplementedError msg))
  /\ (str_in "lf" flux_types = true ->
      InviscidBurgers_init example_dcoll "lf"
      = Raise (NotImplementedError
                 ("Burgers operator for dim = "
                    ++ str_of_int (Z.of_nat (dim example_dcoll))
                    ++ " not implemented")%string)).
Proof.
  apply (InviscidBurgers_init_requires_dim_one example_dcoll "lf").
  simpl. discriminate.
Defined.

(* ===================================================================== *)
(** ** Time step estimation: the simplex guard *)
(* ===================================================================== *)

(** C5. When the requested volume discretization holds a group that is not
    a simplex group, [dt_geometric_factors] raises [NotImplementedError];
    the only event before the exception is the look-up of the
    discretization, so no integral is evaluated and no other formula is
    tried. *)
Theorem dt_geometric_factors_rejects_non_simplex :
  forall (elementwise_integral :
            DiscretizationCollection -> DOFDesc -> DOFArray -> result DOFArray)
         (dcoll : DiscretizationCollection) (dd : option DOFDesc)
         (volm_discr : Discretization),
    discr_from_dd dcoll (match dd with None => DD_VOLUME | Some d => d end)
    = Ok volm_discr ->
    existsb (fun grp => negb (is_simplex grp)) (groups volm_discr) = true ->
    dt_geometric_factors elementwise_integral dcoll dd
    = ([EvDiscrFromDD (match dd with None => DD_VOLUME | Some d => d end)],
       Raise (NotImplementedError simplex_only)).
Proof.
  intros ei dcoll dd volm Hdiscr Hex.
  unfold dt_geometric_factors.
  rewrite ebind_emit, Hdiscr, ebind_lift_ok, Hex. reflexivity.
Qed.

Lemma dt_geometric_factors_rejects_non_simplex_witness :
  dt_geometric_factors example_integral example_mixed_dcoll None
  = ([EvDiscrFromDD DD_VOLUME], Raise (NotImplementedError simplex_only)).
Proof.
  apply (@dt_geometric_factors_rejects_non_simplex example_integral
           example_mixed_dcoll None
           (mkDiscretization [example_group; example_quad_group] 2 2));
    reflexivity.
Defined.

(* ===================================================================== *)
(** ** Logarithmic mean *)
(* ===================================================================== *)

Lemma py_div_ok (a b : R) : b <> 0 -> py_div a b = Ok (a / b).
Proof.
  intro H. unfold py_div. destruct (Req_dec_T b 0); [contradiction | reflexivity].
Qed.





(* ===================================================================== *)
(** ** Unknown flux types *)
(* ===================================================================== *)

Lemma ebind_ext {A B} (m : Eff A) (f g : A -> Eff B) :
  (forall a, f a = g a) -> ebind m f = ebind m g.
Proof.
  intro H. destruct m as [t [a | e]]; simpl; [rewrite H|]; reflexivity.
Qed.

Lemma ebind_eraise_not_ok {A B} (m : Eff A) (e : exn) :
  is_ok (outcome (ebind m (fun _ => @eraise B e))) = false.
Proof. destruct m as [t [a | e']]; reflexivity. Qed.

Lemma burgers_unknown_flux (ops : FieldArith)
  (convert : option string -> result DOFDesc)
  (dcoll : DiscretizationCollection) (t : string) (u : TracePair)
  (mw : Field) :
  lower t <> "central"%string -> lower t <> "lf"%string ->
  burgers_numerical_flux ops convert dcoll t u mw
  = ebind (burgers_flux_setup ops convert dcoll u mw)
      (fun _ => eraise (NotImplementedError
                          ("flux '" ++ lower t ++ "' is not implemented")%string)).
Proof.
  intros Hc Hl. unfold burgers_numerical_flux.
  apply ebind_ext. intros [central mw'].
  apply String.eqb_neq in Hc. apply String.eqb_neq in Hl.
  rewrite Hc, Hl. reflexivity.
Qed.

Lemma InviscidBurgers_init_unknown_flux (dcoll : DiscretizationCollection)
  (t : string) :
  str_in t flux_types = false ->
  InviscidBurgers_init dcoll t
  = Raise (NotImplementedError ("unknown flux type: '" ++ t ++ "'")%string).
Proof. intro H. unfold InviscidBurgers_init. rewrite H. reflexivity. Qed.

Lemma wave_unknown_flux (ops : FieldArith) (self : WeakWaveOperator)
  (wt : TracePair) :
  w_flux_type self <> "central"%string -> w_flux_type self <> "upwind"%string ->
  WeakWaveOperator_flux ops self wt
  = ebind (wave_flux_setup ops self wt)
      (fun _ => eraise (ValueError
                          ("invalid flux type '" ++ w_flux_type self ++ "'")%string)).
Proof.
  intros Hc Hu. unfold WeakWaveOperator_flux.
  apply ebind_ext. intros [[[u v] nrm] central].
  apply String.eqb_neq in Hc. apply String.eqb_neq in Hu.
  rewrite Hc, Hu. reflexivity.
Qed.

(** C6, as the code has it. A flux type that is not supported is rejected
    by all three entry points, and the message names the value:
    [burgers_numerical_flux] raises [NotImplementedError] naming the
    lower-cased value once its set-up has run, the constructor of
    [InviscidBurgers] raises [NotImplementedError] naming the value, and
    [WeakWaveOperator.flux] raises [ValueError] ("invalid flux type")
    naming the value once its set-up has run. None of the two flux
    functions returns a value. *)
Theorem unsupported_flux_type_rejected :
  forall (ops : FieldArith) (convert : option string -> result DOFDesc)
         (dcoll : DiscretizationCollection) (t : string)
         (u : TracePair) (mw : Field)
         (self : WeakWaveOperator) (wt : TracePair),
    (lower t <> "central"%string -> lower t <> "lf"%string ->
     burgers_numerical_flux ops convert dcoll t u mw
     = ebind (burgers_flux_setup ops convert dcoll u mw)
         (fun _ => eraise (NotImplementedError
                     ("flux '" ++ lower t ++ "' is not implemented")%string))
     /\ is_ok (outcome (burgers_numerical_flux ops convert dcoll t u mw)) = false)
    /\ (str_in t flux_types = false ->
        InviscidBurgers_init dcoll t
        = Raise (NotImplementedError
                   ("unknown flux type: '" ++ t ++ "'")%string))
    /\ (w_flux_type self <> "central"%string ->
        w_flux_type self <> "upwind"%string ->
        WeakWaveOperator_flux ops self wt
        = ebind (wave_flux_setup ops self wt)
            (fun _ => eraise (ValueError
                        ("invalid flux type '" ++ w_flux_type self ++ "'")%string))
        /\ is_ok (outcome (WeakWaveOperator_flux ops self wt)) = false).
Proof.
  intros ops convert dcoll t u mw self wt. repeat split.
  - now apply burgers_unknown_flux.
  - rewrite burgers_unknown_flux by assumption. apply ebind_eraise_not_ok.
  - apply InviscidBurgers_init_unknown_flux.
  - now apply wave_unknown_flux.
  - rewrite wave_unknown_flux by assumption. apply ebind_eraise_not_ok.
Qed.

Lemma unsupported_flux_type_rejected_witness :
  (burgers_numerical_flux example_ops example_convert example_dcoll "Upwind"
     example_utpair (Num 1)
   = ebind (burgers_flux_setup example_ops example_convert example_dcoll
              example_utpair (Num 1))
       (fun _ => eraise (NotImplementedError "flux 'upwind' is not implemented"))
   /\ is_ok (outcome (burgers_numerical_flux example_ops example_convert
                        example_dcoll "Upwind" example_utpair (Num 1))) = false)
  /\ InviscidBurgers_init example_dcoll "Upwind"
     = Raise (NotImplementedError "unknown flux type: 'Upwind'")
  /\ (WeakWaveOperator_flux example_ops example_wave_lf example_wtpair
      = ebind (wave_flux_setup example_ops example_wave_lf example_wtpair)
          (fun _ => eraise (ValueError "invalid flux type 'lf'"))
      /\ is_ok (outcome (WeakWaveOperator_flux example_ops example_wave_lf
                           example_wtpair)) = false).
Proof.
  pose proof (@unsupported_flux_type_rejected example_ops example_convert
                example_dcoll "Upwind" example_utpair (Num 1)
                example_wave_lf example_wtpair) as [Hb [Hi Hw]].
  split; [| split].
  - apply Hb; simpl; discriminate.
  - apply Hi. reflexivity.
  - apply Hw; simpl; discriminate.
Defined.

(** C6 as stated fails for the wave operator: with the flux type "lf" its
    flux function runs its set-up and then raises [ValueError], which is
    not the "not implemented" signal. *)
Lemma wave_flux_unknown_type_raises_ValueError :
  outcome (WeakWaveOperator_flux example_ops example_wave_lf example_wtpair)
  = Raise (ValueError "invalid flux type 'lf'")
  /\ ~ (exists msg,
          outcome (WeakWaveOperator_flux example_ops example_wave_lf
                     example_wtpair)
          = Raise (NotImplementedError msg)).
Proof.
  assert (H : outcome (WeakWaveOperator_flux example_ops example_wave_lf
                         example_wtpair)
              = Raise (ValueError "invalid flux type 'lf'"))
    by reflexivity.
  split; [exact H |].
  intros [msg Hm]. rewrite H in Hm. discriminate.
Qed.

(* ===================================================================== *)
(** ** Inverse SBP mass operator: the descriptor guard *)
(* ===================================================================== *)

Lemma Field_nested_ind (Q : Field -> Prop) :
  (forall x, Q (Num x)) ->
  (forall d, Q (DOFArr d)) ->
  (forall els, Forall Q els -> Q (ObjArr els)) ->
  forall f, Q f.
Proof.
  intros HN HD HO. fix IH 1. intros [x | d | els].
  - apply HN.
  - apply HD.
  - apply HO. revert els. fix IHl 1. intros [| a l].
    + constructor.
    + constructor; [apply IH | apply IHl].
Qed.

Section InverseMassGuard.

Variable linalg_inv : Matrix -> result Matrix.
Variable area_element : DiscretizationCollection -> DOFDesc -> result DOFArray.
Variable dcoll : DiscretizationCollection.

Lemma apply_inverse_mass_mismatch (dd_out dd_in : DOFDesc) :
  dd_out <> dd_in ->
  forall vec,
    _apply_inverse_sbp_mass_operator linalg_inv area_element dcoll
      dd_out dd_in vec
    = ([], if has_leaf vec then Raise (ValueError inverse_mass_mismatch)
           else Ok vec).
Proof.
  intros Hne. apply DOFDesc_eqb_neq in Hne.
  induction vec as [x | d | els IH] using Field_nested_ind.
  - simpl. rewrite Hne. reflexivity.
  - simpl. rewrite Hne. reflexivity.
  - simpl.
    match goal with
    | |- ebind (?go els) _ = _ =>
        assert (Hgo : go els
                      = ([], if (fix any (l : list Field) : bool :=
                                   match l with
                                   | [] => false
                                   | e :: l' => has_leaf e || any l'
                                   end) els
                             then Raise (ValueError inverse_mass_mismatch)
                             else Ok els))
    end.
    { induction IH as [| a l Ha _ IHl].
      - reflexivity.
      - rewrite Ha. destruct (has_leaf a); simpl.
        + reflexivity.
        + rewrite IHl. simpl.
          match goal with
          | |- context [if ?b then _ else _] => destruct b
          end; reflexivity. }
    rewrite Hgo.
    match goal with
    | |- context [if ?b then _ else _] => destruct b
    end; reflexivity.
Qed.

Lemma apply_inverse_mass_same (dd : DOFDesc) (data : DOFArray) :
  exists t r,
    _apply_inverse_sbp_mass_operator linalg_inv area_element dcoll
      dd dd (DOFArr data)
    = (EvDiscrFromDD dd :: t, r)
    /\ (forall discr, discr_from_dd dcoll dd = Ok discr ->
        exists t', t = EvAreaElement dd :: t').
Proof.
  cbn [_apply_inverse_sbp_mass_operator]. rewrite DOFDesc_eqb_refl.
  cbn [negb]. rewrite ebind_emit.
  eexists. eexists. split; [reflexivity |].
  intros discr Hd. rewrite Hd, ebind_lift_ok, ebind_emit. cbn [fst].
  eexists. reflexivity.
Qed.

End InverseMassGuard.

(** C4, as the code has it. With different descriptors, field data that
    holds a DOFArray or a number somewhere is rejected with [ValueError]
    before any event (no discretization look-up, no area element, no
    einsum); an object array holding no such value is returned as it is.
    With equal descriptors a DOFArray passes the guard: the first event is
    the discretization look-up, followed by the area element when the
    look-up succeeds. *)
Theorem inverse_sbp_mass_descriptor_guard :
  forall (linalg_inv : Matrix -> result Matrix)
         (area_element : DiscretizationCollection -> DOFDesc -> result DOFArray)
         (dcoll : DiscretizationCollection) (dd_out dd_in : DOFDesc)
         (vec : Field) (data : DOFArray),
    (dd_out <> dd_in ->
     _apply_inverse_sbp_mass_operator linalg_inv area_element dcoll
       dd_out dd_in vec
     = ([], if has_leaf vec then Raise (ValueError inverse_mass_mismatch)
            else Ok vec))
    /\ (exists t r,
          _apply_inverse_sbp_mass_operator linalg_inv area_element dcoll
            dd_in dd_in (DOFArr data)
          = (EvDiscrFromDD dd_in :: t, r)
          /\ (forall discr, discr_from_dd dcoll dd_in = Ok discr ->
              exists t', t = EvAreaElement dd_in :: t')).
Proof.
  intros. split.
  - intro Hne. now apply apply_inverse_mass_mismatch.
  - apply apply_inverse_mass_same.
Qed.

Lemma inverse_sbp_mass_descriptor_guard_witness :
  _apply_inverse_sbp_mass_operator example_linalg_inv example_area_element
    example_dcoll (mkDOFDesc FACE_RESTR_ALL DISCR_TAG_BASE) DD_VOLUME
    (ObjArr [ObjArr []; DOFArr [[[1; 2; 3]]]])
  = ([], Raise (ValueError inverse_mass_mismatch)).
Proof.
  apply (proj1 (@inverse_sbp_mass_descriptor_guard example_linalg_inv
                  example_area_element example_dcoll
                  (mkDOFDesc FACE_RESTR_ALL DISCR_TAG_BASE) DD_VOLUME
                  (ObjArr [ObjArr []; DOFArr [[[1; 2; 3]]]]) [])).
  discriminate.
Defined.

(** C4 as stated fails on an empty object array: the descriptors differ,
    and the operator returns the array without raising. *)
Lemma inverse_sbp_mass_empty_array_not_rejected :
  mkDOFDesc FACE_RESTR_ALL DISCR_TAG_BASE <> DD_VOLUME
  /\ _apply_inverse_sbp_mass_operator example_linalg_inv example_area_element
       example_dcoll (mkDOFDesc FACE_RESTR_ALL DISCR_TAG_BASE) DD_VOLUME
       (ObjArr [])
     = ([], Ok (ObjArr [])).
Proof. split; [discriminate | reflexivity]. Qed.

(** The call [quadrature_based_inverse_mass_matrix(actx,
    element_group=grp)] names a keyword the function does not have. *)
Lemma inverse_mass_matrix_call_raises_TypeError
  (linalg_inv : Matrix -> result Matrix) (grp : ElementGroup) :
  quadrature_based_inverse_mass_matrix_kw linalg_inv
    [("element_group"%string, grp)]
  = Raise (TypeError
      "quadrature_based_inverse_mass_matrix() got an unexpected keyword argument 'element_group'").
Proof. reflexivity. Qed.

(** With equal descriptors, a DOFArray with at least one group, on a
    discretization with at least one group, never gets its inverse mass
    applied: after the look-up and the area element, the first group
    raises [TypeError], and no einsum is evaluated. *)
Theorem inverse_sbp_mass_raises_TypeError :
  forall (linalg_inv : Matrix -> result Matrix)
         (area_element : DiscretizationCollection -> DOFDesc -> result DOFArray)
         (dcoll : DiscretizationCollection)
         (grp : ElementGroup) (grps : list ElementGroup) (dm da : nat)
         (ae : Matrix) (aes : DOFArray) (vec_i : Matrix) (vecs : DOFArray),
    discr_from_dd dcoll DD_VOLUME = Ok (mkDiscretization (grp :: grps) dm da) ->
    area_element dcoll DD_VOLUME = Ok (ae :: aes) ->
    inverse_sbp_mass linalg_inv area_element dcoll (DOFArr (vec_i :: vecs))
    = ([EvDiscrFromDD DD_VOLUME; EvAreaElement DD_VOLUME],
       Raise (TypeError
         "quadrature_based_inverse_mass_matrix() got an unexpected keyword argument 'element_group'")).
Proof.
  intros li aelt dcoll grp grps dm da ae aes vec_i vecs Hd Ha.
  unfold inverse_sbp_mass. cbn [_apply_inverse_sbp_mass_operator].
  rewrite DOFDesc_eqb_refl. cbn [negb].
  rewrite ebind_emit, Hd, ebind_lift_ok, ebind_emit, Ha, ebind_lift_ok.
  reflexivity.
Qed.

Lemma inverse_sbp_mass_raises_TypeError_witness :
  inverse_sbp_mass example_linalg_inv example_area_element example_dcoll
    (DOFArr [[[1; 2; 3]]])
  = ([EvDiscrFromDD DD_VOLUME; EvAreaElement DD_VOLUME],
     Raise (TypeError
       "quadrature_based_inverse_mass_matrix() got an unexpected keyword argument 'element_group'")).
Proof.
  apply (@inverse_sbp_mass_raises_TypeError example_linalg_inv
           example_area_element example_dcoll example_group [] 2 2
           [[2; 2; 2]] [] [[1; 2; 3]] []);
    reflexivity.
Defined.

(* ===================================================================== *)
(** ** Symbolic geometry: point-shaped traces and curvature *)
(* ===================================================================== *)

Lemma signed_face_ones_even (k : nat) : signed_face_ones_value (2 * k) = 1.
Proof.
  unfold signed_face_ones_value.
  replace (Nat.even (2 * k)) with true; [reflexivity |].
  symmetry. apply Nat.even_spec. exists k. reflexivity.
Qed.

Lemma signed_face_ones_odd (k : nat) : signed_face_ones_value (2 * k + 1) = -1.
Proof.
  unfold signed_face_ones_value.
  replace (Nat.even (2 * k + 1)) with false; [reflexivity |].
  symmetry. rewrite <- Nat.negb_odd.
  replace (Nat.odd (2 * k + 1)) with true; [reflexivity |].
  symmetry. apply Nat.odd_spec. exists k. reflexivity.
Qed.

(** C7. For a descriptor of a 0-dimensional domain ([dim] is 0, given or by
    default), [parametrization_derivative] is the scalar multivector of the
    [_SignedFaceOnes] node of the converted descriptor, with no product of
    metric derivatives in it; building the node raises [AssertionError]
    when the descriptor is not a trace descriptor. The node stands for +1 on
    the faces with an even number and -1 on the faces with an odd
    number. *)
Theorem parametrization_derivative_point_trace :
  forall (V : Type) (convert : option V -> result DOFDesc)
         (G : GeometricAlgebra) (ambient_dim : Z) (dim : option Z)
         (dd : DDLike V) (d : DOFDesc) (k : nat),
    default_dim dim ambient_dim = 0%Z ->
    as_dofdesc convert dd = Ok d ->
    (is_trace d = true ->
     parametrization_derivative convert G ambient_dim dim dd
     = Ok (PD_mv (mv_of_scalar G (SignedFaceOnesNode d) ambient_dim)))
    /\ (is_trace d = false ->
        _SignedFaceOnes convert dd = Raise AssertionError
        /\ parametrization_derivative convert G ambient_dim dim dd
           = Raise AssertionError)
    /\ signed_face_ones_value (2 * k) = 1
    /\ signed_face_ones_value (2 * k + 1) = -1.
Proof.
  intros V convert G ambient_dim dim dd d k Hdim Hdd.
  unfold parametrization_derivative, _SignedFaceOnes.
  rewrite Hdim, Hdd. simpl.
  split; [| split; [| split]].
  - intro Ht. rewrite Ht. reflexivity.
  - intro Ht. rewrite Ht. split; reflexivity.
  - apply signed_face_ones_even.
  - apply signed_face_ones_odd.
Qed.

Lemma parametrization_derivative_point_trace_witness :
  (is_trace (mkDOFDesc FACE_RESTR_ALL DISCR_TAG_BASE) = true ->
   parametrization_derivative example_convert example_ga 1 (Some 0%Z)
     (Other "all_faces"%string)
   = Ok (PD_mv (mv_of_scalar example_ga
                  (SignedFaceOnesNode (mkDOFDesc FACE_RESTR_ALL DISCR_TAG_BASE))
                  1)))
  /\ (is_trace (mkDOFDesc FACE_RESTR_ALL DISCR_TAG_BASE) = false ->
      _SignedFaceOnes example_convert (Other "all_faces"%string)
      = Raise AssertionError
      /\ parametrization_derivative example_convert example_ga 1 (Some 0%Z)
           (Other "all_faces"%string)
         = Raise AssertionError)
  /\ signed_face_ones_value (2 * 0) = 1
  /\ signed_face_ones_value (2 * 0 + 1) = -1.
Proof.
  apply (@parametrization_derivative_point_trace string example_convert
           example_ga 1%Z (Some 0%Z) (Other "all_faces"%string)
           (mkDOFDesc FACE_RESTR_ALL DISCR_TAG_BASE) 0%nat);
    reflexivity.
Defined.

(** [operators.py] binds neither [RefDiffOperator] nor [project]. *)
Lemma import_RefDiffOperator_fails :
  import_from_operators "RefDiffOperator"
  = Raise (ImportError
      "cannot import name 'RefDiffOperator' from 'grudge.symbolic.operators'").
Proof. reflexivity. Qed.

(** No call of [forward_metric_nth_derivative] returns an expression. *)
Lemma forward_metric_nth_derivative_never_returns
  (V : Type) (xyz_axis : Z) (ref_axes : RefAxes) (dd : DDLike V) :
  is_ok (forward_metric_nth_derivative xyz_axis ref_axes dd) = false.
Proof.
  unfold forward_metric_nth_derivative.
  destruct (is_sorted _); [| reflexivity].
  destruct (distinct_axes _); [| reflexivity].
  destruct dd; reflexivity.
Qed.

(** C8, second part, on the code: for a 3-dimensional surface in a
    4-dimensional space on the volume descriptor, neither form reaches its
    "surfaces not supported" branch; both stop at the import of
    [RefDiffOperator] inside [forward_metric_nth_derivative]. *)
Theorem curvature_forms_stop_at_import :
  forall (V : Type) (convert : option V -> result DOFDesc)
         (P : PymbolicOps) (G : GeometricAlgebra),
    inverse_first_fundamental_form P G 4%Z (Some 3%Z) (@IsDD V DD_VOLUME)
    = Raise (ImportError
        "cannot import name 'RefDiffOperator' from 'grudge.symbolic.operators'")
    /\ second_fundamental_form convert P G 4%Z (Some 3%Z) (@IsDD V DD_VOLUME)
       = Raise (ImportError
           "cannot import name 'RefDiffOperator' from 'grudge.symbolic.operators'")
    /\ inverse_first_fundamental_form P G 4%Z (Some 3%Z) (@IsDD V DD_VOLUME)
       <> Raise (surfaces_not_supported 3%Z)
    /\ second_fundamental_form convert P G 4%Z (Some 3%Z) (@IsDD V DD_VOLUME)
       <> Raise (surfaces_not_supported 3%Z).
Proof.
  intros V convert P G.
  assert (H1 : inverse_first_fundamental_form P G 4%Z (Some 3%Z) (@IsDD V DD_VOLUME)
               = Raise (ImportError
                   "cannot import name 'RefDiffOperator' from 'grudge.symbolic.operators'"))
    by reflexivity.
  assert (H2 : second_fundamental_form convert P G 4%Z (Some 3%Z)
                 (@IsDD V DD_VOLUME)
               = Raise (ImportError
                   "cannot import name 'RefDiffOperator' from 'grudge.symbolic.operators'"))
    by reflexivity.
  repeat split; try assumption.
  - rewrite H1. discriminate.
  - rewrite H2. discriminate.
Qed.

(** C8, first part: [summed_curvature] is the float zero when the ambient
    dimension is 1 and when the surface fills its ambient space. *)
Theorem summed_curvature_zero_cases :
  forall (V : Type) (convert : option V -> result DOFDesc)
         (P : PymbolicOps) (G : GeometricAlgebra)
         (ambient_dim : Z) (dim : option Z) (dd : DDLike V),
    ambient_dim = 1%Z \/ default_dim dim (ambient_dim - 1) = ambient_dim ->
    summed_curvature convert P G ambient_dim dim dd = Ok (Float 0).
Proof.
  intros V convert P G ambient_dim dim dd H.
  unfold summed_curvature.
  destruct (Z.eqb_spec ambient_dim 1) as [E1 | N1]; [reflexivity |].
  destruct H as [H | H]; [contradiction |].
  rewrite H, Z.eqb_refl. reflexivity.
Qed.

Lemma summed_curvature_zero_cases_witness :
  summed_curvature example_convert example_pymbolic example_ga 3 (Some 3%Z)
    (Other "vol"%string)
  = Ok (Float 0).
Proof.
  apply (@summed_curvature_zero_cases string example_convert example_pymbolic
           example_ga 3%Z (Some 3%Z) (Other "vol"%string)).
  right. reflexivity.
Defined.

(* ===================================================================== *)
(** ** Quadrature interpolation matrices *)
(* ===================================================================== *)

Lemma rbind_assoc {A B C} (m : result A) (f : A -> result B)
  (g : B -> result C) :
  rbind (rbind m f) g = rbind m (fun x => rbind (f x) g).
Proof. destruct m; reflexivity. Qed.

Lemma rmap_app {A B} (f : A -> result B) (l1 l2 : list A) :
  rmap f (l1 ++ l2)
  = (a <- rmap f l1 ;; b <- rmap f l2 ;; Ok (a ++ b))%py.
Proof.
  induction l1 as [| x l1 IH]; simpl.
  - destruct (rmap f l2); reflexivity.
  - destruct (f x) as [y | e]; simpl; [| reflexivity].
    rewrite IH. destruct (rmap f l1) as [a | e]; simpl; [| reflexivity].
    destruct (rmap f l2); reflexivity.
Qed.

Lemma rmap_ext {A B} (f g : A -> result B) (l : list A) :
  (forall x, f x = g x) -> rmap f l = rmap g l.
Proof.
  intro H. induction l as [| x l IH]; simpl; [reflexivity |].
  rewrite H, IH. reflexivity.
Qed.

Lemma rmap_map {A B C} (f : B -> result C) (g : A -> B) (l : list A) :
  rmap f (map g l) = rmap (fun x => f (g x)) l.
Proof.
  induction l as [| x l IH]; simpl; [reflexivity |].
  rewrite IH. reflexivity.
Qed.

Lemma vandermonde_concat (fs : list (Point -> R)) (arrays : list Nodes) :
  vandermonde fs (concat arrays) = concat (map (vandermonde fs) arrays).
Proof.
  unfold vandermonde. induction arrays as [| a l IH]; simpl; [reflexivity |].
  rewrite map_app, IH. reflexivity.
Qed.

(** The product of stacked blocks with a matrix is the stack of the
    products, and it fails where the first failing block fails. *)
Lemma matmul_concat (Ms : list Matrix) (B : Matrix) :
  matmul (concat Ms) B
  = (blocks <- rmap (fun M => matmul M B) Ms ;; Ok (concat blocks))%py.
Proof.
  unfold matmul. induction Ms as [| M Ms IH]; simpl; [reflexivity |].
  rewrite rmap_app, IH.
  destruct (rmap (row_matmul B) M) as [m | e]; simpl; [| reflexivity].
  rewrite !rbind_assoc. reflexivity.
Qed.

Section InterpolationMatrices.

Variable linalg_inv : Matrix -> result Matrix.

Lemma get_volume_vand_is_interpolation (base_grp quad_grp : ElementGroup) :
  get_volume_vand linalg_inv base_grp quad_grp
  = interpolation_matrix linalg_inv (basis_functions base_grp)
      (unit_nodes base_grp) (unit_nodes quad_grp).
Proof. reflexivity. Qed.

Lemma concatenate_nodes_ok (arrays : list Nodes) :
  arrays <> [] -> concatenate_nodes arrays = Ok (concat arrays).
Proof. destruct arrays; [contradiction | reflexivity]. Qed.

Lemma get_surface_vand_is_stack (base_grp quad_face_grp : ElementGroup) :
  nelements quad_face_grp = (nfaces base_grp * nelements base_grp)%nat ->
  shape_faces base_grp <> [] ->
  get_surface_vand linalg_inv base_grp quad_face_grp
  = stacked_face_blocks linalg_inv base_grp (quadrature_rule quad_face_grp).
Proof.
  intros Hn Hfaces.
  unfold get_surface_vand, stacked_face_blocks, interpolation_matrix.
  rewrite Hn, Nat.eqb_refl. cbn [negb].
  destruct (linalg_inv (vandermonde (basis_functions base_grp)
                          (unit_nodes base_grp))) as [vdm_inv | e] eqn:Hinv.
  - cbn [rbind].
    rewrite concatenate_nodes_ok.
    + cbn [rbind].
      rewrite vandermonde_concat, matmul_concat, !rmap_map. reflexivity.
    + destruct (shape_faces base_grp); [contradiction | discriminate].
  - cbn [rbind].
    destruct (shape_faces base_grp) as [| face faces]; [contradiction |].
    reflexivity.
Qed.

(** A call through the memo dictionary yields what the body yields on
    the groups of the call, when what the dictionary holds under their
    keys was stored for them. *)
Lemma keyed_memoize_in_result
  (compute : ElementGroup -> ElementGroup -> result Matrix)
  (c : Cache) (g1 g2 : ElementGroup) :
  stored_for compute c g1 g2 ->
  snd (keyed_memoize_in compute c g1 g2) = compute g1 g2.
Proof.
  intro Hc. unfold keyed_memoize_in.
  destruct (cache_lookup _ c) as [m | ] eqn:Hl.
  - simpl. symmetry. now apply Hc.
  - destruct (compute g1 g2); reflexivity.
Qed.

(** The call keeps the dictionary in that state. *)
Lemma keyed_memoize_in_stored_for
  (compute : ElementGroup -> ElementGroup -> result Matrix)
  (c : Cache) (g1 g2 : ElementGroup) :
  stored_for compute c g1 g2 ->
  stored_for compute (fst (keyed_memoize_in compute c g1 g2)) g1 g2.
Proof.
  intro Hc. unfold keyed_memoize_in.
  destruct (cache_lookup _ c) as [m | ] eqn:Hl; [exact Hc |].
  destruct (compute g1 g2) as [m | e] eqn:Hcomp; [| exact Hc].
  intros m' Hlook. cbn [fst cache_lookup snd] in Hlook.
  rewrite !Nat.eqb_refl in Hlook. cbn [andb] in Hlook.
  inversion Hlook; subst m'. exact Hcomp.
Qed.

Lemma rmap_length {A B} (f : A -> result B) (l : list A) (ys : list B) :
  rmap f l = Ok ys -> List.length ys = List.length l.
Proof.
  revert ys. induction l as [| x l IH]; intros ys H; simpl in H.
  - inversion H. reflexivity.
  - destruct (f x) as [y | e]; [| discriminate]. cbn [rbind] in H.
    destruct (rmap f l) as [ys' | e]; [| discriminate].
    cbn [rbind] in H. inversion H; subst ys. simpl. now rewrite (IH ys').
Qed.

(** A product has the rows of its left factor. *)
Lemma matmul_length (A B C : Matrix) :
  matmul A B = Ok C -> List.length C = List.length A.
Proof. apply rmap_length. Qed.

Lemma vandermonde_length (fs : list (Point -> R)) (nodes : Nodes) :
  List.length (vandermonde fs nodes) = List.length nodes.
Proof. unfold vandermonde. apply length_map. Qed.

Lemma interpolation_matrix_length (basis : list (Point -> R))
  (from_nodes to_nodes : Nodes) (m : Matrix) :
  interpolation_matrix linalg_inv basis from_nodes to_nodes = Ok m ->
  List.length m = List.length to_nodes.
Proof.
  unfold interpolation_matrix. intro H.
  destruct (linalg_inv _) as [vi | e]; [| discriminate]. cbn [rbind] in H.
  rewrite (@matmul_length _ _ _ H). apply vandermonde_length.
Qed.

Lemma get_surface_vand_length (base_grp quad_face_grp : ElementGroup)
  (m : Matrix) :
  get_surface_vand linalg_inv base_grp quad_face_grp = Ok m ->
  List.length m
  = List.length
      (concat (map (fun face =>
                      map_to_volume face
                        (quad_nodes (quadrature_rule quad_face_grp)))
                   (shape_faces base_grp))).
Proof.
  unfold get_surface_vand. intro H.
  destruct (negb _); [discriminate |].
  destruct (linalg_inv _) as [vi | e]; [| discriminate]. cbn [rbind] in H.
  unfold concatenate_nodes in H.
  destruct (map _ (shape_faces base_grp)) as [| n ns] eqn:E;
    [discriminate |].
  cbn [rbind] in H.
  rewrite (@matmul_length _ _ _ H). apply vandermonde_length.
Qed.

End InterpolationMatrices.

(** C3. Let the memo dictionaries hold, under the keys of the groups of
    the call, nothing or what was stored for these groups (they may hold
    anything under other keys). Then the volume quadrature interpolation
    matrix is the Vandermonde matrix of the base group's basis at the
    quadrature group's nodes times the inverse of the Vandermonde matrix
    at the base group's nodes, and it has one row per quadrature node.
    The surface matrix, for a face group that holds [nfaces] faces per
    element (the assertion of the source) of a reference cell with at
    least one face, is the row-wise stack of one such matrix per
    reference-cell face, each taken at the nodes of the one face
    quadrature rule mapped to that face, with one row per mapped node.
    Both sides fail alike when the inversion or a product fails, and
    each call leaves its dictionary in the state assumed of it, so that
    the same holds of the calls that follow. *)
Theorem quadrature_interpolation_matrices :
  forall (linalg_inv : Matrix -> result Matrix) (actx : ArrayContext)
         (base_grp quad_grp quad_face_grp : ElementGroup),
    stored_for (get_volume_vand linalg_inv) (volume_vand_cache actx)
      base_grp quad_grp ->
    stored_for (get_surface_vand linalg_inv) (surface_vand_cache actx)
      base_grp quad_face_grp ->
    nelements quad_face_grp = (nfaces base_grp * nelements base_grp)%nat ->
    shape_faces base_grp <> [] ->
    (snd (volume_quadrature_interpolation_matrix linalg_inv actx
            base_grp quad_grp)
     = interpolation_matrix linalg_inv (basis_functions base_grp)
         (unit_nodes base_grp) (unit_nodes quad_grp)
     /\ (forall m,
           snd (volume_quadrature_interpolation_matrix linalg_inv actx
                  base_grp quad_grp) = Ok m ->
           List.length m = nunit_dofs quad_grp)
     /\ stored_for (get_volume_vand linalg_inv)
          (volume_vand_cache
             (fst (volume_quadrature_interpolation_matrix linalg_inv actx
                     base_grp quad_grp)))
          base_grp quad_grp)
    /\ (snd (surface_quadrature_interpolation_matrix linalg_inv actx
               base_grp quad_face_grp)
        = stacked_face_blocks linalg_inv base_grp
            (quadrature_rule quad_face_grp)
        /\ (forall m,
              snd (surface_quadrature_interpolation_matrix linalg_inv actx
                     base_grp quad_face_grp) = Ok m ->
              List.length m
              = List.length
                  (concat
                     (map (fun face =>
                             map_to_volume face
                               (quad_nodes (quadrature_rule quad_face_grp)))
                          (shape_faces base_grp))))
        /\ stored_for (get_surface_vand linalg_inv)
             (surface_vand_cache
                (fst (surface_quadrature_interpolation_matrix linalg_inv
                        actx base_grp quad_face_grp)))
             base_grp quad_face_grp).
Proof.
  intros linalg_inv actx b q qf Hv Hs Hn Hf. split.
  - unfold volume_quadrature_interpolation_matrix.
    pose proof (keyed_memoize_in_result Hv) as H.
    pose proof (keyed_memoize_in_stored_for Hv) as H'.
    destruct (keyed_memoize_in _ _ b q) as [c r]. cbn [fst snd] in *.
    cbn [volume_vand_cache]. rewrite H.
    split; [apply get_volume_vand_is_interpolation | split; [| exact H']].
    intros m Hm. rewrite get_volume_vand_is_interpolation in Hm.
    exact (interpolation_matrix_length _ _ _ _ Hm).
  - unfold surface_quadrature_interpolation_matrix.
    pose proof (keyed_memoize_in_result Hs) as H.
    pose proof (keyed_memoize_in_stored_for Hs) as H'.
    destruct (keyed_memoize_in _ _ b qf) as [c r]. cbn [fst snd] in *.
    cbn [surface_vand_cache]. rewrite H.
    split; [now apply get_surface_vand_is_stack | split; [| exact H']].
    intros m Hm. exact (get_surface_vand_length _ _ _ Hm).
Qed.

(** The two matrices of the groups of order one. *)
Lemma example_p1_volume_vand :
  get_volume_vand example_linalg_inv2 example_p1_group example_p1_quad_group
  = Ok [[1; 0]; [1 / 2; 1 / 2]; [0; 1]].
Proof.
  unfold get_volume_vand, example_linalg_inv2. simpl.
  destruct (Req_dec_T (1 * 1 - -1 * 1) 0) as [E | _]; [exfalso; lra |].
  unfold matmul, row_matmul, column, ncols, dot, rsum; simpl.
  repeat match goal with
         | |- Ok _ = Ok _ => apply f_equal
         | |- _ :: _ = _ :: _ => apply f_equal2
         | |- @eq R _ _ => lra
         | |- [] = [] => reflexivity
         end.
Qed.

Lemma example_p1_surface_vand :
  get_surface_vand example_linalg_inv2 example_p1_group
    example_face_quad_group
  = Ok [[1; 0]; [0; 1]].
Proof.
  unfold get_surface_vand, example_linalg_inv2. simpl.
  destruct (Req_dec_T (1 * 1 - -1 * 1) 0) as [E | _]; [exfalso; lra |].
  unfold matmul, row_matmul, column, ncols, dot, rsum; simpl.
  repeat match goal with
         | |- Ok _ = Ok _ => apply f_equal
         | |- _ :: _ = _ :: _ => apply f_equal2
         | |- @eq R _ _ => lra
         | |- [] = [] => reflexivity
         end.
Qed.

Lemma quadrature_interpolation_matrices_witness :
  (snd (volume_quadrature_interpolation_matrix example_linalg_inv2
          example_p1_actx example_p1_group example_p1_quad_group)
   = interpolation_matrix example_linalg_inv2
       (basis_functions example_p1_group) (unit_nodes example_p1_group)
       (unit_nodes example_p1_quad_group)
   /\ (forall m,
         snd (volume_quadrature_interpolation_matrix example_linalg_inv2
                example_p1_actx example_p1_group example_p1_quad_group)
         = Ok m ->
         List.length m = nunit_dofs example_p1_quad_group)
   /\ stored_for (get_volume_vand example_linalg_inv2)
        (volume_vand_cache
           (fst (volume_quadrature_interpolation_matrix example_linalg_inv2
                   example_p1_actx example_p1_group example_p1_quad_group)))
        example_p1_group example_p1_quad_group)
  /\ (snd (surface_quadrature_interpolation_matrix example_linalg_inv2
             example_p1_actx example_p1_group example_face_quad_group)
      = stacked_face_blocks example_linalg_inv2 example_p1_group
          (quadrature_rule example_face_quad_group)
      /\ (forall m,
            snd (surface_quadrature_interpolation_matrix example_linalg_inv2
                   example_p1_actx example_p1_group example_face_quad_group)
            = Ok m ->
            List.length m
            = List.length
                (concat
                   (map (fun face =>
                           map_to_volume face
                             (quad_nodes
                                (quadrature_rule example_face_quad_group)))
                        (shape_faces example_p1_group))))
      /\ stored_for (get_surface_vand example_linalg_inv2)
           (surface_vand_cache
              (fst (surface_quadrature_interpolation_matrix
                      example_linalg_inv2 example_p1_actx example_p1_group
                      example_face_quad_group)))
           example_p1_group example_face_quad_group).
Proof.
  apply (@quadrature_interpolation_matrices example_linalg_inv2
           example_p1_actx example_p1_group example_p1_quad_group
           example_face_quad_group).
  - intros m H. cbn in H. inversion H; subst m.
    exact example_p1_volume_vand.
  - intros m H. cbn in H. inversion H; subst m.
    exact example_p1_surface_vand.
  - reflexivity.
  - discriminate.
Defined.

(* ===================================================================== *)
(** ** Characteristic length scales *)
(* ===================================================================== *)

(** *** The non-geometric factor *)

Lemma fold_left_Rmin_le_init (l : list R) (a : R) : fold_left Rmin l a <= a.
Proof.
  revert a. induction l as [| x l IH]; intro a; simpl.
  - lra.
  - eapply Rle_trans; [apply IH | apply Rmin_l].
Qed.

Lemma fold_left_Rmin_le (l : list R) (a x : R) :
  In x l -> fold_left Rmin l a <= x.
Proof.
  revert a. induction l as [| y l IH]; intros a H; simpl; [destruct H |].
  destruct H as [-> | H].
  - eapply Rle_trans; [apply fold_left_Rmin_le_init | apply Rmin_r].
  - now apply IH.
Qed.

Lemma fold_left_Rmin_in (l : list R) (a : R) :
  fold_left Rmin l a = a \/ In (fold_left Rmin l a) l.
Proof.
  revert a. induction l as [| y l IH]; intro a; simpl; [now left |].
  destruct (IH (Rmin a y)) as [H | H].
  - rewrite H. unfold Rmin. destruct (Rle_dec a y); [now left | right; now left].
  - right. now right.
Qed.

Lemma py_min_spec (x : R) (xs : list R) :
  exists m, py_min (x :: xs) = Ok m /\ In m (x :: xs)
            /\ forall y, In y (x :: xs) -> m <= y.
Proof.
  exists (fold_left Rmin xs x). split; [reflexivity |]. split.
  - destruct (fold_left_Rmin_in xs x) as [H | H]; [left; now rewrite H | now right].
  - intros y [<- | H]; [apply fold_left_Rmin_le_init | now apply fold_left_Rmin_le].
Qed.

Lemma rmap_total {A B} (f : A -> result B) (l : list A) :
  (forall x, In x l -> exists y, f x = Ok y) ->
  exists ys, rmap f l = Ok ys /\ Forall2 (fun x y => f x = Ok y) l ys.
Proof.
  induction l as [| x l IH]; intro H; simpl.
  - exists []. split; [reflexivity | constructor].
  - destruct (H x (or_introl eq_refl)) as [y Hy].
    destruct IH as [ys [Hys HF]]; [intros z Hz; apply H; now right |].
    exists (y :: ys). rewrite Hy, Hys. split; [reflexivity |].
    constructor; assumption.
Qed.

Lemma in_distinct_pairs (n i j : nat) :
  In (i, j) (distinct_pairs n) <-> (i < n /\ j < n /\ i <> j)%nat.
Proof.
  unfold distinct_pairs. rewrite in_flat_map. split.
  - intros [k [Hk Hin]]. apply in_seq in Hk.
    apply in_map_iff in Hin. destruct Hin as [l [Heq Hl]].
    inversion Heq; subst k l. apply filter_In in Hl. destruct Hl as [Hl Hne].
    apply in_seq in Hl. apply negb_true_iff, Nat.eqb_neq in Hne. lia.
  - intros [Hi [Hj Hne]]. exists i. split; [apply in_seq; lia |].
    apply in_map_iff. exists j. split; [reflexivity |].
    apply filter_In. split; [apply in_seq; lia |].
    now apply negb_true_iff, Nat.eqb_neq.
Qed.

Lemma getitem_some {A} (l : list A) (i : nat) (x : A) :
  getitem l i = Ok x <-> nth_error l i = Some x.
Proof.
  unfold getitem. destruct (nth_error l i); split; intro H;
    inversion H; reflexivity.
Qed.

Lemma node_distance_ok (nodes : list Point) (i j : nat) :
  (i < List.length nodes)%nat -> (j < List.length nodes)%nat ->
  exists p q, nth_error nodes i = Some p /\ nth_error nodes j = Some q
              /\ node_distance nodes (i, j) = Ok (norm (point_sub p q)).
Proof.
  intros Hi Hj.
  destruct (nth_error nodes i) as [p |] eqn:Ep;
    [| apply nth_error_None in Ep; lia].
  destruct (nth_error nodes j) as [q |] eqn:Eq;
    [| apply nth_error_None in Eq; lia].
  exists p, q. repeat split.
  unfold node_distance, getitem. simpl. rewrite Ep, Eq. reflexivity.
Qed.

Lemma Forall2_in_r {A B} (Q : A -> B -> Prop) (l : list A) (l' : list B)
  (y : B) :
  Forall2 Q l l' -> In y l' -> exists x, In x l /\ Q x y.
Proof.
  induction 1 as [| a b l l' Hab _ IH]; intro Hin; [destruct Hin |].
  destruct Hin as [<- | Hin].
  - exists a. split; [now left | assumption].
  - destruct (IH Hin) as [x [Hx HQ]]. exists x. split; [now right | assumption].
Qed.

Lemma Forall2_in_l {A B} (Q : A -> B -> Prop) (l : list A) (l' : list B)
  (x : A) :
  Forall2 Q l l' -> In x l -> exists y, In y l' /\ Q x y.
Proof.
  induction 1 as [| a b l l' Hab _ IH]; intro Hin; [destruct Hin |].
  destruct Hin as [<- | Hin].
  - exists b. split; [now left | assumption].
  - destruct (IH Hin) as [y [Hy HQ]]. exists y. split; [now right | assumption].
Qed.

Lemma min_distance_of_nodes (nodes : list Point) :
  (2 <= List.length nodes)%nat ->
  exists c,
    (ds <- rmap (node_distance nodes) (distinct_pairs (List.length nodes)) ;;
     py_min ds)%py = Ok c
    /\ is_min_distance nodes c.
Proof.
  intro Hlen.
  destruct (@rmap_total _ _ (node_distance nodes)
              (distinct_pairs (List.length nodes))) as [ds [Hds HF]].
  { intros [i j] Hin. apply in_distinct_pairs in Hin.
    destruct Hin as [Hi [Hj _]].
    destruct (node_distance_ok nodes Hi Hj) as [p [q [_ [_ H]]]].
    eexists; exact H. }
  rewrite Hds. simpl rbind.
  assert (Hin01 : In (0%nat, 1%nat) (distinct_pairs (List.length nodes)))
    by (apply in_distinct_pairs; lia).
  destruct ds as [| d ds].
  { inversion HF as [Hnil |]. rewrite <- Hnil in Hin01. destruct Hin01. }
  destruct (py_min_spec d ds) as [m [Hm [Hmin Hle]]].
  exists m. split; [exact Hm |]. split.
  - destruct (@Forall2_in_r _ _ _ _ _ m HF Hmin) as [[i j] [Hij Hd]].
    apply in_distinct_pairs in Hij. destruct Hij as [Hi [Hj Hne]].
    destruct (node_distance_ok nodes Hi Hj) as [p [q [Hp [Hq H]]]].
    exists i, j, p, q. repeat split; try assumption.
    rewrite H in Hd. now inversion Hd.
  - intros i j p q Hne Hp Hq.
    assert (Hi : (i < List.length nodes)%nat)
      by (apply nth_error_Some; rewrite Hp; discriminate).
    assert (Hj : (j < List.length nodes)%nat)
      by (apply nth_error_Some; rewrite Hq; discriminate).
    assert (Hin : In (i, j) (distinct_pairs (List.length nodes)))
      by (apply in_distinct_pairs; auto).
    destruct (@Forall2_in_l _ _ _ _ _ (i, j) HF Hin) as [y [Hy Hd]].
    unfold node_distance, getitem in Hd. simpl in Hd.
    rewrite Hp, Hq in Hd. simpl in Hd. inversion Hd; subst y.
    now apply Hle.
Qed.

Lemma group_min_delta_r_spec (g : ElementGroup) :
  wf_simplex_group g ->
  exists c, group_min_delta_r g = Ok c /\ non_geometric_factor_of g c.
Proof.
  intros [_ [Hdim [H0 Hn]]].
  unfold group_min_delta_r, zip_star_unit_nodes.
  apply Nat.eqb_neq in Hdim. rewrite Hdim.
  destruct (Nat.eqb_spec (order g) 0) as [Ho | Ho].
  - destruct (H0 Ho) as [Hone Hv].
    rewrite Hone. simpl negb. cbv iota.
    unfold nunit_dofs in Hone.
    destruct (unit_nodes g) as [| n0 [| n1 rest]] eqn:Hnodes;
      try discriminate.
    destruct (vertex_unit_coordinates g) as [| v0 vs] eqn:Hverts;
      [contradiction |].
    simpl. eexists. split; [reflexivity |]. split.
    + intro Hne. contradiction.
    + intros _. exists n0, v0, vs. repeat split; assumption.
  - destruct (min_distance_of_nodes (unit_nodes g) (Hn Ho)) as [c [Hc Hmin]].
    exists c. split; [exact Hc |]. split.
    + intros _. exact Hmin.
    + intro Hz. contradiction.
Qed.

Lemma non_geometric_factors_spec (gs : list ElementGroup) :
  Forall wf_simplex_group gs ->
  exists cngs, rmap group_min_delta_r gs = Ok cngs
               /\ Forall2 non_geometric_factor_of gs cngs.
Proof.
  induction 1 as [| g gs Hg _ IH]; simpl.
  - exists []. split; [reflexivity | constructor].
  - destruct (group_min_delta_r_spec Hg) as [c [Hc Hspec]].
    destruct IH as [cs [Hcs HF]].
    exists (c :: cs). rewrite Hc, Hcs. split; [reflexivity |].
    constructor; assumption.
Qed.

(** *** Reshaping and summing the face integrals *)

Lemma rsum_repeat (x : R) (n : nat) : rsum (repeat x n) = INR n * x.
Proof.
  induction n as [| n IH].
  - simpl. ring.
  - rewrite S_INR. simpl repeat. unfold rsum in *. simpl. rewrite IH. ring.
Qed.

Lemma rsum_map_scale {A} (a : R) (F : A -> R) (l : list A) :
  rsum (map (fun x => a * F x) l) = a * rsum (map F l).
Proof.
  unfold rsum. induction l as [| x l IH]; simpl; [ring | rewrite IH; ring].
Qed.

Lemma firstn_app_exact {A} (a b : list A) (n : nat) :
  List.length a = n -> firstn n (a ++ b) = a.
Proof.
  intros <-. rewrite firstn_app, Nat.sub_diag, firstn_all. simpl.
  apply app_nil_r.
Qed.

Lemma skipn_app_exact {A} (a b : list A) (n : nat) :
  List.length a = n -> skipn n (a ++ b) = b.
Proof.
  intros <-. rewrite skipn_app, Nat.sub_diag, skipn_all. reflexivity.
Qed.

Lemma length_concat_map_const {A B} (F : A -> list B) (n : nat) (xs : list A) :
  (forall x, List.length (F x) = n) ->
  List.length (concat (map F xs)) = (List.length xs * n)%nat.
Proof.
  intro H. induction xs as [| x xs IH]; simpl; [reflexivity |].
  rewrite length_app, H, IH. reflexivity.
Qed.

Lemma chunks_concat_map {A B} (F : A -> list B) (n : nat) (xs : list A) :
  (forall x, List.length (F x) = n) ->
  chunks n (List.length xs) (concat (map F xs)) = map F xs.
Proof.
  intro H. induction xs as [| x xs IH]; simpl; [reflexivity |].
  rewrite firstn_app_exact, skipn_app_exact by apply H.
  rewrite IH. reflexivity.
Qed.

Lemma concat_flat_map {A B} (G : A -> list (list B)) (l : list A) :
  concat (flat_map G l) = concat (map (fun x => concat (G x)) l).
Proof.
  induction l as [| x l IH]; simpl; [reflexivity |].
  rewrite concat_app, IH. reflexivity.
Qed.

Lemma flat_map_as_concat {A B} (G : A -> list B) (l : list A) :
  flat_map G l = concat (map G l).
Proof.
  induction l as [| x l IH]; simpl; [reflexivity | now rewrite IH].
Qed.

Lemma nth_map_seq {A} (g : nat -> A) (n e : nat) (d : A) :
  (e < n)%nat -> nth e (map g (seq 0 n)) d = g e.
Proof.
  intro H. rewrite (nth_indep _ d (g 0%nat)) by (rewrite length_map, length_seq; exact H).
  rewrite (map_nth g (seq 0 n) 0%nat e), seq_nth by exact H. reflexivity.
Qed.

Lemma map2_map_map {A B C D} (f : B -> C -> D) (g : A -> B) (h : A -> C)
  (l : list A) :
  map2 f (map g l) (map h l) = map (fun x => f (g x) (h x)) l.
Proof.
  induction l as [| x l IH]; simpl; [reflexivity | now rewrite IH].
Qed.

Lemma map_repeat_R (f : R -> R) (x : R) (n : nat) :
  map f (repeat x n) = repeat (f x) n.
Proof. induction n as [| n IH]; simpl; [reflexivity | now rewrite IH]. Qed.

Lemma group_surface_areas_spec (vg ag : ElementGroup) (A : nat -> nat -> R) :
  nunit_dofs ag <> O ->
  group_surface_areas vg ag
    (flat_map (fun f => map (fun e => repeat (A f e) (nunit_dofs ag))
                            (seq 0 (nelements vg)))
              (seq 0 (nfaces vg)))
  = Ok (map (fun e => rsum (map (fun f => A f e) (seq 0 (nfaces vg))))
            (seq 0 (nelements vg))).
Proof.
  intro Hnd. unfold group_surface_areas, reshape3.
  set (nd := nunit_dofs ag) in *.
  set (ne := nelements vg). set (nf := nfaces vg).
  set (G := fun f : nat => map (fun e => repeat (A f e) nd) (seq 0 ne)).
  set (H := fun f : nat => concat (G f)).
  assert (HlenG : forall f, List.length (H f) = (ne * nd)%nat).
  { intro f. unfold H, G.
    rewrite (@length_concat_map_const _ _ (fun e => repeat (A f e) nd) nd)
      by (intro; apply repeat_length).
    now rewrite length_seq. }
  assert (Hflat : concat (flat_map G (seq 0 nf)) = concat (map H (seq 0 nf)))
    by apply concat_flat_map.
  rewrite Hflat.
  assert (Hlen : List.length (concat (map H (seq 0 nf))) = (nf * ne * nd)%nat).
  { rewrite (length_concat_map_const H (seq 0 nf) HlenG), length_seq. lia. }
  rewrite Hlen, Nat.eqb_refl. cbn [rbind].
  assert (Hc1 : chunks (ne * nd) nf (concat (map H (seq 0 nf)))
                = map H (seq 0 nf)).
  { pose proof (@chunks_concat_map _ _ H (ne * nd)%nat (seq 0 nf) HlenG) as Hc.
    now rewrite length_seq in Hc. }
  rewrite Hc1, map_map.
  assert (Hc2 : map (fun f => chunks nd ne (H f)) (seq 0 nf)
                = map G (seq 0 nf)).
  { apply map_ext. intro f. unfold H, G.
    pose proof (@chunks_concat_map _ _ (fun e => repeat (A f e) nd) nd
                  (seq 0 ne) (fun e => repeat_length (A f e) nd)) as Hc.
    now rewrite length_seq in Hc. }
  rewrite Hc2. f_equal.
  unfold einsum_fej_e. rewrite map_map.
  apply map_ext_in. intros e He. apply in_seq in He.
  rewrite map_map.
  assert (Hrow : map (fun f => rsum (nth e (G f) [])) (seq 0 nf)
                 = map (fun f => INR nd * A f e) (seq 0 nf)).
  { apply map_ext. intro f. unfold G.
    rewrite nth_map_seq by lia. apply rsum_repeat. }
  rewrite Hrow, rsum_map_scale.
  field. apply not_0_INR. exact Hnd.
Qed.

(** *** The geometric factor *)

Lemma outcome_ebind {A B} (m : Eff A) (f : A -> Eff B) :
  outcome (ebind m f) = rbind (outcome m) (fun a => outcome (f a)).
Proof.
  destruct m as [t [a | e]]; simpl; [destruct (f a) |]; reflexivity.
Qed.

Lemma imap_ext {A B} (F G : nat -> A -> B) (i : nat) (l : list A) :
  (forall k x, In x l -> F k x = G k x) -> imap F i l = imap G i l.
Proof.
  revert i. induction l as [| x l IH]; intros i H; simpl; [reflexivity |].
  rewrite H by now left. rewrite IH; [reflexivity |].
  intros k y Hy. apply H. now right.
Qed.

Lemma map_imap {A B C} (g : B -> C) (F : nat -> A -> B) (i : nat)
  (l : list A) :
  map g (imap F i l) = imap (fun k x => g (F k x)) i l.
Proof.
  revert i. induction l as [| x l IH]; intro i; simpl; [reflexivity |].
  now rewrite IH.
Qed.

Lemma dof_abs_per_element (gs : list ElementGroup)
  (val : nat -> ElementGroup -> nat -> R) :
  dof_abs (per_element_array gs val)
  = per_element_array gs (fun ig g e => Rabs (val ig g e)).
Proof.
  unfold dof_abs, per_element_array. rewrite map_imap.
  apply imap_ext. intros k g _. rewrite map_map.
  apply map_ext. intro e. apply map_repeat_R.
Qed.

Lemma dof_abs_face_integrals (vgs fgs : list ElementGroup)
  (Area : nat -> nat -> nat -> R) :
  dof_abs (face_integrals vgs fgs Area)
  = face_integrals vgs fgs (fun ig f e => Rabs (Area ig f e)).
Proof.
  unfold dof_abs, face_integrals. rewrite map_imap.
  apply imap_ext. intros k va _.
  rewrite !flat_map_as_concat, concat_map, map_map. f_equal.
  apply map_ext. intro f. rewrite map_map.
  apply map_ext. intro e. apply map_repeat_R.
Qed.

Lemma surface_areas_rmap (vgs fgs : list ElementGroup)
  (A : nat -> nat -> nat -> R) (i : nat) :
  Forall2 (fun _ a => nunit_dofs a <> O) vgs fgs ->
  rmap (fun vaf : ElementGroup * ElementGroup * Matrix =>
          let '(vgrp, afgrp, face_ae_i) := vaf in
          group_surface_areas vgrp afgrp face_ae_i)
       (zip3 vgs fgs
          (imap (fun ig (va : ElementGroup * ElementGroup) =>
                   flat_map (fun f =>
                               map (fun e => repeat (A ig f e)
                                                    (nunit_dofs (snd va)))
                                   (seq 0 (nelements (fst va))))
                            (seq 0 (nfaces (fst va))))
                i (combine vgs fgs)))
  = Ok (imap (fun ig g =>
                map (fun e => rsum (map (fun f => A ig f e)
                                        (seq 0 (nfaces g))))
                    (seq 0 (nelements g)))
             i vgs).
Proof.
  intro HF. revert i.
  induction HF as [| vg ag vgs fgs Hnd _ IH]; intro i; simpl; [reflexivity |].
  rewrite (@group_surface_areas_spec vg ag (A i) Hnd). cbn [rbind].
  rewrite IH. reflexivity.
Qed.

Lemma inradius_rmap (gs : list ElementGroup) (d : nat)
  (Vabs : nat -> nat -> R) (S : nat -> ElementGroup -> nat -> R) (i : nat) :
  rmap (fun cs : Matrix * list R =>
          let (cv_i, sae_i) := cs in
          (m <- einsum_e_ei (map (fun s => 1 / s) sae_i) cv_i ;;
           Ok (map (map (fun x => x * INR d)) m))%py)
       (combine
          (imap (fun ig g =>
                   map (fun e => repeat (Vabs ig e) (nunit_dofs g))
                       (seq 0 (nelements g)))
                i gs)
          (imap (fun ig g => map (fun e => S ig g e) (seq 0 (nelements g)))
                i gs))
  = Ok (imap (fun ig g =>
                map (fun e => repeat (1 / S ig g e * Vabs ig e * INR d)
                                     (nunit_dofs g))
                    (seq 0 (nelements g)))
             i gs).
Proof.
  revert i. induction gs as [| g gs IH]; intro i; simpl; [reflexivity |].
  unfold einsum_e_ei at 1.
  rewrite !length_map, Nat.eqb_refl. cbn [rbind].
  rewrite IH. cbn [rbind]. do 2 f_equal.
  rewrite map_map, map2_map_map, map_map.
  apply map_ext. intro e. rewrite !map_repeat_R. reflexivity.
Qed.

Lemma scale_per_element (gs : list ElementGroup) (cngs : list R)
  (val : nat -> ElementGroup -> nat -> R) (i : nat) :
  map2 (fun cng geo_facts => map (map (Rmult cng)) geo_facts) cngs
       (imap (fun ig g =>
                map (fun e => repeat (val ig g e) (nunit_dofs g))
                    (seq 0 (nelements g)))
             i gs)
  = imap (fun ig (gc : ElementGroup * R) =>
            map (fun e => repeat (snd gc * val ig (fst gc) e)
                                 (nunit_dofs (fst gc)))
                (seq 0 (nelements (fst gc))))
         i (combine gs cngs).
Proof.
  revert cngs i. induction gs as [| g gs IH]; intros [| c cngs] i; simpl;
    try reflexivity.
  rewrite IH. f_equal. rewrite map_map.
  apply map_ext. intro e. apply map_repeat_R.
Qed.

Lemma no_non_simplex (gs : list ElementGroup) :
  Forall wf_simplex_group gs ->
  existsb (fun grp => negb (is_simplex grp)) gs = false.
Proof.
  induction 1 as [| g gs [Hs _] _ IH]; simpl; [reflexivity |].
  rewrite Hs, IH. reflexivity.
Qed.

Section LengthScales.

Variable elementwise_integral :
  DiscretizationCollection -> DOFDesc -> DOFArray -> result DOFArray.
Variable dcoll : DiscretizationCollection.
Variables volm_discr face_discr : Discretization.
Variable Vol : nat -> nat -> R.
Variable Area : nat -> nat -> nat -> R.

Hypothesis volume_discr :
  discr_from_dd dcoll DD_VOLUME = Ok volm_discr.
Hypothesis simplex_groups : Forall wf_simplex_group (groups volm_discr).
Hypothesis volume_integral :
  elementwise_integral dcoll DD_VOLUME (ones volm_discr)
  = Ok (volume_integrals (groups volm_discr) Vol).
Hypothesis faces :
  dim dcoll <> 1%nat ->
  discr_from_dd dcoll dd_all_faces = Ok face_discr
  /\ elementwise_integral dcoll dd_all_faces (ones face_discr)
     = Ok (face_integrals (groups volm_discr) (groups face_discr) Area)
  /\ Forall2 (fun _ a => nunit_dofs a <> O)
       (groups volm_discr) (groups face_discr).

Lemma dt_geometric_factors_spec :
  outcome (dt_geometric_factors elementwise_integral dcoll None)
  = Ok (per_element_array (groups volm_discr)
          (geometric_factor (dim dcoll) Vol Area)).
Proof.
  unfold dt_geometric_factors.
  rewrite outcome_ebind. cbn [outcome emit snd rbind].
  rewrite outcome_ebind. cbn [outcome lift snd]. rewrite volume_discr.
  cbn [rbind]. rewrite (no_non_simplex simplex_groups).
  rewrite outcome_ebind.
  assert (Hwarn : outcome
            (if negb (Nat.eqb (discr_dim volm_discr)
                              (discr_ambient_dim volm_discr))
             then emit (EvWarn non_volume_filling_warning) else eret tt)
          = Ok tt) by (destruct (negb _); reflexivity).
  rewrite Hwarn. cbn [rbind].
  rewrite outcome_ebind. cbn [outcome emit snd rbind].
  rewrite outcome_ebind. cbn [outcome lift snd]. rewrite volume_integral.
  cbn [rbind].
  unfold volume_integrals. rewrite dof_abs_per_element.
  unfold geometric_factor.
  destruct (Nat.eqb_spec (dim dcoll) 1) as [Hd | Hd].
  - reflexivity.
  - destruct (faces Hd) as [Hfd [Hfi HF]].
    rewrite outcome_ebind. cbn [outcome emit snd rbind].
    rewrite outcome_ebind. cbn [outcome lift snd].
    change (mkDOFDesc FACE_RESTR_ALL (discretization_tag DD_VOLUME))
      with dd_all_faces.
    rewrite Hfd. cbn [rbind].
    rewrite outcome_ebind. cbn [outcome emit snd rbind].
    rewrite outcome_ebind. cbn [outcome lift snd]. rewrite Hfi.
    cbn [rbind].
    rewrite dof_abs_face_integrals. unfold face_integrals.
    rewrite outcome_ebind. cbn [outcome lift snd].
    rewrite (surface_areas_rmap _ 0 HF). cbn [rbind outcome lift snd].
    unfold per_element_array.
    pose proof (inradius_rmap (groups volm_discr) (dim dcoll)
                  (fun ig e => Rabs (Vol ig e))
                  (fun ig g e => rsum (map (fun f => Rabs (Area ig f e))
                                           (seq 0 (nfaces g)))) 0) as Hr.
    cbv beta in Hr. refine (eq_trans Hr _).
    apply (f_equal (@Ok _)). apply imap_ext. intros k g _.
    apply map_ext. intro e. apply (f_equal (fun x => repeat x _)).
    unfold inradius, Rdiv. ring.
Qed.

Lemma characteristic_lengthscales_spec :
  exists cngs,
    Forall2 non_geometric_factor_of (groups volm_discr) cngs
    /\ outcome (characteristic_lengthscales elementwise_integral dcoll)
       = Ok (lengthscale_array (groups volm_discr) cngs
               (geometric_factor (dim dcoll) Vol Area)).
Proof.
  destruct (non_geometric_factors_spec simplex_groups) as [cngs [Hc HF]].
  exists cngs. split; [exact HF |].
  unfold characteristic_lengthscales.
  rewrite outcome_ebind.
  unfold dt_non_geometric_factors at 1.
  rewrite outcome_ebind. cbn [outcome emit snd rbind].
  rewrite outcome_ebind. cbn [outcome lift snd]. rewrite volume_discr.
  cbn [rbind]. rewrite Hc. cbn [rbind].
  rewrite outcome_ebind, dt_geometric_factors_spec. cbn [rbind outcome eret snd].
  unfold per_element_array, lengthscale_array.
  now rewrite scale_per_element.
Qed.

End LengthScales.

(** *** The entries of the length scale array *)

Lemma nth_error_imap {A B} (F : nat -> A -> B) (i k : nat) (l : list A) :
  nth_error (imap F i l) k = option_map (F (i + k)%nat) (nth_error l k).
Proof.
  revert i k. induction l as [| x l IH]; intros i [| k]; simpl;
    try reflexivity.
  - now rewrite Nat.add_0_r.
  - rewrite IH. now replace (S i + k)%nat with (i + S k)%nat by lia.
Qed.

Lemma nth_error_combine {A B} (l : list A) (l' : list B) (k : nat)
  (x : A) (y : B) :
  nth_error l k = Some x -> nth_error l' k = Some y ->
  nth_error (combine l l') k = Some (x, y).
Proof.
  revert l' k. induction l as [| a l IH]; intros [| b l'] [| k] Hx Hy;
    simpl in *; try discriminate.
  - now inversion Hx; inversion Hy.
  - now apply IH.
Qed.

Lemma nth_repeat_lt (x d : R) (n i : nat) :
  (i < n)%nat -> nth i (repeat x n) d = x.
Proof.
  revert i. induction n as [| n IH]; intros [| i] H; simpl;
    try lia; try reflexivity.
  apply IH. lia.
Qed.

Lemma lengthscale_array_entry (gs : list ElementGroup) (cngs : list R)
  (geo : nat -> ElementGroup -> nat -> R)
  (ig : nat) (g : ElementGroup) (c : R) (e i : nat) :
  nth_error gs ig = Some g -> nth_error cngs ig = Some c ->
  (e < nelements g)%nat -> (i < nunit_dofs g)%nat ->
  nth i (nth e (nth ig (lengthscale_array gs cngs geo) []) []) 0
  = c * geo ig g e.
Proof.
  intros Hg Hc He Hi.
  pose proof (nth_error_combine gs cngs ig Hg Hc) as Hgc.
  assert (H1 : nth ig (lengthscale_array gs cngs geo) []
               = map (fun e' => repeat (c * geo ig g e') (nunit_dofs g))
                     (seq 0 (nelements g))).
  { apply nth_error_nth. unfold lengthscale_array.
    rewrite nth_error_imap, Hgc. reflexivity. }
  rewrite H1.
  rewrite nth_map_seq by exact He.
  now apply nth_repeat_lt.
Qed.

(** What [characteristic_lengthscales] returns. On a collection of
    simplex groups, where the integral of one yields the signed volume [Vol] of each element at each
    of its nodes and the signed area [Area] of each face at each of its
    nodes, [characteristic_lengthscales] returns an array that holds, at
    every node of every element, the non-geometric factor of the group
    times the geometric factor of the element. The non-geometric factor is
    the minimum distance between two distinct reference nodes (for order
    0, the distance of the one node to the first reference vertex). The
    geometric factor is the inradius [d |V| / (|F_1| + ... + |F_n|)] when
    the dimension [d] of the collection is not 1, and the cell volume
    [|V|] when it is 1. *)
Theorem characteristic_lengthscales_formula :
  forall (elementwise_integral :
            DiscretizationCollection -> DOFDesc -> DOFArray -> result DOFArray)
         (dcoll : DiscretizationCollection)
         (volm_discr face_discr : Discretization)
         (Vol : nat -> nat -> R) (Area : nat -> nat -> nat -> R),
    discr_from_dd dcoll DD_VOLUME = Ok volm_discr ->
    Forall wf_simplex_group (groups volm_discr) ->
    elementwise_integral dcoll DD_VOLUME (ones volm_discr)
    = Ok (volume_integrals (groups volm_discr) Vol) ->
    (dim dcoll <> 1%nat ->
     discr_from_dd dcoll dd_all_faces = Ok face_discr
     /\ elementwise_integral dcoll dd_all_faces (ones face_discr)
        = Ok (face_integrals (groups volm_discr) (groups face_discr) Area)
     /\ Forall2 (fun _ a => nunit_dofs a <> O)
          (groups volm_discr) (groups face_discr)) ->
    exists (cngs : list R) (arr : DOFArray),
      Forall2 non_geometric_factor_of (groups volm_discr) cngs
      /\ outcome (characteristic_lengthscales elementwise_integral dcoll)
         = Ok arr
      /\ arr = lengthscale_array (groups volm_discr) cngs
                 (geometric_factor (dim dcoll) Vol Area)
      /\ (forall ig g c e i,
            nth_error (groups volm_discr) ig = Some g ->
            nth_error cngs ig = Some c ->
            (e < nelements g)%nat -> (i < nunit_dofs g)%nat ->
            nth i (nth e (nth ig arr []) []) 0
            = c * (if Nat.eqb (dim dcoll) 1 then Rabs (Vol ig e)
                   else inradius (dim dcoll) (Rabs (Vol ig e))
                          (map (fun f => Rabs (Area ig f e))
                               (seq 0 (nfaces g))))).
Proof.
  intros ei dcoll volm faced Vol Area Hd Hwf Hv Hf.
  destruct (@characteristic_lengthscales_spec ei dcoll volm faced Vol Area
              Hd Hwf Hv Hf) as [cngs [HF Hout]].
  exists cngs. eexists. split; [exact HF |]. split; [exact Hout |].
  split; [reflexivity |].
  intros ig g c e i Hg Hc He Hi.
  rewrite (@lengthscale_array_entry _ _ _ ig g c e i Hg Hc He Hi). reflexivity.
Qed.

Lemma example_group_wf : wf_simplex_group example_group.
Proof.
  unfold wf_simplex_group. simpl.
  split; [reflexivity |]. split; [discriminate |].
  split; [discriminate | intros _; unfold nunit_dofs; simpl; lia].
Qed.

Lemma characteristic_lengthscales_formula_witness :
  exists (cngs : list R) (arr : DOFArray),
    Forall2 non_geometric_factor_of [example_group] cngs
    /\ outcome (characteristic_lengthscales example_tri_integral
                  example_tri_dcoll)
       = Ok arr
    /\ arr = lengthscale_array [example_group] cngs
               (geometric_factor 2
                  (fun _ _ => 6)
                  (fun _ f _ => nth f [3; 4; 5] 0))
    /\ (forall ig g c e i,
          nth_error [example_group] ig = Some g ->
          nth_error cngs ig = Some c ->
          (e < nelements g)%nat -> (i < nunit_dofs g)%nat ->
          nth i (nth e (nth ig arr []) []) 0
          = c * (if Nat.eqb 2 1 then Rabs 6
                 else inradius 2 (Rabs 6)
                        (map (fun f => Rabs (nth f [3; 4; 5] 0))
                             (seq 0 (nfaces g))))).
Proof.
  apply (@characteristic_lengthscales_formula example_tri_integral
           example_tri_dcoll
           (mkDiscretization [example_group] 2 2)
           (mkDiscretization [example_tri_face_group] 1 2)
           (fun _ _ => 6) (fun _ f _ => nth f [3; 4; 5] 0)).
  - reflexivity.
  - constructor; [apply example_group_wf | constructor].
  - reflexivity.
  - intros _. split; [reflexivity |]. split; [reflexivity |].
    constructor; [simpl; discriminate | constructor].
Defined.

Lemma sqrt_four_left : sqrt ((-1 - 1) * (-1 - 1) + 0) = 2.
Proof.
  replace ((-1 - 1) * (-1 - 1) + 0) with (2 * 2) by ring.
  apply sqrt_square. lra.
Qed.

Lemma sqrt_four_right : sqrt ((1 - -1) * (1 - -1) + 0) = 2.
Proof.
  replace ((1 - -1) * (1 - -1) + 0) with (2 * 2) by ring.
  apply sqrt_square. lra.
Qed.

(** C2. In one dimension the code departs from the geometric factor that
    its documentation defines, the inradius [d V / (F_1 + ... + F_n)].
    On a segment of length 2 with nodes -1 and 1, whose two faces are
    points of measure 1, the non-geometric factor is 2 and the inradius
    [1 * 2 / (1 + 1)] is 1, so the documented length scale is 2; the code
    returns 4 at both nodes, the non-geometric factor times the length of
    the segment, since [dt_geometric_factors] returns the cell volumes
    when the dimension is 1. *)
Lemma characteristic_lengthscales_1d_is_cell_volume :
  outcome (characteristic_lengthscales example_1d_integral example_1d_dcoll)
  = Ok [[[4; 4]]]
  /\ group_min_delta_r example_segment_p1_group = Ok 2
  /\ 2 * inradius 1 (Rabs 2) [Rabs 1; Rabs 1] = 2
  /\ 4 <> 2 * inradius 1 (Rabs 2) [Rabs 1; Rabs 1].
Proof.
  assert (Hc : group_min_delta_r example_segment_p1_group = Ok 2).
  { change (group_min_delta_r example_segment_p1_group)
      with (Ok (Rmin (sqrt ((-1 - 1) * (-1 - 1) + 0))
                     (sqrt ((1 - -1) * (1 - -1) + 0)))).
    rewrite sqrt_four_left, sqrt_four_right.
    f_equal. apply Rmin_left. lra. }
  assert (Hr : 2 * inradius 1 (Rabs 2) [Rabs 1; Rabs 1] = 2).
  { unfold inradius, rsum. simpl.
    rewrite !Rabs_pos_eq by lra. field. }
  repeat split.
  - change (outcome (characteristic_lengthscales example_1d_integral
                       example_1d_dcoll))
      with (rbind (group_min_delta_r example_segment_p1_group)
              (fun c => Ok [[[c * Rabs 2; c * Rabs 2]]])).
    rewrite Hc. simpl. rewrite Rabs_pos_eq by lra.
    replace (2 * 2) with 4 by ring. reflexivity.
  - exact Hc.
  - exact Hr.
  - rewrite Hr. lra.
Qed.

(* ===================================================================== *)
(** ** Projection: recursion over containers *)
(* ===================================================================== *)

Lemma ebind_trace_outcome {A B} (m : Eff A) (f : A -> Eff B) :
  ebind m f
  = match outcome m with
    | Ok a => (trace m ++ trace (f a), outcome (f a))
    | Raise e => (trace m, Raise e)
    end.
Proof.
  destruct m as [t [a | e]]; simpl; [destruct (f a) |]; reflexivity.
Qed.

Section ProjectionRecursion.

Variable dcoll : DiscretizationCollection.
Variables s t : DOFDesc.

(** Field data that holds no DOFArray goes through [project] untouched,
    whatever the two descriptors are. *)
Lemma project_dd_without_dofarrays (vec : Field) :
  count_dofarrays vec = 0%nat -> project_dd dcoll s t vec = ([], Ok vec).
Proof.
  induction vec as [x | d | els IH] using Field_nested_ind; intro Hc.
  - simpl. destruct (DOFDesc_eqb s t); reflexivity.
  - simpl in Hc. discriminate.
  - cbn [project_dd]. destruct (DOFDesc_eqb s t); [reflexivity |].
    match goal with
    | |- ebind (?go els) _ = _ => assert (Hgo : go els = ([], Ok els))
    end.
    { cbn [count_dofarrays] in Hc. revert Hc.
      induction IH as [| a l Ha _ IHl]; intro Hc; [reflexivity |].
      apply Nat.eq_add_0 in Hc. destruct Hc as [Hca Hcl].
      rewrite (Ha Hca), (IHl Hcl). reflexivity. }
    rewrite Hgo. reflexivity.
Qed.

Hypothesis different : DOFDesc_eqb s t = false.
Variable conn : Connection.
Hypothesis connection : connection_from_dds dcoll s t = Ok conn.

Lemma project_dd_maps_connection (vec : Field) :
  outcome (project_dd dcoll s t vec) = map_dofarrays conn vec
  /\ (is_ok (map_dofarrays conn vec) = true ->
      trace (project_dd dcoll s t vec)
      = concat (repeat (leaf_events s t) (count_dofarrays vec))).
Proof.
  induction vec as [x | d | els IH] using Field_nested_ind.
  - simpl. rewrite different. split; reflexivity.
  - cbn [project_dd]. rewrite different.
    rewrite ebind_emit, connection, ebind_lift_ok, ebind_emit.
    cbn [fst snd map_dofarrays count_dofarrays].
    destruct (conn d) as [r | e]; split; reflexivity.
  - cbn [project_dd map_dofarrays count_dofarrays]. rewrite different.
    match goal with
    | |- outcome (ebind (?go els) _) = rbind (?go' els) _ /\ _ =>
        assert (Hgo : outcome (go els) = go' els
                      /\ (is_ok (go' els) = true ->
                          trace (go els)
                          = concat (repeat (leaf_events s t)
                                      ((fix total (l : list Field) : nat :=
                                          match l with
                                          | [] => 0%nat
                                          | e :: l' =>
                                              (count_dofarrays e + total l')%nat
                                          end) els))))
    end.
    { induction IH as [| a l [Hao Hat] _ [IHo IHt]]; [split; reflexivity |].
      rewrite ebind_trace_outcome, Hao.
      destruct (map_dofarrays conn a) as [y | e] eqn:Hy; cbn [rbind].
      - rewrite ebind_trace_outcome, IHo.
        match goal with
        | |- context [rbind ?r _] => destruct r as [ys | e] eqn:Hys
        end; cbn [rbind outcome trace fst snd eret is_ok].
        + split; [reflexivity |]. intros _.
          rewrite (Hat eq_refl), (IHt eq_refl), app_nil_r.
          now rewrite repeat_app, concat_app.
        + split; [reflexivity | discriminate].
      - split; [reflexivity | discriminate]. }
    destruct Hgo as [Ho Ht].
    rewrite ebind_trace_outcome, Ho.
    match goal with
    | |- context [rbind ?r _] => destruct r as [ys | e]
    end; cbn [rbind outcome trace fst snd eret is_ok].
    + split; [reflexivity |]. intros _. now rewrite (Ht eq_refl), app_nil_r.
    + split; [reflexivity | discriminate].
Qed.

End ProjectionRecursion.

(** X3. Field data that holds no DOFArray (a number, or object arrays of
    numbers at any depth, an empty object array included) is returned by
    [project] as it is, without any event, for every pair of descriptors
    that [as_dofdesc] accepts, equal or not. *)
Theorem project_without_dofarrays_is_identity :
  forall (V : Type) (convert : option V -> result DOFDesc)
         (dcoll : DiscretizationCollection) (src tgt : DDLike V)
         (s t : DOFDesc) (vec : Field),
    as_dofdesc convert src = Ok s ->
    as_dofdesc convert tgt = Ok t ->
    count_dofarrays vec = 0%nat ->
    project convert dcoll src tgt vec = ([], Ok vec).
Proof.
  intros V convert dcoll src tgt s t vec Hs Ht Hc.
  unfold project. rewrite Hs, Ht, !ebind_lift_ok.
  now apply project_dd_without_dofarrays.
Qed.

Lemma project_without_dofarrays_is_identity_witness :
  project example_convert example_dcoll (Other "vol"%string)
    (Other "all_faces"%string) (ObjArr [Num 1; ObjArr []; ObjArr [Num 2]])
  = ([], Ok (ObjArr [Num 1; ObjArr []; ObjArr [Num 2]])).
Proof.
  apply (@project_without_dofarrays_is_identity string example_convert
           example_dcoll (Other "vol"%string) (Other "all_faces"%string)
           DD_VOLUME (mkDOFDesc FACE_RESTR_ALL DISCR_TAG_BASE));
    reflexivity.
Defined.

(** X4. Between two different descriptors for which the collection has a
    connection, [project] yields the field data with that one connection
    applied to every DOFArray, left to right, numbers and the nesting of
    object arrays kept, and fails where the first application fails. When
    it succeeds, its events are exactly one look-up and one application of
    the connection per DOFArray. *)
Theorem project_applies_connection_to_each_dofarray :
  forall (V : Type) (convert : option V -> result DOFDesc)
         (dcoll : DiscretizationCollection) (src tgt : DDLike V)
         (s t : DOFDesc) (conn : Connection) (vec : Field),
    as_dofdesc convert src = Ok s ->
    as_dofdesc convert tgt = Ok t ->
    DOFDesc_eqb s t = false ->
    connection_from_dds dcoll s t = Ok conn ->
    outcome (project convert dcoll src tgt vec) = map_dofarrays conn vec
    /\ (is_ok (map_dofarrays conn vec) = true ->
        trace (project convert dcoll src tgt vec)
        = concat (repeat (leaf_events s t) (count_dofarrays vec))).
Proof.
  intros V convert dcoll src tgt s t conn vec Hs Ht Hne Hconn.
  unfold project. rewrite Hs, Ht, !ebind_lift_ok.
  now apply project_dd_maps_connection.
Qed.

Lemma project_applies_connection_to_each_dofarray_witness :
  outcome (project example_convert example_dcoll (Other "vol"%string)
             (Other "all_faces"%string)
             (ObjArr [DOFArr [[[1; 2; 3]]]; Num 5; DOFArr [[[4; 5; 6]]]]))
  = map_dofarrays (fun data => Ok data)
      (ObjArr [DOFArr [[[1; 2; 3]]]; Num 5; DOFArr [[[4; 5; 6]]]])
  /\ (is_ok (map_dofarrays (fun data => Ok data)
               (ObjArr [DOFArr [[[1; 2; 3]]]; Num 5; DOFArr [[[4; 5; 6]]]]))
      = true ->
      trace (project example_convert example_dcoll (Other "vol"%string)
               (Other "all_faces"%string)
               (ObjArr [DOFArr [[[1; 2; 3]]]; Num 5; DOFArr [[[4; 5; 6]]]]))
      = concat (repeat (leaf_events DD_VOLUME
                          (mkDOFDesc FACE_RESTR_ALL DISCR_TAG_BASE))
                  (count_dofarrays
                     (ObjArr [DOFArr [[[1; 2; 3]]]; Num 5;
                              DOFArr [[[4; 5; 6]]]])))).
Proof.
  apply (@project_applies_connection_to_each_dofarray string example_convert
           example_dcoll (Other "vol"%string) (Other "all_faces"%string)
           DD_VOLUME (mkDOFDesc FACE_RESTR_ALL DISCR_TAG_BASE)
           (fun data => Ok data));
    reflexivity.
Defined.

(* ===================================================================== *)
(** ** The memo dictionaries of the interpolation matrices *)
(* ===================================================================== *)

Lemma cache_lookup_head (k1 k2 : nat) (m : Matrix) (c : Cache) :
  cache_lookup (k1, k2) (((k1, k2), m) :: c) = Some m.
Proof. simpl. now rewrite !Nat.eqb_refl. Qed.

(** What a call through a memo dictionary leaves behind: after a call that
    returned [m], every call with groups of the same keys finds [m] and
    leaves the dictionary alone, whatever the body would compute on those
    groups; a call that raised left the dictionary as it was. *)
Lemma keyed_memoize_in_again
  (compute : ElementGroup -> ElementGroup -> result Matrix)
  (c c1 : Cache) (g1 g2 h1 h2 : ElementGroup) (r : result Matrix) :
  keyed_memoize_in compute c g1 g2 = (c1, r) ->
  discretization_key h1 = discretization_key g1 ->
  discretization_key h2 = discretization_key g2 ->
  match r with
  | Ok m => keyed_memoize_in compute c1 h1 h2 = (c1, Ok m)
  | Raise _ => c1 = c
  end.
Proof.
  unfold keyed_memoize_in. intros H E1 E2. rewrite E1, E2.
  destruct (cache_lookup (discretization_key g1, discretization_key g2) c)
    as [m | ] eqn:Hl.
  - inversion H; subst c1 r. rewrite Hl. reflexivity.
  - destruct (compute g1 g2) as [m | e]; inversion H; subst c1 r.
    + rewrite cache_lookup_head. reflexivity.
    + reflexivity.
Qed.

(** X5. The interpolation matrices are stored on the array context under
    the two discretization keys. After a call of
    [volume_quadrature_interpolation_matrix] that returned a matrix, a call
    with any two groups of the same keys returns that matrix and leaves the
    array context as it is, also where the groups have other nodes or
    another basis; the dictionary of the surface matrices is never
    touched. A call that raised left the array context unchanged. The same
    holds for [surface_quadrature_interpolation_matrix] with the two
    dictionaries swapped. *)
Theorem interpolation_matrices_are_memoized :
  forall (linalg_inv : Matrix -> result Matrix)
         (actx actx1 : ArrayContext) (b q b' q' : ElementGroup)
         (r : result Matrix),
    discretization_key b' = discretization_key b ->
    discretization_key q' = discretization_key q ->
    (volume_quadrature_interpolation_matrix linalg_inv actx b q = (actx1, r) ->
     surface_vand_cache actx1 = surface_vand_cache actx
     /\ match r with
        | Ok m => volume_quadrature_interpolation_matrix linalg_inv actx1 b' q'
                  = (actx1, Ok m)
        | Raise _ => actx1 = actx
        end)
    /\ (surface_quadrature_interpolation_matrix linalg_inv actx b q
        = (actx1, r) ->
        volume_vand_cache actx1 = volume_vand_cache actx
        /\ match r with
           | Ok m => surface_quadrature_interpolation_matrix linalg_inv actx1
                       b' q'
                     = (actx1, Ok m)
           | Raise _ => actx1 = actx
           end).
Proof.
  intros li [vc sc] actx1 b q b' q' r E1 E2. split.
  - unfold volume_quadrature_interpolation_matrix.
    cbn [volume_vand_cache surface_vand_cache].
    destruct (keyed_memoize_in (get_volume_vand li) vc b q) as [c1 r1] eqn:Hk.
    intro H. inversion H; subst actx1 r.
    cbn [volume_vand_cache surface_vand_cache].
    split; [reflexivity |].
    pose proof (keyed_memoize_in_again _ _ _ _ b' q' Hk E1 E2) as Ha.
    destruct r1 as [m | e].
    + rewrite Ha. reflexivity.
    + now subst c1.
  - unfold surface_quadrature_interpolation_matrix.
    cbn [volume_vand_cache surface_vand_cache].
    destruct (keyed_memoize_in (get_surface_vand li) sc b q) as [c1 r1] eqn:Hk.
    intro H. inversion H; subst actx1 r.
    cbn [volume_vand_cache surface_vand_cache].
    split; [reflexivity |].
    pose proof (keyed_memoize_in_again _ _ _ _ b' q' Hk E1 E2) as Ha.
    destruct r1 as [m | e].
    + rewrite Ha. reflexivity.
    + now subst c1.
Qed.

Lemma interpolation_matrices_are_memoized_witness :
  volume_quadrature_interpolation_matrix example_linalg_inv
    (mkArrayContext [((1%nat, 2%nat), [[1]; [1]; [1]])] [])
    example_stale_segment_group example_segment_quad_group
  = (mkArrayContext [((1%nat, 2%nat), [[1]; [1]; [1]])] [],
     Ok [[1]; [1]; [1]]).
Proof.
  pose proof (@interpolation_matrices_are_memoized example_linalg_inv
                example_actx
                (mkArrayContext [((1%nat, 2%nat), [[1]; [1]; [1]])] [])
                example_segment_group example_segment_quad_group
                example_stale_segment_group example_segment_quad_group
                (Ok [[1]; [1]; [1]])
                eq_refl eq_refl) as [Hv _].
  refine (proj2 (Hv _)).
  unfold volume_quadrature_interpolation_matrix, keyed_memoize_in,
    get_volume_vand. simpl.
  destruct (Req_dec_T 1 0) as [E | _]; [exfalso; lra |].
  simpl. unfold dot, rsum. simpl.
  replace (1 * / 1 + 0) with 1 by lra. reflexivity.
Defined.

Section MemoTransparency.

Variable linalg_inv : Matrix -> result Matrix.
Variable all_calls : list (ElementGroup * ElementGroup).

Hypothesis keys_determine :
  forall c1 c2, In c1 all_calls -> In c2 all_calls -> same_keys c1 c2 ->
    get_volume_vand linalg_inv (fst c1) (snd c1)
    = get_volume_vand linalg_inv (fst c2) (snd c2).

Lemma volume_interpolation_calls_fresh (l : list (ElementGroup * ElementGroup)) :
  incl l all_calls ->
  forall actx,
    stored_by_calls linalg_inv all_calls (volume_vand_cache actx) ->
    snd (volume_interpolation_calls linalg_inv actx l)
    = map (fun c => get_volume_vand linalg_inv (fst c) (snd c)) l.
Proof.
  induction l as [| [b q] rest IH]; intros Hin [vc sc] Hinv; [reflexivity |].
  assert (Hbq : In (b, q) all_calls) by (apply Hin; now left).
  assert (Hrest : incl rest all_calls)
    by (intros x Hx; apply Hin; now right).
  cbn [volume_interpolation_calls fst snd map].
  unfold volume_quadrature_interpolation_matrix, keyed_memoize_in.
  cbn [volume_vand_cache surface_vand_cache] in *.
  destruct (cache_lookup (discretization_key b, discretization_key q) vc)
    as [m | ] eqn:Hl.
  - destruct (Hinv (discretization_key b) (discretization_key q) m Hl) as [c [Hc [E1 [E2 Hm]]]].
    rewrite (@keys_determine c (b, q) Hc Hbq (conj E1 E2)) in Hm.
    cbn [fst snd] in Hm.
    specialize (IH Hrest (mkArrayContext vc sc) Hinv).
    destruct (volume_interpolation_calls linalg_inv (mkArrayContext vc sc) rest)
      as [a2 rs].
    cbn [snd] in *. now rewrite Hm, IH.
  - destruct (get_volume_vand linalg_inv b q) as [m | e] eqn:Hcomp.
    + assert (Hinv' : stored_by_calls linalg_inv all_calls
                        (((discretization_key b, discretization_key q), m) :: vc)).
      { intros k1 k2 m' Hlook. cbn [cache_lookup fst snd] in Hlook.
        destruct (Nat.eqb k1 (discretization_key b)) eqn:E1;
          destruct (Nat.eqb k2 (discretization_key q)) eqn:E2;
          cbn [andb] in Hlook; try (now apply Hinv).
        apply Nat.eqb_eq in E1. apply Nat.eqb_eq in E2.
        inversion Hlook; subst m'.
        exists (b, q). cbn [fst snd]. now repeat split. }
      specialize (IH Hrest (mkArrayContext _ sc) Hinv').
      destruct (volume_interpolation_calls linalg_inv
                  (mkArrayContext
                     (((discretization_key b, discretization_key q), m) :: vc)
                     sc) rest) as [a2 rs].
      cbn [snd] in *. now rewrite IH.
    + specialize (IH Hrest (mkArrayContext vc sc) Hinv).
      destruct (volume_interpolation_calls linalg_inv (mkArrayContext vc sc) rest)
        as [a2 rs].
      cbn [snd] in *. now rewrite IH.
Qed.

End MemoTransparency.

(** X6. Memoization of the volume interpolation matrix is transparent as
    long as the discretization keys tell the groups apart: on an array
    context that holds no volume matrix yet, every call of a sequence of
    calls yields what its body yields on the groups of that call (the
    matrix or the exception), provided any two pairs of groups of the
    sequence with the same keys have the same matrix. *)
Theorem memoized_interpolation_is_transparent :
  forall (linalg_inv : Matrix -> result Matrix) (actx : ArrayContext)
         (calls : list (ElementGroup * ElementGroup)),
    volume_vand_cache actx = [] ->
    (forall c1 c2, In c1 calls -> In c2 calls -> same_keys c1 c2 ->
       get_volume_vand linalg_inv (fst c1) (snd c1)
       = get_volume_vand linalg_inv (fst c2) (snd c2)) ->
    snd (volume_interpolation_calls linalg_inv actx calls)
    = map (fun c => get_volume_vand linalg_inv (fst c) (snd c)) calls.
Proof.
  intros li actx calls Hempty Hkeys.
  apply (@volume_interpolation_calls_fresh li calls Hkeys calls).
  - apply incl_refl.
  - rewrite Hempty. intros k1 k2 m H. discriminate.
Qed.

Lemma memoized_interpolation_is_transparent_witness :
  snd (volume_interpolation_calls example_linalg_inv example_actx
         [(example_segment_group, example_segment_quad_group);
          (example_stale_segment_group, example_face_quad_group);
          (example_segment_group, example_segment_quad_group)])
  = map (fun c => get_volume_vand example_linalg_inv (fst c) (snd c))
      [(example_segment_group, example_segment_quad_group);
       (example_stale_segment_group, example_face_quad_group);
       (example_segment_group, example_segment_quad_group)].
Proof.
  apply (@memoized_interpolation_is_transparent example_linalg_inv
           example_actx
           [(example_segment_group, example_segment_quad_group);
            (example_stale_segment_group, example_face_quad_group);
            (example_segment_group, example_segment_quad_group)]).
  - reflexivity.
  - intros c1 c2 H1 H2 [E1 E2].
    simpl in H1, H2.
    destruct H1 as [H1 | [H1 | [H1 | []]]]; subst c1;
      destruct H2 as [H2 | [H2 | [H2 | []]]]; subst c2;
      try reflexivity; simpl in E2; discriminate.
Defined.

(* ===================================================================== *)
(** ** Non-geometric factors: degenerate groups *)
(* ===================================================================== *)

Lemma distinct_pairs_few (n : nat) : (n < 2)%nat -> distinct_pairs n = [].
Proof.
  intro H. destruct n as [| [| n]]; [reflexivity | reflexivity | lia].
Qed.

Lemma rmap_app_raise {A B} (f : A -> result B) (pre post : list A) (x : A)
  (ys : list B) (e : exn) :
  rmap f pre = Ok ys -> f x = Raise e ->
  rmap f (pre ++ x :: post) = Raise e.
Proof.
  intros Hpre Hx. rewrite rmap_app, Hpre. simpl. now rewrite Hx.
Qed.

(** X7. A group that cannot have two distinct nodes stops
    [dt_non_geometric_factors]: once the factors of the groups before it
    are computed, a group of positive order with fewer than two nodes
    raises the [ValueError] of [min] on an empty sequence, and a group of
    order 0 whose number of nodes is not 1 fails the assertion. *)
Theorem dt_non_geometric_factors_degenerate_group :
  forall (dcoll : DiscretizationCollection) (dd : option DOFDesc)
         (discr : Discretization) (pre post : list ElementGroup)
         (g : ElementGroup) (cs : list R),
    discr_from_dd dcoll (match dd with None => DD_VOLUME | Some d => d end)
    = Ok discr ->
    groups discr = pre ++ g :: post ->
    rmap group_min_delta_r pre = Ok cs ->
    (order g <> 0%nat -> (nunit_dofs g < 2)%nat ->
     outcome (dt_non_geometric_factors dcoll dd)
     = Raise (ValueError "min() arg is an empty sequence"))
    /\ (order g = 0%nat -> nunit_dofs g <> 1%nat ->
        outcome (dt_non_geometric_factors dcoll dd) = Raise AssertionError).
Proof.
  intros dcoll dd discr pre post g cs Hd Hg Hpre.
  assert (Hout : forall e, group_min_delta_r g = Raise e ->
                 outcome (dt_non_geometric_factors dcoll dd) = Raise e).
  { intros e He. unfold dt_non_geometric_factors.
    rewrite outcome_ebind. cbn [outcome emit snd rbind].
    rewrite outcome_ebind. cbn [outcome lift snd]. rewrite Hd.
    cbn [rbind]. rewrite Hg. now apply rmap_app_raise with (ys := cs). }
  split.
  - intros Ho Hn. apply Hout. unfold group_min_delta_r.
    apply Nat.eqb_neq in Ho. rewrite Ho.
    rewrite (distinct_pairs_few Hn). reflexivity.
  - intros Ho Hn. apply Hout. unfold group_min_delta_r.
    rewrite Ho. apply Nat.eqb_neq in Hn. rewrite Hn. reflexivity.
Qed.

Lemma dt_non_geometric_factors_degenerate_group_witness :
  outcome (dt_non_geometric_factors example_1d_dcoll (Some dd_all_faces))
  = Raise (ValueError "min() arg is an empty sequence").
Proof.
  apply (proj1 (@dt_non_geometric_factors_degenerate_group example_1d_dcoll
                  (Some dd_all_faces)
                  (mkDiscretization [example_point_face_group] 0 1)
                  [] [] example_point_face_group []
                  eq_refl eq_refl eq_refl)).
  - discriminate.
  - unfold nunit_dofs. simpl. lia.
Defined.

(* ===================================================================== *)
(** ** Geometric factors: the warning *)
(* ===================================================================== *)

Lemma trace_ebind {A B} (m : Eff A) (f : A -> Eff B) :
  trace (ebind m f)
  = match outcome m with
    | Ok a => trace m ++ trace (f a)
    | Raise _ => trace m
    end.
Proof. rewrite ebind_trace_outcome. destruct (outcome m); reflexivity. Qed.

(** X9. [dt_geometric_factors] issues its warning about discretizations
    that do not fill their ambient space exactly when the discretization of
    the descriptor exists, all its groups are simplex groups and its
    dimension differs from its ambient dimension; a non-simplex group is
    rejected before any warning. *)
Theorem dt_geometric_factors_warns_iff_not_volume_filling :
  forall (elementwise_integral :
            DiscretizationCollection -> DOFDesc -> DOFArray -> result DOFArray)
         (dcoll : DiscretizationCollection) (dd : option DOFDesc),
    In (EvWarn non_volume_filling_warning)
       (trace (dt_geometric_factors elementwise_integral dcoll dd))
    <-> exists volm_discr,
          discr_from_dd dcoll
            (match dd with None => DD_VOLUME | Some d => d end)
          = Ok volm_discr
          /\ existsb (fun grp => negb (is_simplex grp)) (groups volm_discr)
             = false
          /\ discr_dim volm_discr <> discr_ambient_dim volm_discr.
Proof.
  intros ei dcoll dd. unfold dt_geometric_factors.
  set (d := match dd with None => DD_VOLUME | Some d => d end).
  rewrite trace_ebind. cbn [outcome emit snd trace fst].
  rewrite trace_ebind. cbn [outcome lift snd trace fst].
  destruct (discr_from_dd dcoll d) as [volm | e].
  2:{ split.
      - intros [H | []]; discriminate.
      - intros [v [H _]]; discriminate. }
  destruct (existsb (fun grp => negb (is_simplex grp)) (groups volm)) eqn:Hs.
  { split.
    - intros [H | []]; discriminate.
    - intros [v [Hv [Hs' _]]]. inversion Hv; subst v. congruence. }
  cbn [app].
  rewrite trace_ebind.
  destruct (Nat.eqb_spec (discr_dim volm) (discr_ambient_dim volm)) as [E | N];
    cbn [negb outcome emit eret snd trace fst app].
  - split.
    + intros [H | H]; [discriminate |].
      exfalso. revert H.
      rewrite trace_ebind. cbn [outcome emit snd trace fst].
      rewrite trace_ebind. cbn [outcome lift snd trace fst].
      destruct (ei dcoll d (ones volm)) as [cv | e];
        [| intros [H | []]; discriminate].
      destruct (Nat.eqb (dim dcoll) 1);
        [intros [H | []]; discriminate |].
      rewrite trace_ebind. cbn [outcome emit snd trace fst].
      rewrite trace_ebind. cbn [outcome lift snd trace fst].
      destruct (discr_from_dd dcoll _) as [fd | e];
        [| intros [H | [H | []]]; discriminate].
      rewrite trace_ebind. cbn [outcome emit snd trace fst].
      rewrite trace_ebind. cbn [outcome lift snd trace fst].
      destruct (ei dcoll _ (ones fd)) as [sa | e];
        [| intros [H | [H | [H | []]]]; discriminate].
      rewrite trace_ebind. cbn [outcome lift snd trace fst].
      destruct (rmap _ _) as [s | e];
        intros [H | [H | [H | []]]]; discriminate.
    + intros [v [Hv [_ Hne]]]. inversion Hv; subst v. contradiction.
  - split.
    + intros _. exists volm. auto.
    + intros _. right. now left.
Qed.

(* ===================================================================== *)
(** ** Length scales on groups that are not simplices *)
(* ===================================================================== *)

Lemma group_min_delta_r_returns (g : ElementGroup) :
  order g <> 0%nat -> grp_dim g <> 0%nat -> (2 <= nunit_dofs g)%nat ->
  exists c, group_min_delta_r g = Ok c.
Proof.
  intros Ho Hdim Hn.
  destruct (min_distance_of_nodes (unit_nodes g) Hn) as [c [Hc _]].
  exists c. unfold group_min_delta_r, zip_star_unit_nodes.
  apply Nat.eqb_neq in Hdim. rewrite Hdim.
  apply Nat.eqb_neq in Ho. rewrite Ho. exact Hc.
Qed.

(** X10. On a collection whose volume discretization holds a group that is
    not a simplex group, [characteristic_lengthscales] returns no array
    and computes no integral: it raises the [NotImplementedError] of
    [dt_geometric_factors] when the non-geometric factors of all groups
    can be computed, and the exception of [dt_non_geometric_factors]
    otherwise. *)
Theorem characteristic_lengthscales_needs_simplex_groups :
  forall (elementwise_integral :
            DiscretizationCollection -> DOFDesc -> DOFArray -> result DOFArray)
         (dcoll : DiscretizationCollection) (volm_discr : Discretization),
    discr_from_dd dcoll DD_VOLUME = Ok volm_discr ->
    existsb (fun grp => negb (is_simplex grp)) (groups volm_discr) = true ->
    is_ok (outcome (characteristic_lengthscales elementwise_integral dcoll))
    = false
    /\ (forall dd, ~ In (EvElementwiseIntegral dd)
                     (trace (characteristic_lengthscales elementwise_integral
                               dcoll)))
    /\ match rmap group_min_delta_r (groups volm_discr) with
       | Ok _ =>
           outcome (characteristic_lengthscales elementwise_integral dcoll)
           = Raise (NotImplementedError simplex_only)
       | Raise e =>
           outcome (characteristic_lengthscales elementwise_integral dcoll)
           = Raise e
       end.
Proof.
  intros ei dcoll volm Hd Hs.
  unfold characteristic_lengthscales, dt_non_geometric_factors,
    dt_geometric_factors.
  rewrite !ebind_trace_outcome. cbn [outcome emit lift snd trace fst].
  rewrite Hd. cbn [outcome emit lift snd trace fst app].
  destruct (rmap group_min_delta_r (groups volm)) as [cs | e];
    cbn [outcome emit lift snd trace fst app].
  - rewrite !ebind_trace_outcome. cbn [outcome emit lift snd trace fst].
    rewrite Hs.
    cbn [outcome eraise emit lift snd trace fst app is_ok].
    split; [reflexivity |]. split; [| reflexivity].
    intros dd [H | [H | []]]; discriminate.
  - split; [reflexivity |]. split; [| reflexivity].
    intros dd [H | []]; discriminate.
Qed.

Lemma characteristic_lengthscales_needs_simplex_groups_witness :
  outcome (characteristic_lengthscales example_integral example_mixed_dcoll)
  = Raise (NotImplementedError simplex_only).
Proof.
  pose proof (@characteristic_lengthscales_needs_simplex_groups
                example_integral example_mixed_dcoll
                (mkDiscretization [example_group; example_quad_group] 2 2)
                eq_refl eq_refl) as [_ [_ H]].
  cbn [groups] in H.
  destruct (@group_min_delta_r_returns example_group) as [c1 H1];
    [discriminate | discriminate | unfold nunit_dofs; simpl; lia |].
  destruct (@group_min_delta_r_returns example_quad_group) as [c2 H2];
    [discriminate | discriminate | unfold nunit_dofs; simpl; lia |].
  cbn [rmap] in H. rewrite H1, H2 in H. exact H.
Defined.

(* ===================================================================== *)
(** ** Flux types and wave speeds of the model operators *)
(* ===================================================================== *)

Lemma lower_ascii_idempotent (c : ascii) :
  lower_ascii (lower_ascii c) = lower_ascii c.
Proof.
  destruct c as [[] [] [] [] [] [] [] []]; reflexivity.
Qed.

Lemma lower_idempotent (s : string) : lower (lower s) = lower s.
Proof.
  induction s as [| c s IH]; simpl; [reflexivity |].
  now rewrite lower_ascii_idempotent, IH.
Qed.

(** X13. [burgers_numerical_flux] reads its flux type without regard to
    case: a flux type and its lower-case form give the same flux, the same
    events and the same exception. The constructor of [InviscidBurgers]
    is stricter: a flux type it accepts is in lower case already, so a
    flux type such as "LF", which the flux function takes for "lf", is
    rejected by it. *)
Theorem burgers_flux_type_case :
  forall (ops : FieldArith) (convert : option string -> result DOFDesc)
         (dcoll : DiscretizationCollection) (t : string)
         (u : TracePair) (mw : Field),
    burgers_numerical_flux ops convert dcoll t u mw
    = burgers_numerical_flux ops convert dcoll (lower t) u mw
    /\ (lower t <> t -> is_ok (InviscidBurgers_init dcoll t) = false).
Proof.
  intros ops convert dcoll t u mw. split.
  - unfold burgers_numerical_flux. now rewrite lower_idempotent.
  - unfold InviscidBurgers_init, flux_types. cbn [str_in].
    destruct (String.eqb_spec t "central") as [-> | _];
      [intro H; now elim H |].
    destruct (String.eqb_spec t "lf") as [-> | _];
      [intro H; now elim H |].
    reflexivity.
Qed.

Lemma burgers_flux_type_case_witness :
  burgers_numerical_flux example_ops example_convert example_1d_dcoll "LF"
    example_utpair (Num 1)
  = burgers_numerical_flux example_ops example_convert example_1d_dcoll "lf"
      example_utpair (Num 1)
  /\ is_ok (InviscidBurgers_init example_1d_dcoll "LF") = false.
Proof.
  pose proof (@burgers_flux_type_case example_ops example_convert
                example_1d_dcoll "LF" example_utpair (Num 1)) as [H1 H2].
  split; [exact H1 |].
  apply H2. discriminate.
Defined.

(** X14. A [WeakWaveOperator] stores the sign 1 for a positive speed and
    -1 otherwise, zero included, so that the factor [c * sign] of the
    upwind term of its flux is the value of its
    [max_characteristic_velocity], the absolute value of the speed. *)
Theorem wave_upwind_factor_is_max_velocity :
  forall (dcoll : DiscretizationCollection) (c : R) (flux_type : string),
    let self := WeakWaveOperator_init dcoll c flux_type in
    w_c self * w_sign self = WeakWaveOperator_max_characteristic_velocity self
    /\ (0 < c <-> w_sign self = 1)
    /\ (c <= 0 <-> w_sign self = -1).
Proof.
  intros dcoll c ft self.
  unfold self, WeakWaveOperator_init,
    WeakWaveOperator_max_characteristic_velocity.
  cbn [w_c w_sign].
  destruct (Rlt_dec 0 c) as [Hpos | Hneg].
  - rewrite Rabs_pos_eq by lra. repeat split; intros; lra.
  - apply Rnot_lt_le in Hneg.
    rewrite Rabs_left1 by assumption. repeat split; intros; lra.
Qed.

(* ===================================================================== *)
(** ** Symbolic geometry: what the builders can return *)
(* ===================================================================== *)

Lemma rbind_not_ok {A B} (m : result A) (f : A -> result B) :
  is_ok m = false -> is_ok (rbind m f) = false.
Proof. destruct m; [discriminate | reflexivity]. Qed.

Lemma rbind_always_fails {A B} (m : result A) (f : A -> result B) :
  (forall a, is_ok (f a) = false) -> is_ok (rbind m f) = false.
Proof. intro H. destruct m; [apply H | reflexivity]. Qed.

Lemma is_ok_rbind {A B} (m : result A) (f : A -> result B) :
  is_ok (rbind m f) = true -> exists a, m = Ok a /\ is_ok (f a) = true.
Proof. destruct m as [a | e]; [eauto | discriminate]. Qed.

Lemma rmap_head_not_ok {A B} (f : A -> result B) (x : A) (xs : list A) :
  is_ok (f x) = false -> is_ok (rmap f (x :: xs)) = false.
Proof. intro H. simpl. now apply rbind_not_ok. Qed.

Lemma range_pos (n : Z) : (1 <= n)%Z -> exists l, range n = 0%Z :: l.
Proof.
  intro H. unfold range.
  destruct (Z.to_nat n) as [| k] eqn:E; [lia |].
  simpl. eauto.
Qed.

Lemma range_nonpos (n : Z) : (n <= 0)%Z -> range n = [].
Proof.
  intro H. unfold range.
  replace (Z.to_nat n) with 0%nat by lia. reflexivity.
Qed.

Lemma rmap_range_not_ok {B} (f : Z -> result B) (n : Z) :
  (1 <= n)%Z -> is_ok (f 0%Z) = false -> is_ok (rmap f (range n)) = false.
Proof.
  intros Hn Hf. destruct (range_pos Hn) as [l ->].
  now apply rmap_head_not_ok.
Qed.

Section BuildersNeverReturn.

Variable V : Type.
Variable convert : option V -> result DOFDesc.
Variable P : PymbolicOps.
Variable G : GeometricAlgebra.
Variable ambient_dim : Z.
Hypothesis ambient_pos : (1 <= ambient_dim)%Z.

Lemma forward_metric_derivative_vector_not_ok (rst_axis : Z) (dd : DDLike V) :
  is_ok (forward_metric_derivative_vector ambient_dim rst_axis dd) = false.
Proof.
  unfold forward_metric_derivative_vector.
  apply rmap_range_not_ok; [exact ambient_pos |].
  apply forward_metric_nth_derivative_never_returns.
Qed.

Lemma forward_metric_derivative_mv_not_ok (rst_axis : Z) (dd : DDLike V) :
  is_ok (forward_metric_derivative_mv G ambient_dim rst_axis dd) = false.
Proof.
  unfold forward_metric_derivative_mv.
  apply rbind_not_ok, forward_metric_derivative_vector_not_ok.
Qed.

Lemma parametrization_derivative_ok_dim (dim : option Z) (dd : DDLike V) :
  is_ok (parametrization_derivative convert G ambient_dim dim dd) = true ->
  (default_dim dim ambient_dim <= 0)%Z.
Proof.
  unfold parametrization_derivative.
  destruct (Z.eqb_spec (default_dim dim ambient_dim) 0) as [E | N];
    [lia |].
  intro H.
  destruct (Z_le_gt_dec (default_dim dim ambient_dim) 0) as [Hle | Hgt];
    [exact Hle | exfalso].
  rewrite rbind_not_ok in H; [discriminate |].
  apply rmap_range_not_ok; [lia |].
  apply forward_metric_derivative_mv_not_ok.
Qed.

Lemma parametrization_derivative_negative_dim (dim : option Z)
  (dd : DDLike V) :
  (default_dim dim ambient_dim < 0)%Z ->
  parametrization_derivative convert G ambient_dim dim dd = Ok (PD_int 1).
Proof.
  intro H. unfold parametrization_derivative.
  destruct (Z.eqb_spec (default_dim dim ambient_dim) 0) as [E | N]; [lia |].
  rewrite range_nonpos by lia. reflexivity.
Qed.

Lemma pseudoscalar_ok_dim (dim : option Z) (dd : DDLike V) :
  is_ok (pseudoscalar convert G ambient_dim dim dd) = true ->
  default_dim dim ambient_dim = 0%Z.
Proof.
  unfold pseudoscalar. intro H.
  destruct (Z_lt_le_dec (default_dim dim ambient_dim) 0) as [Hneg | Hnn].
  - rewrite parametrization_derivative_negative_dim in H by exact Hneg.
    discriminate.
  - apply is_ok_rbind in H. destruct H as [pd [Hpd _]].
    assert (Hok : is_ok (parametrization_derivative convert G ambient_dim
                           (Some (default_dim dim ambient_dim)) dd) = true)
      by (rewrite Hpd; reflexivity).
    apply parametrization_derivative_ok_dim in Hok. simpl in Hok. lia.
Qed.

Lemma area_element_ok_dim (dim : option Z) (dd : DDLike V) :
  is_ok (area_element convert P G ambient_dim dim dd) = true ->
  default_dim dim ambient_dim = 0%Z.
Proof.
  unfold area_element. intro H.
  apply is_ok_rbind in H. destruct H as [p [Hp _]].
  apply (@pseudoscalar_ok_dim dim dd). rewrite Hp. reflexivity.
Qed.

Lemma surface_normal_ok_dim (dim : option Z) (dd : DDLike V) :
  is_ok (surface_normal convert P G ambient_dim dim dd) = true ->
  default_dim dim (ambient_dim - 1) = 0%Z.
Proof.
  unfold surface_normal. intro H.
  apply is_ok_rbind in H. destruct H as [d [_ H]].
  apply is_ok_rbind in H. destruct H as [p [Hp _]].
  assert (Hok : is_ok (pseudoscalar convert G ambient_dim
                         (Some (default_dim dim (ambient_dim - 1)))
                         (IsDD d)) = true)
    by (rewrite Hp; reflexivity).
  apply pseudoscalar_ok_dim in Hok. exact Hok.
Qed.

Lemma forward_metric_derivative_mat_ok_dim (dim : option Z) (dd : DDLike V) :
  is_ok (forward_metric_derivative_mat ambient_dim dim dd) = true ->
  default_dim dim ambient_dim = 0%Z.
Proof.
  unfold forward_metric_derivative_mat, check_shape. intro H.
  destruct (Z.ltb_spec ambient_dim 0) as [Ha | _]; [lia |].
  destruct (Z.ltb_spec (default_dim dim ambient_dim) 0) as [Hd | Hd];
    [discriminate |].
  cbn [orb rbind] in H.
  destruct (Z.eq_dec (default_dim dim ambient_dim) 0) as [E | N];
    [exact E | exfalso].
  rewrite rbind_not_ok in H; [discriminate |].
  apply rmap_range_not_ok; [lia |].
  apply forward_metric_derivative_vector_not_ok.
Qed.

Lemma first_fundamental_form_ok_dim (dim : option Z) (dd : DDLike V) :
  is_ok (first_fundamental_form P ambient_dim dim dd) = true ->
  default_dim dim (ambient_dim - 1) = 0%Z.
Proof.
  unfold first_fundamental_form. intro H.
  apply is_ok_rbind in H. destruct H as [m [Hm _]].
  assert (Hok : is_ok (forward_metric_derivative_mat ambient_dim
                         (Some (default_dim dim (ambient_dim - 1))) dd)
                = true)
    by (rewrite Hm; reflexivity).
  apply forward_metric_derivative_mat_ok_dim in Hok. exact Hok.
Qed.

Lemma inverse_metric_derivative_not_ok (rst_axis xyz_axis : Z)
  (dim : option Z) (dd : DDLike V) :
  is_ok (inverse_metric_derivative P G rst_axis xyz_axis ambient_dim dim dd)
  = false.
Proof.
  unfold inverse_metric_derivative.
  destruct (Z.eqb_spec (default_dim dim ambient_dim) ambient_dim) as [E | N];
    [| reflexivity].
  cbn [negb]. apply rbind_not_ok.
  apply rmap_range_not_ok; [lia |].
  apply forward_metric_derivative_mv_not_ok.
Qed.

Lemma inverse_metric_derivative_mat_ok_dim (dim : option Z) (dd : DDLike V) :
  is_ok (inverse_metric_derivative_mat P G ambient_dim dim dd) = true ->
  default_dim dim ambient_dim = 0%Z.
Proof.
  unfold inverse_metric_derivative_mat, check_shape. intro H.
  destruct (Z.ltb_spec ambient_dim 0) as [Ha | _]; [lia |].
  destruct (Z.ltb_spec (default_dim dim ambient_dim) 0) as [Hd | Hd];
    [discriminate |].
  cbn [orb rbind] in H.
  destruct (Z.eq_dec (default_dim dim ambient_dim) 0) as [E | N];
    [exact E | exfalso].
  rewrite rbind_not_ok in H; [discriminate |].
  apply rmap_range_not_ok; [lia |].
  apply rmap_range_not_ok; [exact ambient_pos |].
  apply inverse_metric_derivative_not_ok.
Qed.

Lemma inverse_first_fundamental_form_not_ok (dim : option Z)
  (dd : DDLike V) :
  is_ok (inverse_first_fundamental_form P G ambient_dim dim dd) = false.
Proof.
  unfold inverse_first_fundamental_form.
  set (d := default_dim dim (ambient_dim - 1)).
  apply rbind_not_ok.
  destruct (Z.eqb_spec ambient_dim d) as [E | N].
  - destruct (inverse_metric_derivative_mat P G ambient_dim (Some d) dd)
      as [m | e] eqn:Hm; [| reflexivity].
    assert (Hok : is_ok (inverse_metric_derivative_mat P G ambient_dim
                           (Some d) dd) = true)
      by (rewrite Hm; reflexivity).
    apply inverse_metric_derivative_mat_ok_dim in Hok. simpl in Hok. lia.
  - destruct (first_fundamental_form P ambient_dim (Some d) dd)
      as [m | e] eqn:Hm; [| reflexivity].
    assert (Hok : is_ok (first_fundamental_form P ambient_dim (Some d) dd)
                  = true)
      by (rewrite Hm; reflexivity).
    apply first_fundamental_form_ok_dim in Hok. simpl in Hok.
    cbn [rbind]. rewrite Hok. reflexivity.
Qed.

Lemma second_fundamental_form_not_ok (dim : option Z) (dd : DDLike V) :
  is_ok (second_fundamental_form convert P G ambient_dim dim dd) = false.
Proof.
  unfold second_fundamental_form.
  set (d := default_dim dim (ambient_dim - 1)).
  destruct (surface_normal convert P G ambient_dim (Some d) dd)
    as [n | e] eqn:Hn; [| reflexivity].
  assert (Hok : is_ok (surface_normal convert P G ambient_dim (Some d) dd)
                = true)
    by (rewrite Hn; reflexivity).
  apply surface_normal_ok_dim in Hok. simpl in Hok.
  cbn [rbind]. apply rbind_always_fails. intro nrm.
  rewrite Hok. reflexivity.
Qed.

Lemma shape_operator_not_ok (dim : option Z) (dd : DDLike V) :
  is_ok (shape_operator convert P G ambient_dim dim dd) = false.
Proof.
  unfold shape_operator.
  apply rbind_not_ok, inverse_first_fundamental_form_not_ok.
Qed.

End BuildersNeverReturn.

(** X15. With an ambient dimension of at least 1, the builders that need
    a metric derivative return no expression, whatever the dimension and
    the descriptor: [forward_metric_derivative_vector],
    [forward_metric_derivative_mv], [inverse_metric_derivative],
    [inverse_first_fundamental_form], [inverse_surface_metric_derivative],
    [second_fundamental_form] and [shape_operator] all raise. *)
Theorem metric_builders_never_return :
  forall (V : Type) (convert : option V -> result DOFDesc)
         (P : PymbolicOps) (G : GeometricAlgebra)
         (ambient_dim : Z) (dim : option Z) (dd : DDLike V)
         (rst_axis xyz_axis : Z),
    (1 <= ambient_dim)%Z ->
    is_ok (forward_metric_derivative_vector ambient_dim rst_axis dd) = false
    /\ is_ok (forward_metric_derivative_mv G ambient_dim rst_axis dd) = false
    /\ is_ok (inverse_metric_derivative P G rst_axis xyz_axis ambient_dim
                dim dd) = false
    /\ is_ok (inverse_first_fundamental_form P G ambient_dim dim dd) = false
    /\ is_ok (inverse_surface_metric_derivative P G rst_axis xyz_axis
                ambient_dim dim dd) = false
    /\ is_ok (second_fundamental_form convert P G ambient_dim dim dd) = false
    /\ is_ok (shape_operator convert P G ambient_dim dim dd) = false.
Proof.
  intros V convert P G a dim dd rst xyz Ha.
  split; [now apply forward_metric_derivative_vector_not_ok |].
  split; [now apply forward_metric_derivative_mv_not_ok |].
  split; [now apply inverse_metric_derivative_not_ok |].
  split; [now apply inverse_first_fundamental_form_not_ok |].
  split.
  { unfold inverse_surface_metric_derivative.
    destruct (a =? default_dim dim (a - 1))%Z.
    - now apply inverse_metric_derivative_not_ok.
    - apply rbind_not_ok. now apply inverse_first_fundamental_form_not_ok. }
  split; [now apply second_fundamental_form_not_ok |].
  now apply shape_operator_not_ok.
Qed.

Lemma metric_builders_never_return_witness :
  is_ok (forward_metric_derivative_vector 2 0 (@IsDD string DD_VOLUME))
  = false
  /\ is_ok (forward_metric_derivative_mv example_ga 2 0
              (@IsDD string DD_VOLUME)) = false
  /\ is_ok (inverse_metric_derivative example_pymbolic example_ga 0 1 2
              None (@IsDD string DD_VOLUME)) = false
  /\ is_ok (inverse_first_fundamental_form example_pymbolic example_ga 2
              None (@IsDD string DD_VOLUME)) = false
  /\ is_ok (inverse_surface_metric_derivative example_pymbolic example_ga
              0 1 2 None (@IsDD string DD_VOLUME)) = false
  /\ is_ok (second_fundamental_form example_convert example_pymbolic
              example_ga 2 None (@IsDD string DD_VOLUME)) = false
  /\ is_ok (shape_operator example_convert example_pymbolic example_ga 2
              None (@IsDD string DD_VOLUME)) = false.
Proof.
  apply (@metric_builders_never_return string example_convert
           example_pymbolic example_ga 2%Z None (@IsDD string DD_VOLUME)
           0%Z 1%Z).
  lia.
Defined.

(** X16. With an ambient dimension of at least 1, the builders that loop
    over the reference axes return only where that loop is empty:
    [forward_metric_derivative_mat], [inverse_metric_derivative_mat],
    [first_fundamental_form], [pseudoscalar], [area_element] and
    [surface_normal] return only for dimension 0, and
    [parametrization_derivative] only for a dimension of at most 0; for a
    negative dimension it returns the int 1 of an empty product, not a
    multivector. *)
Theorem builders_return_only_in_dimension_zero :
  forall (V : Type) (convert : option V -> result DOFDesc)
         (P : PymbolicOps) (G : GeometricAlgebra)
         (ambient_dim : Z) (dim : option Z) (dd : DDLike V),
    (1 <= ambient_dim)%Z ->
    (is_ok (forward_metric_derivative_mat ambient_dim dim dd) = true ->
     default_dim dim ambient_dim = 0%Z)
    /\ (is_ok (inverse_metric_derivative_mat P G ambient_dim dim dd) = true ->
        default_dim dim ambient_dim = 0%Z)
    /\ (is_ok (first_fundamental_form P ambient_dim dim dd) = true ->
        default_dim dim (ambient_dim - 1) = 0%Z)
    /\ (is_ok (pseudoscalar convert G ambient_dim dim dd) = true ->
        default_dim dim ambient_dim = 0%Z)
    /\ (is_ok (area_element convert P G ambient_dim dim dd) = true ->
        default_dim dim ambient_dim = 0%Z)
    /\ (is_ok (surface_normal convert P G ambient_dim dim dd) = true ->
        default_dim dim (ambient_dim - 1) = 0%Z)
    /\ (is_ok (parametrization_derivative convert G ambient_dim dim dd) = true ->
        (default_dim dim ambient_dim <= 0)%Z)
    /\ ((default_dim dim ambient_dim < 0)%Z ->
        parametrization_derivative convert G ambient_dim dim dd
        = Ok (PD_int 1)).
Proof.
  intros V convert P G a dim dd Ha.
  split; [now apply forward_metric_derivative_mat_ok_dim |].
  split; [now apply inverse_metric_derivative_mat_ok_dim |].
  split; [now apply first_fundamental_form_ok_dim |].
  split; [now apply pseudoscalar_ok_dim |].
  split; [now apply area_element_ok_dim |].
  split; [now apply surface_normal_ok_dim |].
  split; [now apply parametrization_derivative_ok_dim |].
  now apply parametrization_derivative_negative_dim.
Qed.

Lemma builders_return_only_in_dimension_zero_witness :
  is_ok (surface_normal example_convert example_pymbolic example_ga 1 None
           (Other "all_faces"%string)) = true
  /\ default_dim None (1 - 1) = 0%Z
  /\ parametrization_derivative example_convert example_ga 1 (Some (-1)%Z)
       (Other "all_faces"%string)
     = Ok (PD_int 1).
Proof.
  pose proof (@builders_return_only_in_dimension_zero string example_convert
                example_pymbolic example_ga 1%Z None
                (Other "all_faces"%string)) as H.
  pose proof (@builders_return_only_in_dimension_zero string example_convert
                example_pymbolic example_ga 1%Z (Some (-1)%Z)
                (Other "all_faces"%string)) as H'.
  assert (Hok : is_ok (surface_normal example_convert example_pymbolic
                         example_ga 1 None (Other "all_faces"%string))
                = true) by reflexivity.
  split; [exact Hok |].
  split.
  - apply H; [lia | exact Hok].
  - apply H'; [lia | simpl; lia].
Defined.

Lemma summed_curvature_ok_zero (V : Type)
  (convert : option V -> result DOFDesc) (P : PymbolicOps)
  (G : GeometricAlgebra) (ambient_dim : Z) (dim : option Z) (dd : DDLike V) :
  (1 <= ambient_dim)%Z ->
  summed_curvature convert P G ambient_dim dim dd
  = (if ((ambient_dim =? 1) || (ambient_dim =? default_dim dim (ambient_dim - 1)))%Z
     then Ok (Float 0)
     else summed_curvature convert P G ambient_dim dim dd)
  /\ (((ambient_dim =? 1) || (ambient_dim =? default_dim dim (ambient_dim - 1)))%Z
      = false ->
      is_ok (summed_curvature convert P G ambient_dim dim dd) = false).
Proof.
  intro Ha. unfold summed_curvature.
  destruct (ambient_dim =? 1)%Z; [split; [reflexivity | discriminate] |].
  destruct (ambient_dim =? default_dim dim (ambient_dim - 1))%Z;
    [split; [reflexivity | discriminate] |].
  cbn [orb]. split; [reflexivity |]. intros _.
  apply rbind_not_ok. now apply shape_operator_not_ok.
Qed.

(** X17. With an ambient dimension of at least 1, no curvature expression
    is ever built. [summed_curvature] returns exactly when the ambient
    dimension is 1 or equals the dimension, and then it returns the float
    zero. [mean_curvature] divides by [ambient_dim - 1] first: it raises
    [ZeroDivisionError] for the ambient dimension 1, where
    [summed_curvature] is zero, returns the float zero when the ambient
    dimension is at least 2 and equals the dimension, and raises
    otherwise. *)
Theorem curvature_is_zero_or_an_error :
  forall (V : Type) (convert : option V -> result DOFDesc)
         (P : PymbolicOps) (G : GeometricAlgebra)
         (ambient_dim : Z) (dim : option Z) (dd : DDLike V),
    (1 <= ambient_dim)%Z ->
    (is_ok (summed_curvature convert P G ambient_dim dim dd) = true <->
     ambient_dim = 1%Z \/ default_dim dim (ambient_dim - 1) = ambient_dim)
    /\ (is_ok (summed_curvature convert P G ambient_dim dim dd) = true ->
        summed_curvature convert P G ambient_dim dim dd = Ok (Float 0))
    /\ (ambient_dim = 1%Z ->
        mean_curvature convert P G ambient_dim dim dd = Raise ZeroDivisionError)
    /\ (ambient_dim <> 1%Z ->
        default_dim dim (ambient_dim - 1) = ambient_dim ->
        mean_curvature convert P G ambient_dim dim dd = Ok (Float 0))
    /\ (ambient_dim <> 1%Z ->
        default_dim dim (ambient_dim - 1) <> ambient_dim ->
        is_ok (mean_curvature convert P G ambient_dim dim dd) = false).
Proof.
  intros V convert P G a dim dd Ha.
  destruct (@summed_curvature_ok_zero V convert P G a dim dd Ha) as [Heq Hno].
  assert (Hdiv : a <> 1%Z ->
                 py_div 1 (IZR a - 1) = Ok (1 / (IZR a - 1))).
  { intro Hne. apply py_div_ok. intro Hz.
    assert (Hz' : IZR a = IZR 1) by (simpl; lra).
    apply eq_IZR in Hz'. contradiction. }
  split; [| split; [| split; [| split]]].
  - split.
    + intro Hok.
      destruct ((a =? 1) || (a =? default_dim dim (a - 1)))%Z eqn:E.
      * apply orb_true_iff in E. destruct E as [E | E].
        -- left. now apply Z.eqb_eq.
        -- right. symmetry. now apply Z.eqb_eq.
      * rewrite (Hno eq_refl) in Hok. discriminate.
    + intros [E | E]; rewrite Heq.
      * subst a. reflexivity.
      * rewrite E, Z.eqb_refl, orb_true_r. reflexivity.
  - intro Hok.
    destruct ((a =? 1) || (a =? default_dim dim (a - 1)))%Z eqn:E.
    + exact Heq.
    + rewrite (Hno eq_refl) in Hok. discriminate.
  - intros ->. unfold mean_curvature, py_div.
    destruct (Req_dec_T (1 - 1) 0) as [_ | Hn]; [reflexivity |].
    exfalso. apply Hn. ring.
  - intros Hne E. unfold mean_curvature. rewrite (Hdiv Hne). cbn [rbind].
    rewrite Heq, E, Z.eqb_refl, orb_true_r. cbn [rbind].
    f_equal. f_equal. ring.
  - intros Hne N. unfold mean_curvature. rewrite (Hdiv Hne). cbn [rbind].
    apply rbind_not_ok. apply Hno.
    apply orb_false_iff. split; apply Z.eqb_neq; congruence.
Qed.

Lemma curvature_is_zero_or_an_error_witness :
  mean_curvature example_convert example_pymbolic example_ga 1 None
    (Other "vol"%string)
  = Raise ZeroDivisionError
  /\ mean_curvature example_convert example_pymbolic example_ga 3 (Some 3%Z)
       (Other "vol"%string)
     = Ok (Float 0)
  /\ is_ok (mean_curvature example_convert example_pymbolic example_ga 3 None
              (Other "vol"%string)) = false.
Proof.
  split; [| split].
  - apply (@curvature_is_zero_or_an_error string example_convert
             example_pymbolic example_ga 1%Z None (Other "vol"%string));
      [lia | reflexivity].
  - apply (@curvature_is_zero_or_an_error string example_convert
             example_pymbolic example_ga 3%Z (Some 3%Z) (Other "vol"%string));
      [lia | discriminate | reflexivity].
  - apply (@curvature_is_zero_or_an_error string example_convert
             example_pymbolic example_ga 3%Z None (Other "vol"%string));
      [lia | discriminate | discriminate].
Defined.

Section Normals.

Variable V : Type.
Variable convert : option V -> result DOFDesc.
Variable P : PymbolicOps.
Variable G : GeometricAlgebra.
Variable mv_map : (Expr -> Expr) -> MV G -> MV G.
Variable mv_neg : MV G -> MV G.

Lemma mv_normal_ok_dim (dd : DDLike V) (ambient_dim : Z) (dim : option Z) :
  (1 <= ambient_dim)%Z ->
  is_ok (mv_normal convert P G mv_map mv_neg dd ambient_dim dim) = true ->
  ambient_dim = 1%Z /\ default_dim dim (ambient_dim - 1) = 0%Z.
Proof.
  intros Ha H. unfold mv_normal in H.
  destruct (as_dofdesc convert dd) as [d | e]; [| discriminate].
  cbn [rbind] in H.
  destruct (is_trace d); [| discriminate]. cbn [negb] in H.
  destruct (Z.eqb_spec (default_dim dim (ambient_dim - 1)) (ambient_dim - 1))
    as [E | N].
  - apply surface_normal_ok_dim in H; [| exact Ha].
    cbn [default_dim] in H. lia.
  - destruct (default_dim dim (ambient_dim - 1) =? ambient_dim - 2)%Z;
      discriminate.
Qed.

End Normals.

(** X18. [mv_normal] refuses a descriptor that is no trace descriptor
    with [ValueError]. With an ambient dimension of at least 1, [mv_normal]
    and [normal] return only for the ambient dimension 1 and the dimension
    0, where [mv_normal] is the [surface_normal] of the point-shaped
    faces. For a dimension of [ambient_dim - 2] the import of [project]
    fails, and for a dimension that is neither [ambient_dim - 1] nor
    [ambient_dim - 2] the assertion fails. *)
Theorem normals_exist_only_in_one_dimension :
  forall (V : Type) (convert : option V -> result DOFDesc)
         (P : PymbolicOps) (G : GeometricAlgebra)
         (mv_map : (Expr -> Expr) -> MV G -> MV G) (mv_neg : MV G -> MV G)
         (dd : DDLike V) (d : DOFDesc) (ambient_dim : Z) (dim : option Z),
    (1 <= ambient_dim)%Z ->
    as_dofdesc convert dd = Ok d ->
    (is_trace d = false ->
     mv_normal convert P G mv_map mv_neg dd ambient_dim dim
     = Raise (ValueError "may only request normals on boundaries"))
    /\ (is_ok (mv_normal convert P G mv_map mv_neg dd ambient_dim dim) = true ->
        ambient_dim = 1%Z /\ default_dim dim (ambient_dim - 1) = 0%Z)
    /\ (is_ok (normal_vector convert P G mv_map mv_neg dd ambient_dim dim)
        = true ->
        ambient_dim = 1%Z /\ default_dim dim (ambient_dim - 1) = 0%Z)
    /\ (is_trace d = true ->
        default_dim dim (ambient_dim - 1) = (ambient_dim - 1)%Z ->
        mv_normal convert P G mv_map mv_neg dd ambient_dim dim
        = surface_normal convert P G ambient_dim (Some (ambient_dim - 1)%Z)
            (IsDD d))
    /\ (is_trace d = true ->
        default_dim dim (ambient_dim - 1) = (ambient_dim - 2)%Z ->
        mv_normal convert P G mv_map mv_neg dd ambient_dim dim
        = Raise (ImportError
            "cannot import name 'project' from 'grudge.symbolic.operators'"))
    /\ (is_trace d = true ->
        default_dim dim (ambient_dim - 1) <> (ambient_dim - 1)%Z ->
        default_dim dim (ambient_dim - 1) <> (ambient_dim - 2)%Z ->
        mv_normal convert P G mv_map mv_neg dd ambient_dim dim
        = Raise AssertionError).
Proof.
  intros V convert P G mv_map mv_neg dd d a dim Ha Hd.
  split; [| split; [| split; [| split; [| split]]]].
  - intro Ht. unfold mv_normal. rewrite Hd. cbn [rbind]. now rewrite Ht.
  - now apply mv_normal_ok_dim.
  - intro H. unfold normal_vector in H.
    apply is_ok_rbind in H. destruct H as [m [Hm _]].
    apply (@mv_normal_ok_dim V convert P G mv_map mv_neg dd a dim Ha).
    rewrite Hm. reflexivity.
  - intros Ht E. unfold mv_normal. rewrite Hd. cbn [rbind].
    rewrite Ht, E, Z.eqb_refl. reflexivity.
  - intros Ht E. unfold mv_normal. rewrite Hd. cbn [rbind].
    rewrite Ht, E, Z.eqb_refl. cbn [negb].
    destruct (Z.eqb_spec (a - 2) (a - 1)) as [C | _]; [lia |].
    reflexivity.
  - intros Ht N1 N2. unfold mv_normal. rewrite Hd. cbn [rbind].
    rewrite Ht. cbn [negb].
    apply Z.eqb_neq in N1. apply Z.eqb_neq in N2. now rewrite N1, N2.
Qed.

Lemma normals_exist_only_in_one_dimension_witness :
  mv_normal example_convert example_pymbolic example_ga
    (fun _ m => m) (fun m => m) (Other "vol"%string) 2 None
  = Raise (ValueError "may only request normals on boundaries")
  /\ mv_normal example_convert example_pymbolic example_ga
       (fun _ m => m) (fun m => m) (Other "all_faces"%string) 3 (Some 1%Z)
     = Raise (ImportError
         "cannot import name 'project' from 'grudge.symbolic.operators'").
Proof.
  split.
  - apply (@normals_exist_only_in_one_dimension string example_convert
             example_pymbolic example_ga (fun _ m => m) (fun m => m)
             (Other "vol"%string) DD_VOLUME 2%Z None);
      [lia | reflexivity | reflexivity].
  - apply (@normals_exist_only_in_one_dimension string example_convert
             example_pymbolic example_ga (fun _ m => m) (fun m => m)
             (Other "all_faces"%string) dd_all_faces 3%Z (Some 1%Z));
      [lia | reflexivity | reflexivity | reflexivity].
Defined.

(* ===================================================================== *)
(** ** Multi-indices of reference axes *)
(* ===================================================================== *)

Lemma axes_increasing_head (a : Z * Z) (l : list (Z * Z)) :
  axes_increasing (a :: l) = true ->
  Forall (fun c => (fst a < fst c)%Z) l /\ axes_increasing l = true.
Proof.
  revert a. induction l as [| b l IH]; intros a H.
  - split; [constructor | reflexivity].
  - cbn [axes_increasing] in H. apply andb_true_iff in H.
    destruct H as [Hab Hl]. apply Z.ltb_lt in Hab.
    destruct (IH b Hl) as [Hall _]. split; [| exact Hl].
    constructor; [exact Hab |].
    eapply Forall_impl; [| exact Hall]. intros c Hc. simpl in Hc. lia.
Qed.

Lemma existsb_same_axis_false (a : Z * Z) (l : list (Z * Z)) :
  Forall (fun c => (fst a < fst c)%Z) l ->
  existsb (fun b => (fst a =? fst b)%Z) l = false.
Proof.
  induction 1 as [| c l Hc _ IH]; [reflexivity |].
  simpl. rewrite IH, orb_false_r. apply Z.eqb_neq. lia.
Qed.

Lemma sorted_distinct_iff_increasing (l : list (Z * Z)) :
  is_sorted l && distinct_axes l = axes_increasing l.
Proof.
  induction l as [| a [| b l] IH]; [reflexivity | reflexivity |].
  destruct (axes_increasing (a :: b :: l)) eqn:E.
  - destruct (axes_increasing_head _ _ E) as [Hall Hl].
    rewrite Hl in IH. apply andb_true_iff in IH. destruct IH as [Hs Hd].
    apply andb_true_iff. split.
    + change (is_sorted (a :: b :: l))
        with (pair_leb a b && is_sorted (b :: l)).
      rewrite Hs, andb_true_r. unfold pair_leb.
      inversion Hall as [| ? ? Hab _]; subst.
      apply orb_true_iff. left. now apply Z.ltb_lt.
    + change (distinct_axes (a :: b :: l))
        with (negb (existsb (fun c => (fst a =? fst c)%Z) (b :: l))
              && distinct_axes (b :: l)).
      rewrite Hd, andb_true_r.
      now rewrite existsb_same_axis_false.
  - apply andb_false_iff.
    change (axes_increasing (a :: b :: l))
      with ((fst a <? fst b)%Z && axes_increasing (b :: l)) in E.
    apply andb_false_iff in E. destruct E as [E | E].
    + apply Z.ltb_ge in E.
      destruct (Z.eq_dec (fst a) (fst b)) as [Heq | Hne].
      * right.
        change (distinct_axes (a :: b :: l))
          with (negb (existsb (fun c => (fst a =? fst c)%Z) (b :: l))
                && distinct_axes (b :: l)).
        apply andb_false_iff. left. simpl.
        apply Z.eqb_eq in Heq. now rewrite Heq.
      * left.
        change (is_sorted (a :: b :: l))
          with (pair_leb a b && is_sorted (b :: l)).
        apply andb_false_iff. left. unfold pair_leb.
        apply orb_false_iff. split.
        -- apply Z.ltb_ge. lia.
        -- apply andb_false_iff. left. now apply Z.eqb_neq.
    + rewrite E in IH. apply andb_false_iff in IH.
      destruct IH as [H | H].
      * left.
        change (is_sorted (a :: b :: l))
          with (pair_leb a b && is_sorted (b :: l)).
        rewrite H. apply andb_false_r.
      * right.
        change (distinct_axes (a :: b :: l))
          with (negb (existsb (fun c => (fst a =? fst c)%Z) (b :: l))
                && distinct_axes (b :: l)).
        rewrite H. apply andb_false_r.
Qed.

(** X19. [forward_metric_nth_derivative] checks its multi-index before
    anything else and accepts it exactly when the reference axes increase
    strictly; an integer index is always accepted. A multi-index that is
    not accepted raises [ValueError]. An accepted one never leads to an
    expression either: a value that is no descriptor raises
    [AttributeError], and a descriptor or [None] stops at the import of
    [RefDiffOperator]. *)
Theorem forward_metric_nth_derivative_outcomes :
  forall (V : Type) (xyz_axis : Z) (ref_axes : RefAxes) (dd : DDLike V),
    (axes_increasing (axes_of ref_axes) = false <->
     exists msg,
       forward_metric_nth_derivative xyz_axis ref_axes dd
       = Raise (ValueError msg))
    /\ (axes_increasing (axes_of ref_axes) = true ->
        forward_metric_nth_derivative xyz_axis ref_axes dd
        = match dd with
          | Other _ => Raise (AttributeError "with_discr_tag")
          | _ => Raise (ImportError
                   "cannot import name 'RefDiffOperator' from 'grudge.symbolic.operators'")
          end)
    /\ (forall i, axes_increasing (axes_of (AxisIndex i)) = true).
Proof.
  intros V xyz ref_axes dd.
  assert (Hacc : axes_increasing (axes_of ref_axes) = true ->
            forward_metric_nth_derivative xyz ref_axes dd
            = match dd with
              | Other _ => Raise (AttributeError "with_discr_tag")
              | _ => Raise (ImportError
                       "cannot import name 'RefDiffOperator' from 'grudge.symbolic.operators'")
              end).
  { intro H. rewrite <- sorted_distinct_iff_increasing in H.
    apply andb_true_iff in H. destruct H as [Hs Hd].
    unfold forward_metric_nth_derivative. fold (axes_of ref_axes).
    rewrite Hs, Hd. cbn [negb].
    destruct dd; reflexivity. }
  split; [| split; [exact Hacc | reflexivity]].
  split.
  - intro H. rewrite <- sorted_distinct_iff_increasing in H.
    unfold forward_metric_nth_derivative. fold (axes_of ref_axes).
    destruct (is_sorted (axes_of ref_axes)); cbn [negb].
    + cbn [andb] in H. rewrite H. cbn [negb]. eexists; reflexivity.
    + eexists; reflexivity.
  - intros [msg H].
    destruct (axes_increasing (axes_of ref_axes)) eqn:E; [| reflexivity].
    rewrite (Hacc eq_refl) in H. destruct dd; discriminate.
Qed.

Lemma forward_metric_nth_derivative_outcomes_witness :
  (exists msg,
     forward_metric_nth_derivative 0 (AxisTuple [(1, 1); (0, 2)]%Z)
       (@IsDD string DD_VOLUME)
     = Raise (ValueError msg))
  /\ forward_metric_nth_derivative 0 (AxisTuple [(0, 1); (1, 1)]%Z)
       (@IsDD string DD_VOLUME)
     = Raise (ImportError
         "cannot import name 'RefDiffOperator' from 'grudge.symbolic.operators'").
Proof.
  split.
  - apply (@forward_metric_nth_derivative_outcomes string 0%Z
             (AxisTuple [(1, 1); (0, 2)]%Z) (@IsDD string DD_VOLUME)).
    reflexivity.
  - apply (@forward_metric_nth_derivative_outcomes string 0%Z
             (AxisTuple [(0, 1); (1, 1)]%Z) (@IsDD string DD_VOLUME)).
    reflexivity.
Defined.

(* ===================================================================== *)
(** ** Node coordinates *)
(* ===================================================================== *)

Lemma rmap_all_ok {A B} (f : A -> result B) (g : A -> B) (l : list A) :
  (forall x, In x l -> f x = Ok (g x)) -> rmap f l = Ok (map g l).
Proof.
  induction l as [| x l IH]; intro H; [reflexivity |].
  simpl. rewrite (H x (or_introl eq_refl)). cbn [rbind].
  rewrite IH by (intros y Hy; apply H; now right). reflexivity.
Qed.

(** X20. [nodes] yields one coordinate component per axis, in the order of
    the axes, all on the one converted descriptor; without a descriptor
    it takes the volume descriptor and does not consult the conversion. A
    scalar descriptor is refused with [ValueError] as soon as there is one
    axis, and not at all when there is none. *)
Theorem nodes_has_one_component_per_axis :
  forall (V : Type) (convert : option V -> result DOFDesc)
         (ambient_dim : Z) (dd : DDLike V) (d : DOFDesc),
    as_dofdesc convert dd = Ok d ->
    (is_discretized d = true -> domain_tag d <> DTAG_NONE ->
     nodes convert ambient_dim dd
     = Ok (map (fun i => NodeCoordinateComponentNode i
                           (match dd with PyNone => DD_VOLUME | _ => d end))
               (range ambient_dim)))
    /\ (dd <> PyNone -> is_discretized d = false -> (1 <= ambient_dim)%Z ->
        nodes convert ambient_dim dd
        = Raise (ValueError
            "dd must be a discretization for NodeCoordinateComponent"))
    /\ ((ambient_dim <= 0)%Z -> nodes convert ambient_dim dd = Ok [])
    /\ nodes convert ambient_dim PyNone
       = Ok (map (fun i => NodeCoordinateComponentNode i DD_VOLUME)
               (range ambient_dim)).
Proof.
  intros V convert a dd d Hd.
  assert (Hvol : nodes convert a PyNone
                 = Ok (map (fun i => NodeCoordinateComponentNode i DD_VOLUME)
                         (range a))).
  { unfold nodes. cbn [as_dofdesc rbind].
    apply rmap_all_ok. intros i _. reflexivity. }
  split; [| split; [| split; [| exact Hvol]]].
  - intros Hdisc Htag. destruct dd as [d' | | v]; [| exact Hvol |].
    + unfold nodes. rewrite Hd. cbn [rbind].
      apply rmap_all_ok. intros i _. unfold NodeCoordinateComponent.
      rewrite Hdisc. cbn [negb]. destruct (domain_tag d); congruence.
    + unfold nodes. rewrite Hd. cbn [rbind].
      apply rmap_all_ok. intros i _. unfold NodeCoordinateComponent.
      rewrite Hdisc. cbn [negb]. destruct (domain_tag d); congruence.
  - intros Hne Hdisc Ha. destruct (range_pos Ha) as [l Hl].
    destruct dd as [d' | | v]; [| contradiction |];
      unfold nodes; rewrite Hd; cbn [rbind]; rewrite Hl;
      cbn [rmap]; unfold NodeCoordinateComponent; rewrite Hdisc;
      reflexivity.
  - intro Ha. destruct dd as [d' | | v];
      unfold nodes; [rewrite Hd | | rewrite Hd]; cbn [as_dofdesc rbind];
      rewrite range_nonpos by exact Ha; reflexivity.
Qed.

Lemma nodes_has_one_component_per_axis_witness :
  nodes example_convert 2 (Other "all_faces"%string)
  = Ok [NodeCoordinateComponentNode 0 dd_all_faces;
        NodeCoordinateComponentNode 1 dd_all_faces].
Proof.
  apply (@nodes_has_one_component_per_axis string example_convert 2%Z
           (Other "all_faces"%string) dd_all_faces eq_refl).
  - reflexivity.
  - discriminate.
Defined.

(* ===================================================================== *)
(** ** The quadrature-based mass matrix *)
(* ===================================================================== *)

Lemma rmap_ok_Forall2 {A B} (f : A -> result B) (l : list A) (ys : list B) :
  rmap f l = Ok ys -> Forall2 (fun x y => f x = Ok y) l ys.
Proof.
  revert ys. induction l as [| x l IH]; intros ys H; simpl in H.
  - inversion H. constructor.
  - destruct (f x) as [y | e] eqn:Hy; [| discriminate]. cbn [rbind] in H.
    destruct (rmap f l) as [ys' | e] eqn:Hl; [| discriminate].
    cbn [rbind] in H. inversion H; subst ys.
    constructor; [exact Hy | now apply IH].
Qed.

(** Every row of a product has the number of columns of the right
    factor. *)
Lemma matmul_rows (A B C : Matrix) :
  matmul A B = Ok C -> Forall (fun row => List.length row = ncols B) C.
Proof.
  intro H. apply rmap_ok_Forall2 in H.
  induction H as [| row r A' C' Hrow _ IH]; constructor; [| exact IH].
  unfold row_matmul in Hrow.
  destruct (Nat.eqb _ _); [| discriminate].
  inversion Hrow. now rewrite length_map, length_seq.
Qed.

(** [(B.T @ diag(w)) @ B] is square, of the size of the number of
    columns of [B]. *)
Lemma gram_shape (B : Matrix) (w : list R) (T M : Matrix) :
  matmul (transpose B) (diag w) = Ok T ->
  matmul T B = Ok M ->
  List.length M = ncols B
  /\ Forall (fun row => List.length row = ncols B) M.
Proof.
  intros HT HM. split.
  - rewrite (@matmul_length _ _ _ HM), (@matmul_length _ _ _ HT).
    unfold transpose. now rewrite length_map, length_seq.
  - exact (@matmul_rows _ _ _ HM).
Qed.

(** X21. A matrix that [quadrature_based_mass_matrix] computes (its memo
    dictionary holds no matrix under the two keys) is square; the call
    asks for the interpolation matrix through the memo dictionary of
    [volume_quadrature_interpolation_matrix], which it leaves as that
    function does; and the matrix is stored, so that the next call with
    groups of the same keys returns it without computing it. *)
Theorem quadrature_based_mass_matrix_is_square :
  forall (linalg_inv : Matrix -> result Matrix) (actx actx1 : SbpContext)
         (b q : ElementGroup) (m : Matrix),
    cache_lookup (discretization_key b, discretization_key q)
      (mass_cache actx) = None ->
    quadrature_based_mass_matrix linalg_inv actx b q = (actx1, Ok m) ->
    Forall (fun row => List.length row = List.length m) m
    /\ interpolation_caches actx1
       = fst (volume_quadrature_interpolation_matrix linalg_inv
                (interpolation_caches actx) b q)
    /\ quadrature_based_mass_matrix linalg_inv actx1 b q = (actx1, Ok m).
Proof.
  intros li actx actx1 b q m Hmiss H.
  unfold quadrature_based_mass_matrix in H. rewrite Hmiss in H.
  destruct (volume_quadrature_interpolation_matrix li
              (interpolation_caches actx) b q)
    as [a1 [vdm_q | e]]; [| discriminate].
  destruct (matmul (transpose vdm_q)
              (diag (quad_weights (quadrature_rule q)))) as [T | e] eqn:HT;
    [| discriminate].
  cbn [rbind] in H.
  destruct (matmul T vdm_q) as [M | e] eqn:HM; [| discriminate].
  inversion H; subst actx1 m. clear H.
  destruct (@gram_shape _ _ _ _ HT HM) as [HlenM Hrows].
  split; [| split].
  - rewrite HlenM. exact Hrows.
  - reflexivity.
  - unfold quadrature_based_mass_matrix. cbn [mass_cache].
    rewrite cache_lookup_head. reflexivity.
Qed.

Lemma quadrature_based_mass_matrix_is_square_witness :
  Forall (fun row => List.length row
                     = List.length [[2 / 3; 1 / 3]; [1 / 3; 2 / 3]])
    [[2 / 3; 1 / 3]; [1 / 3; 2 / 3]]
  /\ example_p1_actx
     = fst (volume_quadrature_interpolation_matrix example_linalg_inv2
              example_p1_actx example_p1_group example_p1_quad_group)
  /\ quadrature_based_mass_matrix example_linalg_inv2
       (mkSbpContext example_p1_actx
          [((4%nat, 5%nat), [[2 / 3; 1 / 3]; [1 / 3; 2 / 3]])])
       example_p1_group example_p1_quad_group
     = (mkSbpContext example_p1_actx
          [((4%nat, 5%nat), [[2 / 3; 1 / 3]; [1 / 3; 2 / 3]])],
        Ok [[2 / 3; 1 / 3]; [1 / 3; 2 / 3]]).
Proof.
  apply (@quadrature_based_mass_matrix_is_square example_linalg_inv2
           (mkSbpContext example_p1_actx [])
           (mkSbpContext example_p1_actx
              [((4%nat, 5%nat), [[2 / 3; 1 / 3]; [1 / 3; 2 / 3]])])
           example_p1_group example_p1_quad_group
           [[2 / 3; 1 / 3]; [1 / 3; 2 / 3]]).
  - reflexivity.
  - unfold quadrature_based_mass_matrix.
    cbn [cache_lookup mass_cache interpolation_caches].
    unfold volume_quadrature_interpolation_matrix, keyed_memoize_in.
    cbn.
    unfold matmul, transpose, diag, row_matmul, column, ncols, dot, rsum;
      simpl.
    repeat match goal with
           | |- (_, _) = (_, _) => apply f_equal2
           | |- mkSbpContext _ _ = mkSbpContext _ _ => apply f_equal2
           | |- Ok _ = Ok _ => apply f_equal
           | |- _ :: _ = _ :: _ => apply f_equal2
           | |- @eq R _ _ => lra
           | |- [] = [] => reflexivity
           | |- @eq ArrayContext _ _ => reflexivity
           | |- @eq nat _ _ => reflexivity
           end.
Defined.

(* ===================================================================== *)
(** ** The surface interpolation matrix: what stops it *)
(* ===================================================================== *)

(** X23. [surface_quadrature_interpolation_matrix] checks its face group
    only when it computes: with nothing stored under the two keys, a face
    group that does not hold [nfaces] faces per element raises
    [AssertionError], and with the assertion met and the Vandermonde
    matrix inverted, a reference cell without faces raises the
    [ValueError] of [np.concatenate] on an empty list; in both cases the
    array context stays as it was. A matrix stored under the two keys is
    returned without any of these checks. *)
Theorem surface_interpolation_matrix_checks :
  forall (linalg_inv : Matrix -> result Matrix) (actx : ArrayContext)
         (b qf : ElementGroup),
    (cache_lookup (discretization_key b, discretization_key qf)
       (surface_vand_cache actx) = None ->
     nelements qf <> (nfaces b * nelements b)%nat ->
     surface_quadrature_interpolation_matrix linalg_inv actx b qf
     = (actx, Raise AssertionError))
    /\ (forall vdm_inv,
          cache_lookup (discretization_key b, discretization_key qf)
            (surface_vand_cache actx) = None ->
          nelements qf = (nfaces b * nelements b)%nat ->
          linalg_inv (vandermonde (basis_functions b) (unit_nodes b))
          = Ok vdm_inv ->
          shape_faces b = [] ->
          surface_quadrature_interpolation_matrix linalg_inv actx b qf
          = (actx,
             Raise (ValueError "need at least one array to concatenate")))
    /\ (forall m,
          cache_lookup (discretization_key b, discretization_key qf)
            (surface_vand_cache actx) = Some m ->
          surface_quadrature_interpolation_matrix linalg_inv actx b qf
          = (actx, Ok m)).
Proof.
  intros li [vc sc] b qf.
  unfold surface_quadrature_interpolation_matrix, keyed_memoize_in.
  cbn [volume_vand_cache surface_vand_cache].
  split; [| split].
  - intros Hmiss Hne. rewrite Hmiss. unfold get_surface_vand.
    apply Nat.eqb_neq in Hne. rewrite Hne. reflexivity.
  - intros vdm_inv Hmiss Hn Hinv Hfaces. rewrite Hmiss.
    unfold get_surface_vand.
    rewrite Hn, Nat.eqb_refl. cbn [negb]. rewrite Hinv. cbn [rbind].
    rewrite Hfaces. reflexivity.
  - intros m Hhit. rewrite Hhit. reflexivity.
Qed.

Lemma surface_interpolation_matrix_checks_witness :
  surface_quadrature_interpolation_matrix example_linalg_inv example_actx
    example_segment_group example_segment_quad_group
  = (example_actx, Raise AssertionError)
  /\ surface_quadrature_interpolation_matrix example_linalg_inv
       (mkArrayContext [] [((1%nat, 2%nat), [[1]])])
       example_segment_group example_segment_quad_group
     = (mkArrayContext [] [((1%nat, 2%nat), [[1]])], Ok [[1]]).
Proof.
  split.
  - apply (@surface_interpolation_matrix_checks example_linalg_inv
             example_actx example_segment_group example_segment_quad_group);
      [reflexivity | simpl; lia].
  - apply (@surface_interpolation_matrix_checks example_linalg_inv
             (mkArrayContext [] [((1%nat, 2%nat), [[1]])])
             example_segment_group example_segment_quad_group).
    reflexivity.
Defined.

(* ===================================================================== *)
(** ** Projection without a connection *)
(* ===================================================================== *)

Section ProjectionLookup.

Variable dcoll : DiscretizationCollection.
Variables s t : DOFDesc.
Variable e : exn.
Hypothesis different : DOFDesc_eqb s t = false.
Hypothesis no_connection : connection_from_dds dcoll s t = Raise e.

Lemma project_dd_lookup_fails (vec : Field) :
  count_dofarrays vec <> 0%nat ->
  project_dd dcoll s t vec = ([EvConnectionFromDDs s t], Raise e).
Proof.
  induction vec as [x | d | els IH] using Field_nested_ind; intro Hc.
  - simpl in Hc. contradiction.
  - cbn [project_dd]. rewrite different.
    rewrite ebind_emit, no_connection. reflexivity.
  - cbn [project_dd]. rewrite different.
    match goal with
    | |- ebind (?go els) _ = _ =>
        assert (Hgo : go els = ([EvConnectionFromDDs s t], Raise e))
    end.
    { cbn [count_dofarrays] in Hc. revert Hc.
      induction IH as [| a l Ha _ IHl]; intro Hc; [contradiction |].
      destruct (Nat.eq_dec (count_dofarrays a) 0) as [Hz | Hnz].
      - rewrite (project_dd_without_dofarrays dcoll s t a Hz).
        rewrite Hz in Hc. cbn [Nat.add] in Hc.
        rewrite (IHl Hc). reflexivity.
      - rewrite (Ha Hnz). reflexivity. }
    rewrite Hgo. reflexivity.
Qed.

End ProjectionLookup.

(** X24. Between two different descriptors for which the collection has
    no connection, [project] on field data that holds a DOFArray raises
    the exception of the look-up at the first DOFArray: the numbers before
    it are passed over, the connection is asked for once and nothing is
    applied. *)
Theorem project_without_connection_raises :
  forall (V : Type) (convert : option V -> result DOFDesc)
         (dcoll : DiscretizationCollection) (src tgt : DDLike V)
         (s t : DOFDesc) (e : exn) (vec : Field),
    as_dofdesc convert src = Ok s ->
    as_dofdesc convert tgt = Ok t ->
    DOFDesc_eqb s t = false ->
    connection_from_dds dcoll s t = Raise e ->
    count_dofarrays vec <> 0%nat ->
    project convert dcoll src tgt vec
    = ([EvConnectionFromDDs s t], Raise e).
Proof.
  intros V convert dcoll src tgt s t e vec Hs Ht Hne Hconn Hc.
  unfold project. rewrite Hs, Ht, !ebind_lift_ok.
  now apply project_dd_lookup_fails.
Qed.

Lemma project_without_connection_raises_witness :
  project example_convert example_unconnected_dcoll (Other "vol"%string)
    (Other "all_faces"%string)
    (ObjArr [Num 5; DOFArr [[[1; 2; 3]]]; DOFArr [[[4; 5; 6]]]])
  = ([EvConnectionFromDDs DD_VOLUME dd_all_faces],
     Raise (ValueError "cannot interpolate from volume to all faces")).
Proof.
  apply (@project_without_connection_raises string example_convert
           example_unconnected_dcoll (Other "vol"%string)
           (Other "all_faces"%string) DD_VOLUME dd_all_faces
           (ValueError "cannot interpolate from volume to all faces")
           (ObjArr [Num 5; DOFArr [[[1; 2; 3]]]; DOFArr [[[4; 5; 6]]]]));
    try reflexivity.
  simpl. lia.
Defined.
